(** * sphinx_mdinclude.parse: the reStructuredText rule tables

    A shallow embedding of [sphinx_mdinclude/parse.py].  The module declares
    regular expressions (Python [re] patterns), two ordered rule tables and
    the handlers that turn a match object into a token or an element.

    The file has three layers:
    - [Re]: Python's backtracking regular expressions, as far as the patterns
      of [parse.py] use them (greedy and lazy repetition, groups, anchors,
      lookahead, one-character negative lookbehind, the DOTALL and MULTILINE
      flags);
    - [RestBlockParser] and [RestInlineParser]: the two classes of the
      source, pattern by pattern and handler by handler;
    - the properties of the rule tables, patterns and handlers. *)

From Stdlib Require Import List NArith Bool Arith Lia Ascii String.
From stdpp Require Import gmap strings.



(** ** Text

    A Python [str] is a sequence of code points; a code point is an [N]. *)

Abbreviation char := N (only parsing).
Abbreviation text := (list N) (only parsing).

(** [str s]: the text of a literal written in ASCII. *)
Definition str (s : string) : text :=
  map Ascii.N_of_ascii (String.list_ascii_of_string s).

Definition NL : char := 10%N.  (* \n *)
Definition SP : char := 32%N.  (* the space *)
Definition BQ : char := 96%N.  (* the backtick *)
Definition DQ : char := 34%N.  (* the double quote *)

(** [ch "x"]: the code point of an ASCII character. *)
Definition ch (a : Ascii.ascii) : char := Ascii.N_of_ascii a.

Arguments str _%_string : simpl never.
Arguments ch _%_char : simpl never.

Module Re.

(** *** Character classes *)

Definition just (c : char) : char -> bool := N.eqb c.
Arguments just : simpl never.
Definition one_of (cs : text) : char -> bool := fun c => existsb (N.eqb c) cs.
Definition none_of (cs : text) : char -> bool := fun c => negb (one_of cs c).
Definition range (lo hi : char) : char -> bool :=
  fun c => (lo <=? c)%N && (c <=? hi)%N.
Definition either (p q : char -> bool) : char -> bool := fun c => p c || q c.
Definition anything : char -> bool := fun _ => true.

(** [\s] on a [str] pattern: the code points for which [str.isspace] holds. *)
Definition space : char -> bool := fun c =>
  (range 9 13 c || range 28 32 c || just 133 c || just 160 c || just 5760 c
   || range 8192 8202 c || just 8232 c || just 8233 c || just 8239 c || just 8287 c
   || just 12288 c)%N.
(** [\S] *)
Definition nonspace : char -> bool := fun c => negb (space c).

(** *** Syntax *)

Record flags := { DOTALL : bool; MULTILINE : bool }.

(** A pattern compiled without flags. *)
Definition no_flags : flags := {| DOTALL := false; MULTILINE := false |}.

Inductive regex : Type :=
| Eps                              (* the empty pattern *)
| Chr (p : char -> bool)           (* a literal, a class, an escape *)
| Dot                              (* .  *)
| Cat (r1 r2 : regex)              (* r1r2 *)
| Alt (r1 r2 : regex)              (* r1|r2 *)
| Star (greedy : bool) (r : regex) (* r* and r*? *)
| Grp (i : nat) (r : regex)        (* (r), the i-th group *)
| Bol                              (* ^ *)
| Eol                              (* $ *)
| Look (positive : bool) (r : regex)   (* (?=r) and (?!r) *)
| NotAfter (p : char -> bool).     (* (?<!c) *)

Infix "⋅" := Cat (at level 40, left associativity).
Infix "∣" := Alt (at level 50, left associativity).

Definition lit (a : Ascii.ascii) : regex := Chr (just (ch a)).
Arguments lit _%_char.
Definition star (r : regex) : regex := Star true r.           (* r*  *)
Definition star_lazy (r : regex) : regex := Star false r.     (* r*? *)
Definition plus (r : regex) : regex := r ⋅ Star true r.       (* r+  *)
Definition plus_lazy (r : regex) : regex := r ⋅ Star false r. (* r+? *)
Definition opt (r : regex) : regex := r ∣ Eps.                (* r?  *)
Definition at_least2 (r : regex) : regex := r ⋅ r ⋅ Star true r. (* r{2,} *)

(** *** Matching

    The matcher walks the subject with a cursor: [seen] holds the characters
    left of the cursor, nearest first; [rest] the characters from the cursor
    on; [caps] the groups that have matched so far, latest first. *)

Record cursor := Cursor { seen : text; rest : text; caps : list (nat * text) }.

Definition advance (s : cursor) : option (char * cursor) :=
  match rest s with
  | [] => None
  | c :: t => Some (c, Cursor (c :: seen s) t (caps s))
  end.

(** The text between two cursors on the same subject, [s] left of [s']. *)
Definition between (s s' : cursor) : text :=
  take (length (rest s) - length (rest s')) (rest s).

Definition dot (f : flags) : char -> bool :=
  fun c => DOTALL f || negb (c =? NL)%N.

(** [^]: at the start of the subject; with MULTILINE also after a newline. *)
Definition at_bol (f : flags) (s : cursor) : bool :=
  match seen s with
  | [] => true
  | c :: _ => MULTILINE f && (c =? NL)%N
  end.

(** [$]: at the end of the subject or before its final newline; with
    MULTILINE before every newline. *)
Definition at_eol (f : flags) (s : cursor) : bool :=
  match rest s with
  | [] => true
  | c :: t => (c =? NL)%N && (MULTILINE f || match t with [] => true | _ => false end)
  end.

Definition not_after (p : char -> bool) (s : cursor) : bool :=
  match seen s with
  | [] => true
  | c :: _ => negb (p c)
  end.

Definition orelse {A} (x y : option A) : option A :=
  match x with Some a => Some a | None => y end.

(** The loop of a repetition: [n] bounds the number of iterations; an
    iteration that consumed nothing ends the loop. *)
Section StarLoop.
Variable body : (cursor -> option cursor) -> cursor -> option cursor.
Variable greedy : bool.
Variable k : cursor -> option cursor.

Fixpoint star_loop (n : nat) (s : cursor) {struct n} : option cursor :=
  match n with
  | O => k s
  | S n' =>
      let again :=
        body (fun s' =>
          if length (rest s') <? length (rest s) then star_loop n' s'
          else None) s in
      if greedy then orelse again (k s) else orelse (k s) again
  end.
End StarLoop.

(** [exec f r k s]: match [r] at [s], then the rest of the pattern [k];
    alternatives are explored in Python's order and the first complete match
    wins.  Every iteration of a repetition consumes a character, so the
    length of the rest bounds their number. *)
Fixpoint exec (f : flags) (r : regex) (k : cursor -> option cursor)
    (s : cursor) {struct r} : option cursor :=
  match r with
  | Eps => k s
  | Chr p =>
      match advance s with
      | Some (c, s') => if p c then k s' else None
      | None => None
      end
  | Dot =>
      match advance s with
      | Some (c, s') => if dot f c then k s' else None
      | None => None
      end
  | Cat r1 r2 => exec f r1 (exec f r2 k) s
  | Alt r1 r2 => orelse (exec f r1 k s) (exec f r2 k s)
  | Star greedy r1 => star_loop (exec f r1) greedy k (length (rest s)) s
  | Grp i r1 =>
      exec f r1 (fun s' =>
        k (Cursor (seen s') (rest s') ((i, between s s') :: caps s'))) s
  | Bol => if at_bol f s then k s else None
  | Eol => if at_eol f s then k s else None
  | Look true r1 =>
      match exec f r1 Some s with
      | Some s' => k (Cursor (seen s) (rest s) (caps s'))
      | None => None
      end
  | Look false r1 =>
      match exec f r1 Some s with
      | Some _ => None
      | None => k s
      end
  | NotAfter p => if not_after p s then k s else None
  end.

(** *** Match objects *)

Record Match := { m_start : cursor; m_end : cursor }.

(** [match.group(0)] *)
Definition group0 (m : Match) : text := between (m_start m) (m_end m).

(** [match.group(i)] for [i >= 1]; [None] is Python's [None]: the group took
    no part in the match. *)
Definition group (i : nat) (m : Match) : option text :=
  snd <$> List.find (fun p => Nat.eqb (fst p) i) (caps (m_end m)).

(** The number of characters the match consumed. *)
Definition consumed (m : Match) : nat := length (group0 m).

(** The match of [r] with the cursor after [before] (nearest character
    first) and in front of [after]. *)
Definition match_at (f : flags) (r : regex) (before after : text) : option Match :=
  let s := Cursor before after [] in
  (fun e => {| m_start := s; m_end := e |}) <$> exec f r Some s.

(** [re.compile(r, f).match(t)] *)
Definition re_match (f : flags) (r : regex) (t : text) : option Match :=
  match_at f r [] t.

(** [re.compile(r, f).search(t)]: the match at the leftmost position that
    has one. *)
Fixpoint search_from (f : flags) (r : regex) (before after : text) : option Match :=
  match match_at f r before after with
  | Some m => Some m
  | None =>
      match after with
      | [] => None
      | c :: t => search_from f r (c :: before) t
      end
  end.

Definition re_search (f : flags) (r : regex) (t : text) : option Match :=
  search_from f r [] t.

(** [re.compile(r, f).fullmatch(t)] *)
Definition at_end (s : cursor) : option cursor :=
  match rest s with [] => Some s | _ :: _ => None end.

Definition re_fullmatch (f : flags) (r : regex) (t : text) : option Match :=
  let s := Cursor [] t [] in
  (fun e => {| m_start := s; m_end := e |}) <$> exec f r at_end s.

(** *** The matches of a pattern

    [matches f r s s']: some way of matching [r] at [s] ends at [s'].  The
    relation lists every way; [exec] picks the first one in Python's order
    after which the rest of the pattern still matches. *)
Inductive matches (f : flags) : regex -> cursor -> cursor -> Prop :=
| M_Eps s : matches f Eps s s
| M_Chr p c s s' :
    advance s = Some (c, s') -> p c = true -> matches f (Chr p) s s'
| M_Dot c s s' :
    advance s = Some (c, s') -> dot f c = true -> matches f Dot s s'
| M_Cat r1 r2 s s1 s2 :
    matches f r1 s s1 -> matches f r2 s1 s2 -> matches f (Cat r1 r2) s s2
| M_AltL r1 r2 s s' : matches f r1 s s' -> matches f (Alt r1 r2) s s'
| M_AltR r1 r2 s s' : matches f r2 s s' -> matches f (Alt r1 r2) s s'
| M_StarNil g r s : matches f (Star g r) s s
| M_StarCons g r s s1 s2 :
    matches f r s s1 -> length (rest s1) < length (rest s) ->
    matches f (Star g r) s1 s2 -> matches f (Star g r) s s2
| M_Grp i r s s' :
    matches f r s s' ->
    matches f (Grp i r) s (Cursor (seen s') (rest s') ((i, between s s') :: caps s'))
| M_Bol s : at_bol f s = true -> matches f Bol s s
| M_Eol s : at_eol f s = true -> matches f Eol s s
| M_LookPos r s s' :
    exec f r Some s = Some s' ->
    matches f (Look true r) s (Cursor (seen s) (rest s) (caps s'))
| M_LookNeg r s : exec f r Some s = None -> matches f (Look false r) s s
| M_NotAfter p s : not_after p s = true -> matches f (NotAfter p) s s.

(** The cursor [s] moved [n] characters to the right. *)
Definition jump (n : nat) (s : cursor) : cursor :=
  Cursor (rev (take n (rest s)) ++ seen s) (drop n (rest s)) (caps s).

(** [s'] is [s] moved over [w], whatever the groups. *)
Definition moved (w : text) (s s' : cursor) : Prop :=
  rest s = w ++ rest s' /\ seen s' = rev w ++ seen s.

(** [parses f r sn w t cs cs']: with [sn] left of the cursor and [w ++ t]
    right of it, some match of [r] consumes exactly [w] and turns the groups
    [cs] into [cs']. *)
Definition parses (f : flags) (r : regex) (sn w t : text)
    (cs cs' : list (nat * text)) : Prop :=
  matches f r (Cursor sn (w ++ t) cs) (Cursor (rev w ++ sn) t cs').

(** The texts a pattern matches from end to end, taken alone. *)
Definition lang (f : flags) (r : regex) (w : text) : Prop :=
  exists e, matches f r (Cursor [] w []) e /\ rest e = [].

(** Patterns whose matches do not look at the context: no anchor, no
    lookaround, no group. *)
Fixpoint plain (r : regex) : bool :=
  match r with
  | Eps | Chr _ | Dot => true
  | Cat r1 r2 | Alt r1 r2 => plain r1 && plain r2
  | Star _ r1 => plain r1
  | Grp _ _ | Bol | Eol | Look _ _ | NotAfter _ => false
  end.

End Re.

Import Re.

(** ** Values of the handlers

    [Token = Dict[str, Any]] and [Element = Tuple[str, ...]]; the values the
    handlers of this module store are strings and, where a group took no
    part in the match, [None]. *)

Inductive value := VStr (t : text) | VNone.

Definition of_group (g : option text) : value :=
  match g with Some t => VStr t | None => VNone end.

Abbreviation State := (gmap string value) (only parsing).
Abbreviation Token := (gmap string value) (only parsing).
Abbreviation Element := (list value) (only parsing).

(** [re.compile(pattern, flags)] *)
Record compiled := Compile { pattern : regex; pflags : flags }.

(** ** The rule engine

    The driver that walks a rule table is mistune's; this module only
    declares tables and handlers for it. *)
Module Engine.
Section Driver.
Context {P T : Type}.
(** how the engine matches a table entry against the remaining text *)
Variable matcher : P -> text -> option Match.
(** [SPECIFICATION]: rule name to pattern *)
Variable SPECIFICATION : gmap string P.
(** [getattr(self, "parse_" + name)] *)
Variable method : string -> Match -> State -> T.

(** Modelled from the spec: mistune's driver is not part of the module.
    "each rule is a pattern matched against the remaining unconsumed text
    at the current cursor"; "a rule with a malformed/non-matching pattern
    simply fails to match and cedes to the next rule". *)
Definition try_rule (name : string) (t : text) : option Match :=
  match SPECIFICATION !! name with
  | Some p => matcher p t
  | None => None
  end.

(** Modelled from the spec: mistune's driver is not part of the module.
    "attempt each rule in table order"; "the first rule with a successful
    match wins". *)
Fixpoint first_match (rules : list string) (t : text) : option (string * Match) :=
  match rules with
  | [] => None
  | name :: rules' =>
      match try_rule name t with
      | Some m => Some (name, m)
      | None => first_match rules' t
      end
  end.

(** Modelled from the spec: mistune's driver is not part of the module.
    "its handler converts the raw match into a typed token/element, and
    the cursor advances past the consumed text": one step returns the
    handler's value and the number of characters consumed. *)
Definition step (rules : list string) (t : text) (state : State) : option (T * nat) :=
  match first_match rules t with
  | Some (name, m) => Some (method name m state, consumed m)
  | None => None
  end.
End Driver.
End Engine.

Module RestBlockParser.

Definition DOTALL_MULTILINE : flags := {| DOTALL := true; MULTILINE := true |}.

(** [r"^( *\.\..*?)\n(?=\S)"] *)
Definition DIRECTIVE : compiled :=
  Compile
    (Bol ⋅ Grp 1 (star (lit " ") ⋅ lit "." ⋅ lit "." ⋅ star_lazy Dot)
         ⋅ Chr (just NL) ⋅ Look true (Chr nonspace))
    DOTALL_MULTILINE.

(** [r"^( *\.\..*?)$"] *)
Definition ONELINE_DIRECTIVE : compiled :=
  Compile
    (Bol ⋅ Grp 1 (star (lit " ") ⋅ lit "." ⋅ lit "." ⋅ star_lazy Dot) ⋅ Eol)
    DOTALL_MULTILINE.

(** [r"^::\s*$"] *)
Definition REST_CODE_BLOCK : compiled :=
  Compile (Bol ⋅ lit ":" ⋅ lit ":" ⋅ star (Chr space) ⋅ Eol) DOTALL_MULTILINE.

Definition parse_directive (m : Match) (state : State) : Token :=
  {[ "type" := VStr (str "directive"); "text" := of_group (group 1 m) ]}.

Definition parse_oneline_directive (m : Match) (state : State) : Token :=
  {[ "type" := VStr (str "directive"); "text" := of_group (group 1 m) ]}.

Definition parse_rest_code_block (m : Match) (state : State) : Token :=
  {[ "type" := VStr (str "rest_code_block"); "text" := VStr [] ]}.

(** [BlockParser.SPECIFICATION], [BlockParser.DEFAULT_RULES] and the
    inherited [parse_*] methods are mistune's. *)
Section Tables.
Variable BlockParser_SPECIFICATION : gmap string compiled.
Variable BlockParser_DEFAULT_RULES : list string.
Variable BlockParser_method : string -> Match -> State -> Token.

(** [SPECIFICATION = BlockParser.SPECIFICATION.copy()] and [update] *)
Definition SPECIFICATION : gmap string compiled :=
  {[ "directive" := DIRECTIVE;
     "oneline_directive" := ONELINE_DIRECTIVE;
     "rest_code_block" := REST_CODE_BLOCK ]} ∪ BlockParser_SPECIFICATION.

Definition DEFAULT_RULES : list string :=
  BlockParser_DEFAULT_RULES
    ++ ["directive"; "oneline_directive"; "rest_code_block"].

(** The methods of the class: its own, then the inherited ones. *)
Definition method (name : string) : Match -> State -> Token :=
  if decide (name = "directive") then parse_directive
  else if decide (name = "oneline_directive") then parse_oneline_directive
  else if decide (name = "rest_code_block") then parse_rest_code_block
  else BlockParser_method name.

Definition block_match (p : compiled) (t : text) : option Match :=
  re_match (pflags p) (pattern p) t.

(** The rule that claims the text at the cursor. *)
Definition claim (t : text) : option (string * Match) :=
  Engine.first_match block_match SPECIFICATION DEFAULT_RULES t.

(** One step of the block engine on the remaining text. *)
Definition parse_step (t : text) (state : State) : option (Token * nat) :=
  Engine.step block_match SPECIFICATION method DEFAULT_RULES t state.
End Tables.

End RestBlockParser.

Module RestInlineParser.

Definition bq : regex := Chr (just BQ).

(** [r":.*?:`.*?`|`[^`]+`:.*?:"] *)
Definition REST_ROLE : regex :=
  lit ":" ⋅ star_lazy Dot ⋅ lit ":" ⋅ bq ⋅ star_lazy Dot ⋅ bq
  ∣ bq ⋅ plus (Chr (none_of [BQ])) ⋅ bq ⋅ lit ":" ⋅ star_lazy Dot ⋅ lit ":".

(** [r"`[^`]*?`_"] *)
Definition REST_LINK : regex :=
  bq ⋅ star_lazy (Chr (none_of [BQ])) ⋅ bq ⋅ lit "_".

(** [r"`\$((.*?)\$`)"] *)
Definition INLINE_MATH : regex :=
  bq ⋅ lit "$" ⋅ Grp 1 (Grp 2 (star_lazy Dot) ⋅ lit "$" ⋅ bq).

(** [r"(\s+)?::\s*$"] *)
Definition EOL_LITERAL_MARKER : regex :=
  opt (Grp 1 (plus (Chr space))) ⋅ lit ":" ⋅ lit ":" ⋅ star (Chr space) ⋅ Eol.

(** The class [[\\<!\[:_*`~ ]] of [TEXT]; its last member is the space. *)
Definition text_stop : char -> bool :=
  one_of [ch "\"; ch "<"; ch "!"; ch "["; ch ":"; ch "_"; ch "*"; BQ; ch "~"; SP].

(** The lookahead of [TEXT]: [r"[\\<!\[:_*`~ ]|https?://| {2,}\n|$"] *)
Definition text_lookahead : regex :=
  Chr text_stop
  ∣ lit "h" ⋅ lit "t" ⋅ lit "t" ⋅ lit "p" ⋅ opt (lit "s") ⋅ lit ":" ⋅ lit "/" ⋅ lit "/"
  ∣ at_least2 (lit " ") ⋅ Chr (just NL)
  ∣ Eol.

(** [r"^[\s\S]+?(?=[\\<!\[:_*`~ ]|https?://| {2,}\n|$)"] *)
Definition TEXT : regex :=
  Bol ⋅ plus_lazy (Chr (either space nonspace)) ⋅ Look true text_lookahead.

(** [HTML_TAGNAME] and [HTML_ATTRIBUTES] are imported from
    [mistune.inline_parser]; [INLINE_HTML] is a function of them.

    The five alternatives, in the order of the source:
    - [r"(?<!\\)<" TAGNAME ATTRIBUTES r"\s*>"], then group 1 around [r".*"],
      then [r"(?<!\\)</" TAGNAME r"\s*>"]
    - [r"(?<!\\)<" TAGNAME ATTRIBUTES r"\s*/>"]
    - [r"(?<!\\)<\?[\s\S]+?\?>"]
    - [r"(?<!\\)<![A-Z][\s\S]+?>"]
    - [r"(?<!\\)<!\[CDATA[\s\S]+?\]\]>"] *)
Definition backslash : char -> bool := just (ch "\").
Definition any_char : regex := Chr (either space nonspace).  (* [\s\S] *)

Definition HTML_OPEN_CLOSE (HTML_TAGNAME HTML_ATTRIBUTES : regex) : regex :=
  NotAfter backslash ⋅ lit "<" ⋅ HTML_TAGNAME ⋅ HTML_ATTRIBUTES
    ⋅ star (Chr space) ⋅ lit ">"
    ⋅ Grp 1 (star Dot)
    ⋅ NotAfter backslash ⋅ lit "<" ⋅ lit "/" ⋅ HTML_TAGNAME
    ⋅ star (Chr space) ⋅ lit ">".

Definition HTML_SELF_CLOSING (HTML_TAGNAME HTML_ATTRIBUTES : regex) : regex :=
  NotAfter backslash ⋅ lit "<" ⋅ HTML_TAGNAME ⋅ HTML_ATTRIBUTES
    ⋅ star (Chr space) ⋅ lit "/" ⋅ lit ">".

Definition HTML_PI : regex :=
  NotAfter backslash ⋅ lit "<" ⋅ lit "?" ⋅ plus_lazy any_char ⋅ lit "?" ⋅ lit ">".

Definition HTML_DOCTYPE : regex :=
  NotAfter backslash ⋅ lit "<" ⋅ lit "!" ⋅ Chr (range (ch "A") (ch "Z"))
    ⋅ plus_lazy any_char ⋅ lit ">".

Definition HTML_CDATA : regex :=
  NotAfter backslash ⋅ lit "<" ⋅ lit "!" ⋅ lit "["
    ⋅ lit "C" ⋅ lit "D" ⋅ lit "A" ⋅ lit "T" ⋅ lit "A"
    ⋅ plus_lazy any_char ⋅ lit "]" ⋅ lit "]" ⋅ lit ">".

Definition INLINE_HTML (HTML_TAGNAME HTML_ATTRIBUTES : regex) : regex :=
  HTML_OPEN_CLOSE HTML_TAGNAME HTML_ATTRIBUTES
  ∣ HTML_SELF_CLOSING HTML_TAGNAME HTML_ATTRIBUTES
  ∣ HTML_PI
  ∣ HTML_DOCTYPE
  ∣ HTML_CDATA.

Definition parse_rest_role (m : Match) (state : State) : Element :=
  [VStr (str "rest_role"); VStr (group0 m)].

Definition parse_rest_link (m : Match) (state : State) : Element :=
  [VStr (str "rest_link"); VStr (group0 m)].

Definition parse_inline_math (m : Match) (state : State) : Element :=
  [VStr (str "inline_math"); of_group (group 2 m)].

Definition parse_eol_literal_marker (m : Match) (state : State) : Element :=
  let marker := match group 1 m with None => str ":" | Some _ => str "" end in
  [VStr (str "eol_literal_marker"); VStr marker].

(** What one step of the inline engine produces: an element of a rule, or
    plain text. *)
Inductive produced := Elem (e : Element) | Plain (t : text).

(** [InlineParser.SPECIFICATION], [InlineParser.DEFAULT_RULES], the
    inherited [parse_*] methods, the flags the engine compiles the patterns
    with and the two HTML constants are mistune's.  The handlers
    [parse_double_emphasis], [parse_emphasis] and [parse_image_link] of the
    source read groups of mistune's patterns; they stand among the inherited
    methods here, which the properties below leave arbitrary. *)
Section Tables.
Variable InlineParser_SPECIFICATION : gmap string regex.
Variable InlineParser_DEFAULT_RULES : list string.
Variable InlineParser_method : string -> Match -> State -> Element.
Variable sc_flag : flags.
Variables HTML_TAGNAME HTML_ATTRIBUTES : regex.

(** [SPECIFICATION = InlineParser.SPECIFICATION.copy()] and [update] *)
Definition SPECIFICATION : gmap string regex :=
  {[ "inline_math" := INLINE_MATH;
     "rest_link" := REST_LINK;
     "rest_role" := REST_ROLE;
     "eol_literal_marker" := EOL_LITERAL_MARKER;
     "inline_html" := INLINE_HTML HTML_TAGNAME HTML_ATTRIBUTES ]}
  ∪ InlineParser_SPECIFICATION.

Definition DEFAULT_RULES : list string :=
  ["inline_math"; "rest_role"; "rest_link"; "eol_literal_marker"]
    ++ InlineParser_DEFAULT_RULES.

(** The methods of the class: its own, then the inherited ones. *)
Definition method (name : string) : Match -> State -> Element :=
  if decide (name = "rest_role") then parse_rest_role
  else if decide (name = "rest_link") then parse_rest_link
  else if decide (name = "inline_math") then parse_inline_math
  else if decide (name = "eol_literal_marker") then parse_eol_literal_marker
  else InlineParser_method name.

Definition inline_match (p : regex) (t : text) : option Match :=
  re_match sc_flag p t.

(** The rule that claims the text at the cursor. *)
Definition claim (t : text) : option (string * Match) :=
  Engine.first_match inline_match SPECIFICATION DEFAULT_RULES t.

(** Modelled from the spec: mistune's driver is not part of the module.
    "return the first match's element and consumed length, or fall through
    to plain-text accumulation governed by the TEXT boundary rule". *)
Definition parse_step (t : text) (state : State) : option (produced * nat) :=
  match Engine.step inline_match SPECIFICATION method DEFAULT_RULES t state with
  | Some (e, n) => Some (Elem e, n)
  | None =>
      match re_match sc_flag TEXT t with
      | Some m => Some (Plain (group0 m), consumed m)
      | None => None
      end
  end.
End Tables.

End RestInlineParser.

(** ** The constants of mistune the source imports

    [mistune.inline_parser.HTML_TAGNAME = r"[A-Za-z][A-Za-z0-9-]*"] and
    [HTML_ATTRIBUTES =
     r"(?:\s+[A-Za-z_:][A-Za-z0-9_.:-]*(?:\s*=\s*(?:[^ QUOTES=<>`]+|'[^']*?'|DQ[^DQ]*?DQ))?)*"]
    (DQ the double quote, QUOTES both quotes). *)
Module Mistune.

Definition alpha : char -> bool :=
  either (range (ch "A") (ch "Z")) (range (ch "a") (ch "z")).
Definition digit : char -> bool := range (ch "0") (ch "9").

Definition HTML_TAGNAME : regex :=
  Chr alpha ⋅ star (Chr (either alpha (either digit (just (ch "-"))))).

Definition attr_name : regex :=
  Chr (either alpha (one_of [ch "_"; ch ":"]))
  ⋅ star (Chr (either alpha (either digit (one_of [ch "_"; ch "."; ch ":"; ch "-"])))).

Definition attr_value : regex :=
  plus (Chr (none_of [SP; DQ; ch "'"; ch "="; ch "<"; ch ">"; BQ]))
  ∣ lit "'" ⋅ star_lazy (Chr (none_of [ch "'"])) ⋅ lit "'"
  ∣ Chr (just DQ) ⋅ star_lazy (Chr (none_of [DQ])) ⋅ Chr (just DQ).

Definition HTML_ATTRIBUTES : regex :=
  star (plus (Chr space) ⋅ attr_name
        ⋅ opt (star (Chr space) ⋅ lit "=" ⋅ star (Chr space) ⋅ attr_value)).

End Mistune.

(** ** Tables for the examples

    Two small inherited tables, for the examples below: a block table with
    an indented code rule and an inline table with an escape rule, both in
    the manner of mistune's.  Their handlers keep the matched text as it is. *)
Module Sample.
(** One or more times: four spaces or spaces and a tab, then [r"[^\n]+"]
    and newlines. *)
Definition INDENT_CODE : compiled :=
  Compile
    (plus ((lit " " ⋅ lit " " ⋅ lit " " ⋅ lit " " ∣ star (lit " ") ⋅ Chr (just 9%N))
           ⋅ plus (Chr (none_of [NL])) ⋅ star (Chr (just NL))))
    no_flags.

Definition BlockParser_SPECIFICATION : gmap string compiled :=
  {[ "indent_code" := INDENT_CODE ]}.
Definition BlockParser_DEFAULT_RULES : list string := ["indent_code"].
Definition BlockParser_method (name : string) (m : Match) (state : State) : Token :=
  {[ "type" := VStr (str "block_code"); "text" := VStr (group0 m) ]}.

Definition punctuation : text :=
  [ch "\"; ch "!"; DQ; ch "#"; ch "$"; ch "%"; ch "&"; ch "'"; ch "("; ch ")";
   ch "*"; ch "+"; ch ","; ch "."; ch "/"; ch ":"; ch ";"; ch "<"; ch "=";
   ch ">"; ch "?"; ch "@"; ch "["; ch "]"; ch "^"; BQ; ch "{"; ch "}"; ch "|";
   ch "_"; ch "~"; ch "-"].

Definition ESCAPE : regex := lit "\" ⋅ Grp 1 (Chr (one_of punctuation)).

Definition InlineParser_SPECIFICATION : gmap string regex := {[ "escape" := ESCAPE ]}.
Definition InlineParser_DEFAULT_RULES : list string := ["escape"].
Definition InlineParser_method (name : string) (m : Match) (state : State) : Element :=
  [VStr (str "text"); of_group (group 1 m)].
End Sample.

(** ** Inputs of the examples *)

Definition directive_block : text :=
  str ".. note::" ++ [NL] ++ str "   body" ++ [NL].

Definition oneline_then_text : text :=
  str ".. note:: short" ++ [NL] ++ str "Normal text" ++ [NL].

Definition indented_directive : text :=
  str "    .. note::" ++ [NL] ++ str "Next" ++ [NL].

Definition directive_then_text : text :=
  str ".. note::" ++ [NL] ++ str "   body" ++ [NL] ++ [NL]
    ++ str "Next paragraph" ++ [NL].

Definition math_or_role : text := str "`$x$`:r:".

Definition code_block_marker : text :=
  str "::" ++ [NL; NL] ++ str "    x = 1" ++ [NL].

Definition broken_span : text := str "<b>x" ++ [NL] ++ str "y</b>".

Definition two_spans : text := str "<b>x</b> and <i>y</i>".

(** ** Vocabulary of the properties *)

(** No newline of [t] is followed by a character other than whitespace: no
    later line of [t] starts in column 0 with text. *)
Fixpoint unterminated (t : text) : bool :=
  match t with
  | [] => true
  | c :: t' =>
      negb ((c =? NL)%N && match t' with d :: _ => nonspace d | [] => false end)
      && unterminated t'
  end.

(** [t.startswith(p)] *)
Definition starts_with (p t : text) : bool :=
  bool_decide (take (length p) t = p).

(** Where plain text stops: in front of a character of the class of [TEXT]
    (the space is one), in front of [http://] or [https://], and where [$]
    matches. *)
Definition text_boundary (f : flags) (t : text) : bool :=
  match t with c :: _ => RestInlineParser.text_stop c | [] => false end
  || starts_with (str "http://") t
  || starts_with (str "https://") t
  || at_eol f (Cursor [] t []).

(** ** Vocabulary of the properties of inline HTML *)

(** The text ends with a backslash, which escapes what follows it. *)
Definition escaped (w : text) : bool :=
  match last w with Some c => RestInlineParser.backslash c | None => false end.

(** [p] begins at no position inside [w], when [more] follows [w]. *)
Fixpoint absent_inside (p more w : text) : bool :=
  match w with
  | [] => true
  | _ :: w' => negb (starts_with p (w ++ more)) && absent_inside p more w'
  end.

(** Quotes, as an HTML tag reads them: outside, inside single quotes,
    inside double quotes. *)
Inductive quoting := Outside | InSingle | InDouble.

Definition quote_step (q : quoting) (c : char) : quoting :=
  match q with
  | Outside =>
      if (c =? ch "'")%N then InSingle else if (c =? DQ)%N then InDouble else Outside
  | InSingle => if (c =? ch "'")%N then Outside else InSingle
  | InDouble => if (c =? DQ)%N then Outside else InDouble
  end.

(** The quoting after [w], when [w] has no [>] outside quotes. *)
Fixpoint quote_scan (q : quoting) (w : text) : option quoting :=
  match w with
  | [] => Some q
  | c :: w' =>
      match q with
      | Outside => if (c =? ch ">")%N then None else quote_scan (quote_step q c) w'
      | _ => quote_scan (quote_step q c) w'
      end
  end.

(** No [>] outside quotes, and every quote closed. *)
Definition quiet (w : text) : Prop := quote_scan Outside w = Some Outside.

(** Neither [>] nor a quote. *)
Definition harmless (c : char) : Prop := c <> ch ">" /\ c <> ch "'" /\ c <> DQ.

(** The texts of tags. *)
Definition open_tag (name attrs ws : text) : text :=
  str "<" ++ name ++ attrs ++ ws ++ str ">".
Definition close_tag (name ws : text) : text :=
  str "</" ++ name ++ ws ++ str ">".
Definition self_closing_tag (name attrs ws : text) : text :=
  str "<" ++ name ++ attrs ++ ws ++ str "/>".

(** The first alternative of [INLINE_HTML] is an open tag, group 1 and a
    close tag. *)
Definition open_pattern (HTML_TAGNAME HTML_ATTRIBUTES : regex) : regex :=
  NotAfter RestInlineParser.backslash ⋅ lit "<" ⋅ HTML_TAGNAME ⋅ HTML_ATTRIBUTES
    ⋅ star (Chr space) ⋅ lit ">".
Definition close_pattern (HTML_TAGNAME : regex) : regex :=
  NotAfter RestInlineParser.backslash ⋅ lit "<" ⋅ lit "/" ⋅ HTML_TAGNAME
    ⋅ star (Chr space) ⋅ lit ">".

(** What the properties of [INLINE_HTML] ask of the two constants it is
    built from.  A tag name stands anywhere, sets no group, and has no [<],
    no [>] and no quote; attributes stand anywhere, set no group, and have
    no [>] outside quotes. *)
Definition tag_name_like (f : flags) (r : regex) : Prop :=
  plain r = true
  /\ forall sn w t cs cs', parses f r sn w t cs cs' -> quiet w /\ (ch "<" ∉ w).
Definition attributes_like (f : flags) (r : regex) : Prop :=
  plain r = true
  /\ forall sn w t cs cs', parses f r sn w t cs cs' -> quiet w.

(** The forms [INLINE_HTML] takes as they are: a processing instruction, a
    declaration that starts with the capital [u], a CDATA section. *)
Inductive html_form := ProcessingInstruction | Declaration (u : char) | CData.

Definition html_opener (k : html_form) : text :=
  match k with
  | ProcessingInstruction => str "<?"
  | Declaration u => str "<!" ++ [u]
  | CData => str "<![CDATA"
  end.

Definition html_closer (k : html_form) : text :=
  match k with
  | ProcessingInstruction => str "?>"
  | Declaration _ => str ">"
  | CData => str "]]>"
  end.

Definition html_form_ok (k : html_form) : bool :=
  match k with
  | Declaration u => range (ch "A") (ch "Z") u
  | _ => true
  end.

(** The literals [l], then [k]. *)
Definition then_literals (f : flags) (l : text) (k : cursor -> option cursor)
    : cursor -> option cursor :=
  fold_right (fun c k' => exec f (Chr (just c)) k') k l.

(** * Properties of the matcher *)

Module ReFacts.

Lemma orelse_Some {A} (x y : option A) a :
  orelse x y = Some a <-> x = Some a \/ (x = None /\ y = Some a).
Proof.
  destruct x; simpl; split.
  - intros [= ->]. by left.
  - intros [H|[H _]]; [exact H | discriminate H].
  - intros H. by right.
  - intros [H|[_ H]]; [discriminate H | exact H].
Qed.

Lemma orelse_None {A} (x y : option A) :
  orelse x y = None <-> x = None /\ y = None.
Proof.
  destruct x; simpl; split; try done.
  - intros [H _]. discriminate H.
  - intros [_ H]. exact H.
Qed.

Lemma orelse_is_Some {A} (x y : option A) :
  is_Some (orelse x y) <-> is_Some x \/ is_Some y.
Proof.
  destruct x; simpl; split; eauto.
  intros [[? H]|H]; [discriminate H | exact H].
Qed.

Lemma orelse_None_r {A} (x : option A) : orelse x None = x.
Proof. by destruct x. Qed.

(** The continuation is only applied, never inspected. *)
Lemma star_loop_ext body g k1 k2 n s :
  (forall k k' s, (forall x, k x = k' x) -> body k s = body k' s) ->
  (forall x, k1 x = k2 x) ->
  star_loop body g k1 n s = star_loop body g k2 n s.
Proof.
  intros Hb Hk. revert s. induction n as [|n IH]; intros s; simpl; [apply Hk|].
  rewrite (Hk s).
  rewrite (Hb _ (fun s' => if length (rest s') <? length (rest s)
                           then star_loop body g k2 n s' else None) s); [done|].
  intros x. destruct (_ <? _); [apply IH | done].
Qed.

Lemma exec_ext f r : forall k1 k2 s,
  (forall x, k1 x = k2 x) -> exec f r k1 s = exec f r k2 s.
Proof.
  induction r as [|p| |r1 IH1 r2 IH2|r1 IH1 r2 IH2|g r IH|i r IH| | |b r IH|p];
    intros k1 k2 s Hk; simpl.
  - apply Hk.
  - destruct (advance s) as [[c s']|]; [|done]. destruct (p c); [apply Hk | done].
  - destruct (advance s) as [[c s']|]; [|done]. destruct (dot f c); [apply Hk | done].
  - apply IH1. intros x. by apply IH2.
  - by rewrite (IH1 k1 k2 s Hk), (IH2 k1 k2 s Hk).
  - by apply star_loop_ext.
  - apply IH. intros x. apply Hk.
  - destruct (at_bol f s); [apply Hk | done].
  - destruct (at_eol f s); [apply Hk | done].
  - destruct b; destruct (exec f r Some s); try done; apply Hk.
  - destruct (not_after p s); [apply Hk | done].
Qed.

(** A pattern in front of a continuation that always fails, fails. *)
Lemma exec_fail f r : forall s, exec f r (fun _ => None) s = None.
Proof.
  induction r as [|p| |r1 IH1 r2 IH2|r1 IH1 r2 IH2|g r IH|i r IH| | |b r IH|p];
    intros s; simpl; try done.
  - destruct (advance s) as [[c s']|]; [|done]. by destruct (p c).
  - destruct (advance s) as [[c s']|]; [|done]. by destruct (dot f c).
  - rewrite (exec_ext f r1 _ (fun _ => None)); [apply IH1 | apply IH2].
  - by rewrite IH1, IH2.
  - generalize (length (rest s)). intros n. revert s.
    induction n as [|n IHn]; intros s; simpl; [done|].
    rewrite (exec_ext f r _ (fun _ => None)).
    + rewrite IH. by destruct g.
    + intros x. destruct (_ <? _); [apply IHn | done].
  - by destruct (at_bol f s).
  - by destruct (at_eol f s).
  - destruct b; by destruct (exec f r Some s).
  - by destruct (not_after p s).
Qed.

(** More fuel than the length of the rest changes nothing. *)
Lemma star_loop_fuel f r g k : forall n m s,
  length (rest s) <= n -> length (rest s) <= m ->
  star_loop (exec f r) g k n s = star_loop (exec f r) g k m s.
Proof.
  assert (Hnil : forall n s, length (rest s) = 0 ->
            star_loop (exec f r) g k n s = k s).
  { intros [|n] s Hs; simpl; [done|].
    rewrite (exec_ext f r _ (fun _ => None)).
    - rewrite exec_fail. destruct g; simpl; [done | by destruct (k s)].
    - intros x. rewrite Hs. by destruct (length (rest x)). }
  induction n as [|n IH]; intros m s Hn Hm.
  - rewrite !Hnil by lia. done.
  - destruct m as [|m]; [rewrite !Hnil by lia; done|]. simpl.
    rewrite (exec_ext f r _ (fun s' =>
      if length (rest s') <? length (rest s)
      then star_loop (exec f r) g k m s' else None)); [done|].
    intros x. destruct (Nat.ltb_spec (length (rest x)) (length (rest s))); [|done].
    apply IH; lia.
Qed.

(** A repetition unfolds to one iteration followed by the repetition. *)
Lemma exec_star f g r k s :
  exec f (Star g r) k s =
  let again :=
    exec f r (fun s' =>
      if length (rest s') <? length (rest s) then exec f (Star g r) k s'
      else None) s in
  if g then orelse again (k s) else orelse (k s) again.
Proof.
  change (exec f (Star g r) k s)
    with (star_loop (exec f r) g k (length (rest s)) s).
  cbv zeta.
  rewrite (exec_ext f r _ (fun s' =>
    if length (rest s') <? length (rest s)
    then star_loop (exec f r) g k (length (rest s) - 1) s' else None)).
  2:{ intros x. destruct (Nat.ltb_spec (length (rest x)) (length (rest s))); [|done].
      apply (star_loop_fuel f r g k); lia. }
  destruct (length (rest s)) as [|n] eqn:Hs.
  - cbn [star_loop]. rewrite (exec_ext f r _ (fun _ => None)).
    + rewrite exec_fail. destruct g; simpl; [done | by destruct (k s)].
    + intros x. by destruct (Nat.ltb_spec (length (rest x)) 0); [lia|].
  - cbn [star_loop]. rewrite Hs. by replace (S n - 1) with n by lia.
Qed.

(** *** The declarative reading *)

Lemma advance_Some s c s' :
  advance s = Some (c, s') <->
  rest s = c :: rest s' /\ seen s' = c :: seen s /\ caps s' = caps s.
Proof.
  unfold advance. destruct s as [sn [|c0 t] cs]; simpl.
  - split; [done | by intros [? _]].
  - split.
    + by intros [= -> <-].
    + destruct s' as [sn' rs' cs']; simpl. by intros ([= -> ->] & -> & ->).
Qed.

(** Soundness: the match [exec] returns is one of the matches of the
    pattern, and the continuation accepted its end. *)
Lemma exec_sound f r : forall k s e,
  exec f r k s = Some e -> exists s', matches f r s s' /\ k s' = Some e.
Proof.
  induction r as [|p| |r1 IH1 r2 IH2|r1 IH1 r2 IH2|g r IH|i r IH| | |b r IH|p];
    intros k s e H.
  - exists s. split; [constructor | exact H].
  - simpl in H. destruct (advance s) as [[c s']|] eqn:Ha; [|done].
    destruct (p c) eqn:Hp; [|done]. exists s'. split; [by econstructor | done].
  - simpl in H. destruct (advance s) as [[c s']|] eqn:Ha; [|done].
    destruct (dot f c) eqn:Hp; [|done]. exists s'. split; [by econstructor | done].
  - simpl in H. apply IH1 in H as (s1 & H1 & H).
    apply IH2 in H as (s2 & H2 & H). exists s2. split; [by econstructor | done].
  - simpl in H. apply orelse_Some in H as [H|[_ H]].
    + apply IH1 in H as (s' & H1 & H). exists s'. split; [by apply M_AltL | done].
    + apply IH2 in H as (s' & H1 & H). exists s'. split; [by apply M_AltR | done].
  - remember (length (rest s)) as n eqn:Hn. revert s Hn H.
    induction n as [n IHn] using lt_wf_ind. intros s Hn H.
    rewrite exec_star in H. cbv zeta in H.
    assert (Hagain :
      exec f r (fun s' => if length (rest s') <? length (rest s)
                          then exec f (Star g r) k s' else None) s = Some e ->
      exists s', matches f (Star g r) s s' /\ k s' = Some e).
    { intros Hx. apply IH in Hx as (s1 & H1 & Hx).
      destruct (Nat.ltb_spec (length (rest s1)) (length (rest s))) as [Hlt|]; [|done].
      destruct (IHn (length (rest s1)) ltac:(lia) s1 eq_refl Hx) as (s2 & H2 & Hx').
      exists s2. split; [by eapply M_StarCons | done]. }
    destruct g; apply orelse_Some in H as [H|[_ H]]; eauto;
      exists s; (split; [constructor | done]).
  - simpl in H. apply IH in H as (s' & H1 & H). eexists. split; [by constructor | done].
  - simpl in H. destruct (at_bol f s) eqn:Hb; [|done]. exists s. split; [by constructor|done].
  - simpl in H. destruct (at_eol f s) eqn:Hb; [|done]. exists s. split; [by constructor|done].
  - destruct b; simpl in H; destruct (exec f r Some s) as [s'|] eqn:Hl; try done.
    + eexists. split; [by apply M_LookPos | done].
    + exists s. split; [by apply M_LookNeg | done].
  - simpl in H. destruct (not_after p s) eqn:Hb; [|done]. exists s. split; [by constructor|done].
Qed.

(** Completeness: when some match of the pattern ends where the
    continuation accepts, [exec] finds a match. *)
Lemma exec_complete f r s s' :
  matches f r s s' -> forall k, is_Some (k s') -> is_Some (exec f r k s).
Proof.
  induction 1 as [s|p c s s' Ha Hp|c s s' Ha Hp|r1 r2 s s1 s2 _ IH1 _ IH2
    |r1 r2 s s' _ IH|r1 r2 s s' _ IH|g r s|g r s s1 s2 _ IH1 Hlt _ IH2
    |i r s s' _ IH|s Hb|s Hb|r s s' Hl|r s Hl|p s Hb]; intros k Hk.
  - exact Hk.
  - simpl. by rewrite Ha, Hp.
  - simpl. by rewrite Ha, Hp.
  - simpl. apply IH1, IH2, Hk.
  - simpl. apply orelse_is_Some. left. by apply IH.
  - simpl. apply orelse_is_Some. right. by apply IH.
  - rewrite exec_star. cbv zeta. destruct g; apply orelse_is_Some; auto.
  - rewrite exec_star. cbv zeta.
    assert (is_Some (exec f r (fun s' =>
              if length (rest s') <? length (rest s)
              then exec f (Star g r) k s' else None) s)) as Hagain.
    { apply IH1. destruct (Nat.ltb_spec (length (rest s1)) (length (rest s)));
        [by apply IH2 | lia]. }
    destruct g; apply orelse_is_Some; auto.
  - simpl. apply IH. exact Hk.
  - simpl. by rewrite Hb.
  - simpl. by rewrite Hb.
  - simpl. by rewrite Hl.
  - simpl. by rewrite Hl.
  - simpl. by rewrite Hb.
Qed.

Lemma exec_None f r k s s' :
  exec f r k s = None -> matches f r s s' -> k s' = None.
Proof.
  intros Hn Hm. destruct (k s') as [e|] eqn:Hk; [|done].
  destruct (exec_complete f r s s' Hm k) as [x Hx]; [by rewrite Hk|congruence].
Qed.

(** A match moves the cursor to the right over some text [w]. *)
Lemma matches_moved f r s s' : matches f r s s' -> exists w, moved w s s'.
Proof.
  unfold moved.
  induction 1 as [s|p c s s' Ha Hp|c s s' Ha Hp|r1 r2 s s1 s2 _ IH1 _ IH2
    |r1 r2 s s' _ IH|r1 r2 s s' _ IH|g r s|g r s s1 s2 _ IH1 Hlt _ IH2
    |i r s s' _ IH|s Hb|s Hb|r s s' Hl|r s Hl|p s Hb];
    try (by exists []); try done.
  - apply advance_Some in Ha as (? & ? & ?). by exists [c].
  - apply advance_Some in Ha as (? & ? & ?). by exists [c].
  - destruct IH1 as (w1 & E1 & F1), IH2 as (w2 & E2 & F2). exists (w1 ++ w2).
    rewrite E1, E2, F2, F1, rev_app_distr, !app_assoc. done.
  - destruct IH1 as (w1 & E1 & F1), IH2 as (w2 & E2 & F2). exists (w1 ++ w2).
    rewrite E1, E2, F2, F1, rev_app_distr, !app_assoc. done.
Qed.

Lemma between_moved w s s' : moved w s s' -> between s s' = w.
Proof.
  intros [E _]. unfold between. rewrite E, length_app.
  replace (length w + length (rest s') - length (rest s')) with (length w) by lia.
  by rewrite take_app_length.
Qed.

Lemma moved_length w s s' :
  moved w s s' -> length (rest s) = length w + length (rest s').
Proof. intros [E _]. by rewrite E, length_app. Qed.

Lemma moved_trans w1 w2 s s1 s2 :
  moved w1 s s1 -> moved w2 s1 s2 -> moved (w1 ++ w2) s s2.
Proof.
  intros [E1 F1] [E2 F2]. split.
  - by rewrite E1, E2, app_assoc.
  - by rewrite F2, F1, rev_app_distr, app_assoc.
Qed.

(** *** Inversion of the matches of the pattern formers *)

Lemma matches_eps f s s' : matches f Eps s s' <-> s' = s.
Proof. split; [by inversion 1 | intros ->; constructor]. Qed.

Lemma matches_chr f p s s' :
  matches f (Chr p) s s' <->
  exists c t, rest s = c :: t /\ p c = true /\ s' = Cursor (c :: seen s) t (caps s).
Proof.
  split.
  - inversion 1 as [|? c ? ? Ha Hp| | | | | | | | | | | |]; subst.
    apply advance_Some in Ha as (E & F & G). exists c, (rest s').
    destruct s' as [sn' rs' cs']; simpl in *. by subst.
  - intros (c & t & E & Hp & ->). eapply M_Chr; [|exact Hp].
    apply advance_Some. by simpl.
Qed.

Lemma matches_dot f s s' :
  matches f Dot s s' <->
  exists c t, rest s = c :: t /\ dot f c = true /\ s' = Cursor (c :: seen s) t (caps s).
Proof.
  split.
  - inversion 1 as [| |c ? ? Ha Hp| | | | | | | | | | |]; subst.
    apply advance_Some in Ha as (E & F & G). exists c, (rest s').
    destruct s' as [sn' rs' cs']; simpl in *. by subst.
  - intros (c & t & E & Hp & ->). eapply M_Dot; [|exact Hp].
    apply advance_Some. by simpl.
Qed.

Lemma matches_cat f r1 r2 s s2 :
  matches f (Cat r1 r2) s s2 <->
  exists s1, matches f r1 s s1 /\ matches f r2 s1 s2.
Proof.
  split; [inversion 1; subst; eauto | intros (s1 & ? & ?); by econstructor].
Qed.

Lemma matches_alt f r1 r2 s s' :
  matches f (Alt r1 r2) s s' <-> matches f r1 s s' \/ matches f r2 s s'.
Proof.
  split; [inversion 1; subst; auto | intros [?|?]; [by apply M_AltL | by apply M_AltR]].
Qed.

Lemma matches_grp f i r s s' :
  matches f (Grp i r) s s' <->
  exists s1, matches f r s s1 /\
    s' = Cursor (seen s1) (rest s1) ((i, between s s1) :: caps s1).
Proof.
  split; [inversion 1; subst; eauto | intros (s1 & ? & ->); by constructor].
Qed.

Lemma matches_bol f s s' : matches f Bol s s' <-> at_bol f s = true /\ s' = s.
Proof. split; [by inversion 1 | intros [? ->]; by constructor]. Qed.

Lemma matches_eol f s s' : matches f Eol s s' <-> at_eol f s = true /\ s' = s.
Proof. split; [by inversion 1 | intros [? ->]; by constructor]. Qed.

Lemma matches_not_after f p s s' :
  matches f (NotAfter p) s s' <-> not_after p s = true /\ s' = s.
Proof. split; [by inversion 1 | intros [? ->]; by constructor]. Qed.

Lemma matches_look_pos f r s s' :
  matches f (Look true r) s s' <->
  exists e, exec f r Some s = Some e /\ s' = Cursor (seen s) (rest s) (caps e).
Proof.
  split; [inversion 1; subst; eauto | intros (e & ? & ->); by constructor].
Qed.

Lemma matches_look_neg f r s s' :
  matches f (Look false r) s s' <-> exec f r Some s = None /\ s' = s.
Proof. split; [by inversion 1 | intros [? ->]; by constructor]. Qed.

(** A repetition of a class matches the runs of characters of the class. *)
Lemma matches_star_chr f g p s s' :
  matches f (Star g (Chr p)) s s' <->
  exists w t, rest s = w ++ t /\ Forall (fun c => p c = true) w /\
    s' = Cursor (rev w ++ seen s) t (caps s).
Proof.
  split.
  - intros H. remember (Star g (Chr p)) as r eqn:Hr.
    induction H as [| | | | | |g' r' s|g' r' s s1 s2 H1 _ Hlt _ IH2| | | | | |];
      try discriminate Hr.
    + exists [], (rest s). by destruct s.
    + injection Hr as -> ->. apply matches_chr in H1 as (c & t & E & Hp & ->).
      destruct (IH2 eq_refl) as (w & t' & E' & Hw & ->). simpl in *.
      exists (c :: w), t'. rewrite E, E'. split; [done|]. split; [by constructor|].
      simpl. by rewrite <- app_assoc.
  - intros (w & t & E & Hw & ->). revert s E.
    induction Hw as [|c w Hc Hw IH]; intros s E.
    + simpl in *. rewrite <- E. destruct s. constructor.
    + apply (M_StarCons f g (Chr p) s (Cursor (c :: seen s) (w ++ t) (caps s))).
      * apply matches_chr. by exists c, (w ++ t).
      * rewrite E. simpl. lia.
      * specialize (IH (Cursor (c :: seen s) (w ++ t) (caps s)) eq_refl).
        simpl in IH. simpl. by rewrite <- app_assoc.
Qed.

Lemma matches_star_dot_chr f g s s' :
  matches f (Star g Dot) s s' <-> matches f (Star g (Chr (dot f))) s s'.
Proof.
  split; intros H.
  - remember (Star g Dot) as r eqn:Hr.
    induction H as [| | | | | |g' r' s|g' r' s s1 s2 H1 _ Hlt _ IH2| | | | | |];
      try discriminate Hr.
    + constructor.
    + injection Hr as -> ->. eapply M_StarCons; [|exact Hlt|by apply IH2].
      apply matches_chr. by apply matches_dot in H1.
  - remember (Star g (Chr (dot f))) as r eqn:Hr.
    induction H as [| | | | | |g' r' s|g' r' s s1 s2 H1 _ Hlt _ IH2| | | | | |];
      try discriminate Hr.
    + constructor.
    + injection Hr as -> ->. eapply M_StarCons; [|exact Hlt|by apply IH2].
      apply matches_dot. by apply (matches_chr f (dot f)) in H1.
Qed.

Lemma matches_star_dot f g s s' :
  matches f (Star g Dot) s s' <->
  exists w t, rest s = w ++ t /\ Forall (fun c => dot f c = true) w /\
    s' = Cursor (rev w ++ seen s) t (caps s).
Proof. rewrite matches_star_dot_chr. apply matches_star_chr. Qed.

(** Takes a hypothesis on the matches of a concrete pattern apart. *)
Ltac inv_matches_step :=
  match goal with
  | H : matches _ (Cat _ _) _ _ |- _ => apply matches_cat in H as (? & ? & ?)
  | H : matches _ (Alt _ _) _ _ |- _ => apply matches_alt in H as [?|?]
  | H : matches _ Eps _ _ |- _ => apply matches_eps in H
  | H : matches _ (Chr _) _ _ |- _ => apply matches_chr in H as (? & ? & ? & ? & ?)
  | H : matches _ Dot _ _ |- _ => apply matches_dot in H as (? & ? & ? & ? & ?)
  | H : matches _ (Star _ (Chr _)) _ _ |- _ =>
      apply matches_star_chr in H as (? & ? & ? & ? & ?)
  | H : matches _ (Star _ Dot) _ _ |- _ =>
      apply matches_star_dot in H as (? & ? & ? & ? & ?)
  | H : matches _ (Grp _ _) _ _ |- _ => apply matches_grp in H as (? & ? & ?)
  | H : matches _ Bol _ _ |- _ => apply matches_bol in H as (? & ?)
  | H : matches _ Eol _ _ |- _ => apply matches_eol in H as (? & ?)
  | H : matches _ (NotAfter _) _ _ |- _ => apply matches_not_after in H as (? & ?)
  | H : matches _ (Look true _) _ _ |- _ => apply matches_look_pos in H as (? & ? & ?)
  | H : matches _ (Look false _) _ _ |- _ => apply matches_look_neg in H as (? & ?)
  end.

Ltac inv_matches :=
  repeat (inv_matches_step; cbn [rest seen caps] in *; subst).

(** A match object and the match the pattern made. *)
Lemma match_at_Some f r before after m :
  match_at f r before after = Some m ->
  exists e, m = {| m_start := Cursor before after []; m_end := e |} /\
    matches f r (Cursor before after []) e.
Proof.
  unfold match_at. destruct (exec f r Some _) as [e|] eqn:He; [|done].
  intros [= <-]. exists e. split; [done|].
  apply exec_sound in He as (s' & Hm & [= ->]). exact Hm.
Qed.

Lemma match_at_is_Some f r before after e :
  matches f r (Cursor before after []) e -> is_Some (match_at f r before after).
Proof.
  intros Hm. unfold match_at.
  destruct (exec_complete f r _ _ Hm Some) as [x ->]; [by eexists|]. by eexists.
Qed.

Lemma just_true c d : just c d = true <-> d = c.
Proof. unfold just. rewrite N.eqb_eq. split; congruence. Qed.

(** Replaces the literals of the goal and the hypotheses by their code
    points. *)
Ltac literals :=
  repeat match goal with
  | |- context [str ?s] =>
      let v := eval vm_compute in (str s) in change (str s) with v
  | |- context [ch ?a] =>
      let v := eval vm_compute in (ch a) in change (ch a) with v
  | H : context [str ?s] |- _ =>
      let v := eval vm_compute in (str s) in change (str s) with v in H
  | H : context [ch ?a] |- _ =>
      let v := eval vm_compute in (ch a) in change (ch a) with v in H
  end;
  unfold BQ, NL, SP, DQ in *.

Ltac just_eqs :=
  repeat match goal with
  | H : just _ _ = true |- _ => apply just_true in H
  end.

(** *** Matches as parses of the consumed text *)

Lemma matches_parses f r s s' :
  matches f r s s' <->
  exists w, rest s = w ++ rest s' /\ seen s' = rev w ++ seen s /\
    parses f r (seen s) w (rest s') (caps s) (caps s').
Proof.
  unfold parses. split.
  - intros H. destruct (matches_moved _ _ _ _ H) as (w & E & F). exists w.
    split; [done|]. split; [done|]. rewrite <- E, <- F. by destruct s, s'.
  - intros (w & E & F & H). rewrite <- E, <- F in H. by destruct s, s'.
Qed.

Lemma parses_eps f sn w t cs cs' :
  parses f Eps sn w t cs cs' <-> w = [] /\ cs' = cs.
Proof.
  unfold parses. rewrite matches_eps. split.
  - intros [= E1 E2 E3]. split; [|done].
    apply (f_equal length) in E2. rewrite length_app in E2.
    destruct w; [done | simpl in E2; lia].
  - by intros [-> ->].
Qed.

Lemma parses_chr f p sn w t cs cs' :
  parses f (Chr p) sn w t cs cs' <-> exists c, w = [c] /\ p c = true /\ cs' = cs.
Proof.
  unfold parses. rewrite matches_chr. simpl. split.
  - intros (c & t' & E & Hp & [= E1 E2 E3]). subst t'. exists c.
    destruct w as [|c' w]; simpl in E.
    + apply (f_equal length) in E. simpl in E. lia.
    + injection E as -> E. apply (f_equal length) in E. rewrite length_app in E.
      destruct w; [done | simpl in E; lia].
  - intros (c & -> & Hp & ->). by exists c, t.
Qed.

Lemma parses_dot f sn w t cs cs' :
  parses f Dot sn w t cs cs' <-> exists c, w = [c] /\ dot f c = true /\ cs' = cs.
Proof.
  rewrite <- (parses_chr f (dot f)). unfold parses.
  by rewrite matches_dot, matches_chr.
Qed.

Lemma parses_cat f r1 r2 sn w t cs cs' :
  parses f (Cat r1 r2) sn w t cs cs' <->
  exists w1 w2 cs1, w = w1 ++ w2 /\
    parses f r1 sn w1 (w2 ++ t) cs cs1 /\ parses f r2 (rev w1 ++ sn) w2 t cs1 cs'.
Proof.
  unfold parses. rewrite matches_cat. split.
  - intros (s1 & H1 & H2).
    destruct (matches_moved _ _ _ _ H1) as (w1 & E1 & F1).
    destruct (matches_moved _ _ _ _ H2) as (w2 & E2 & F2).
    destruct s1 as [sn1 rs1 cs1]. simpl in *. subst.
    rewrite app_assoc in E1. apply app_inv_tail in E1. subst w.
    exists w1, w2, cs1. split; [done|].
    rewrite <- app_assoc in H1. split; [done|].
    by rewrite rev_app_distr, <- app_assoc in H2.
  - intros (w1 & w2 & cs1 & -> & H1 & H2).
    exists (Cursor (rev w1 ++ sn) (w2 ++ t) cs1).
    rewrite <- app_assoc. split; [done|].
    by rewrite rev_app_distr, <- app_assoc.
Qed.

Lemma parses_alt f r1 r2 sn w t cs cs' :
  parses f (Alt r1 r2) sn w t cs cs' <->
  parses f r1 sn w t cs cs' \/ parses f r2 sn w t cs cs'.
Proof. unfold parses. apply matches_alt. Qed.

Lemma parses_grp f i r sn w t cs cs' :
  parses f (Grp i r) sn w t cs cs' <->
  exists cs1, parses f r sn w t cs cs1 /\ cs' = (i, w) :: cs1.
Proof.
  unfold parses. rewrite matches_grp. split.
  - intros (s1 & H1 & [= E1 E2 E3]). destruct s1 as [sn1 rs1 cs1]. simpl in *.
    subst. exists cs1. split; [done|]. f_equal. f_equal.
    apply between_moved. by split.
  - intros (cs1 & H1 & ->). exists (Cursor (rev w ++ sn) t cs1).
    split; [done|]. simpl. f_equal. f_equal. f_equal.
    symmetry. apply between_moved. by split.
Qed.

Lemma parses_star_chr f g p sn w t cs cs' :
  parses f (Star g (Chr p)) sn w t cs cs' <->
  Forall (fun c => p c = true) w /\ cs' = cs.
Proof.
  unfold parses. rewrite matches_star_chr. simpl. split.
  - intros (w' & t' & E & Hw & [= E1 E2 E3]). subst t'.
    apply app_inv_tail in E. by subst.
  - intros [Hw ->]. by exists w, t.
Qed.

Lemma parses_star_dot f g sn w t cs cs' :
  parses f (Star g Dot) sn w t cs cs' <->
  Forall (fun c => dot f c = true) w /\ cs' = cs.
Proof.
  rewrite <- (parses_star_chr f g (dot f) sn w t). unfold parses.
  apply matches_star_dot_chr.
Qed.

Lemma parses_nil_inv sn w t (cs cs' : list (nat * text)) :
  Cursor (rev w ++ sn) t cs' = Cursor sn (w ++ t) cs -> w = [] /\ cs' = cs.
Proof.
  intros [= E1 E2 E3]. split; [|done].
  apply (f_equal length) in E2. rewrite length_app in E2.
  destruct w; [done | simpl in E2; lia].
Qed.

Lemma parses_bol f sn w t cs cs' :
  parses f Bol sn w t cs cs' <->
  w = [] /\ cs' = cs /\ at_bol f (Cursor sn t cs) = true.
Proof.
  unfold parses. rewrite matches_bol. split.
  - intros [Hb E]. apply parses_nil_inv in E as [-> ->]. done.
  - by intros (-> & -> & Hb).
Qed.

Lemma parses_eol f sn w t cs cs' :
  parses f Eol sn w t cs cs' <->
  w = [] /\ cs' = cs /\ at_eol f (Cursor sn t cs) = true.
Proof.
  unfold parses. rewrite matches_eol. split.
  - intros [Hb E]. apply parses_nil_inv in E as [-> ->]. done.
  - by intros (-> & -> & Hb).
Qed.

Lemma parses_not_after f p sn w t cs cs' :
  parses f (NotAfter p) sn w t cs cs' <->
  w = [] /\ cs' = cs /\ not_after p (Cursor sn t cs) = true.
Proof.
  unfold parses. rewrite matches_not_after. split.
  - intros [Hb E]. apply parses_nil_inv in E as [-> ->]. done.
  - by intros (-> & -> & Hb).
Qed.

Lemma parses_look_pos f r sn w t cs cs' :
  parses f (Look true r) sn w t cs cs' <->
  w = [] /\ exists e, exec f r Some (Cursor sn t cs) = Some e /\ cs' = caps e.
Proof.
  unfold parses. rewrite matches_look_pos. simpl. split.
  - intros (e & He & [= E1 E2 E3]).
    assert (w = []) as ->.
    { apply (f_equal length) in E2. rewrite length_app in E2.
      destruct w; [done | simpl in E2; lia]. }
    split; [done|]. by exists e.
  - intros (-> & e & He & ->). by exists e.
Qed.

Lemma parses_look_neg f r sn w t cs cs' :
  parses f (Look false r) sn w t cs cs' <->
  w = [] /\ cs' = cs /\ exec f r Some (Cursor sn t cs) = None.
Proof.
  unfold parses. rewrite matches_look_neg. split.
  - intros [Hb E]. apply parses_nil_inv in E as [-> ->]. done.
  - by intros (-> & -> & Hb).
Qed.

(** Takes a hypothesis on the parses of a concrete pattern apart. *)
Ltac inv_parses_step :=
  match goal with
  | H : parses _ (Cat _ _) _ _ _ _ _ |- _ =>
      apply parses_cat in H as (? & ? & ? & ? & ? & ?)
  | H : parses _ (Alt _ _) _ _ _ _ _ |- _ => apply parses_alt in H as [?|?]
  | H : parses _ Eps _ _ _ _ _ |- _ => apply parses_eps in H as (? & ?)
  | H : parses _ (Chr _) _ _ _ _ _ |- _ => apply parses_chr in H as (? & ? & ? & ?)
  | H : parses _ Dot _ _ _ _ _ |- _ => apply parses_dot in H as (? & ? & ? & ?)
  | H : parses _ (Star _ (Chr _)) _ _ _ _ _ |- _ =>
      apply parses_star_chr in H as (? & ?)
  | H : parses _ (Star _ Dot) _ _ _ _ _ |- _ => apply parses_star_dot in H as (? & ?)
  | H : parses _ (Grp _ _) _ _ _ _ _ |- _ => apply parses_grp in H as (? & ? & ?)
  | H : parses _ Bol _ _ _ _ _ |- _ => apply parses_bol in H as (? & ? & ?)
  | H : parses _ Eol _ _ _ _ _ |- _ => apply parses_eol in H as (? & ? & ?)
  | H : parses _ (NotAfter _) _ _ _ _ _ |- _ =>
      apply parses_not_after in H as (? & ? & ?)
  | H : parses _ (Look true _) _ _ _ _ _ |- _ =>
      apply parses_look_pos in H as (? & ? & ? & ?)
  | H : parses _ (Look false _) _ _ _ _ _ |- _ =>
      apply parses_look_neg in H as (? & ? & ?)
  end.

Ltac inv_parses := repeat (inv_parses_step; subst); just_eqs; subst.

(** What a match object holds, read off the parse behind it. *)
Lemma match_at_parses f r before after m :
  match_at f r before after = Some m ->
  exists w t cs,
    after = w ++ t /\ parses f r before w t [] cs /\
    m = {| m_start := Cursor before after [];
           m_end := Cursor (rev w ++ before) t cs |} /\
    group0 m = w.
Proof.
  intros H. apply match_at_Some in H as (e & -> & Hm).
  apply matches_parses in Hm as (w & E & F & Hp). simpl in *.
  exists w, (rest e), (caps e). rewrite <- F. split; [done|]. split; [done|].
  split; [by destruct e|]. unfold group0. simpl. apply between_moved. by split.
Qed.

Lemma parses_match_at f r before w t cs :
  parses f r before w t [] cs -> is_Some (match_at f r before (w ++ t)).
Proof. apply match_at_is_Some. Qed.

Lemma group_lookup i s sn t cs :
  group i {| m_start := s; m_end := Cursor sn t cs |} =
  snd <$> List.find (fun p => Nat.eqb (fst p) i) cs.
Proof. done. Qed.

(** *** Repetitions of a class, in Python's order *)

Lemma jump_0 s : jump 0 s = s.
Proof. by destruct s. Qed.

Lemma jump_S n sn c t cs :
  jump (S n) (Cursor sn (c :: t) cs) = jump n (Cursor (c :: sn) t cs).
Proof. unfold jump. simpl. by rewrite <- app_assoc. Qed.

Lemma jump_app sn w t cs :
  jump (length w) (Cursor sn (w ++ t) cs) = Cursor (rev w ++ sn) t cs.
Proof.
  unfold jump. simpl. by rewrite take_app_length, drop_app_length.
Qed.

Lemma exec_star_chr f g p k sn rs cs :
  exec f (Star g (Chr p)) k (Cursor sn rs cs) =
  let again :=
    match rs with
    | c :: t => if p c then exec f (Star g (Chr p)) k (Cursor (c :: sn) t cs) else None
    | [] => None
    end in
  if g then orelse again (k (Cursor sn rs cs)) else orelse (k (Cursor sn rs cs)) again.
Proof.
  rewrite exec_star at 1. cbv zeta. destruct rs as [|c t]; [done|].
  cbn [exec advance rest seen caps]. destruct (p c); [|done].
  destruct (Nat.ltb_spec (length t) (length (c :: t))) as [_|H]; [done|].
  simpl in H. lia.
Qed.

Lemma exec_star_dot f g k s :
  exec f (Star g Dot) k s = exec f (Star g (Chr (dot f))) k s.
Proof. reflexivity. Qed.

(** [r*?] takes the fewest characters after which the rest of the pattern
    matches. *)
Lemma lazy_star_Some f p k s e :
  exec f (Star false (Chr p)) k s = Some e <->
  exists n, n <= length (rest s) /\
    Forall (fun c => p c = true) (take n (rest s)) /\
    k (jump n s) = Some e /\
    forall i, i < n -> k (jump i s) = None.
Proof.
  destruct s as [sn rs cs]. revert sn. induction rs as [|c t IH]; intros sn.
  - rewrite exec_star_chr. cbv zeta. rewrite orelse_None_r. simpl. split.
    + intros H. exists 0. rewrite jump_0. split_and!; [done|done|done|lia].
    + intros (n & Hn & _ & Hk & _). assert (n = 0) as -> by lia.
      by rewrite jump_0 in Hk.
  - rewrite exec_star_chr. cbv zeta. rewrite orelse_Some. split.
    + intros [H|[Hk H]].
      * exists 0. rewrite jump_0. simpl. split_and!; [lia|done|done|lia].
      * destruct (p c) eqn:Hp; [|done].
        apply IH in H as (n & Hn & Hw & Hkn & Hmin). exists (S n).
        rewrite jump_S. simpl in *. split_and!; [lia|by constructor|done|].
        intros [|i] Hi; [by rewrite jump_0 | rewrite jump_S; apply Hmin; lia].
    + intros ([|n] & Hn & Hw & Hkn & Hmin).
      * left. by rewrite jump_0 in Hkn.
      * right. split; [rewrite <- (jump_0 (Cursor sn (c :: t) cs)); apply Hmin; lia|].
        simpl in Hw, Hn. apply Forall_cons in Hw as [Hp Hw]. rewrite Hp.
        apply IH. exists n. rewrite jump_S in Hkn.
        split_and!; [simpl; lia|done|done|].
        intros i Hi. rewrite <- jump_S. apply Hmin. lia.
Qed.

(** [r*] takes the most characters after which the rest of the pattern
    matches. *)
Lemma greedy_star_Some f p k s e :
  exec f (Star true (Chr p)) k s = Some e <->
  exists n, n <= length (rest s) /\
    Forall (fun c => p c = true) (take n (rest s)) /\
    k (jump n s) = Some e /\
    forall i, n < i <= length (rest s) ->
      Forall (fun c => p c = true) (take i (rest s)) -> k (jump i s) = None.
Proof.
  destruct s as [sn rs cs]. revert sn e. induction rs as [|c t IH]; intros sn e.
  - rewrite exec_star_chr. cbv zeta. simpl. split.
    + intros H. exists 0. rewrite jump_0. split_and!; [done|done|done|simpl; lia].
    + intros (n & Hn & _ & Hk & _). assert (n = 0) as -> by (simpl in Hn; lia).
      by rewrite jump_0 in Hk.
  - rewrite exec_star_chr. cbv zeta. rewrite orelse_Some. split.
    + intros [H|[Hnone Hk]].
      * destruct (p c) eqn:Hp; [|done].
        apply IH in H as (n & Hn & Hw & Hkn & Hmax). exists (S n).
        rewrite jump_S. simpl in *. split_and!; [lia|by constructor|done|].
        intros [|i] Hi Hwi; [lia|]. rewrite jump_S. simpl in Hwi.
        apply Forall_cons in Hwi as [_ Hwi]. apply Hmax; [lia|done].
      * exists 0. rewrite jump_0. simpl. split_and!; [lia|done|done|].
        intros [|i] Hi Hwi; [lia|]. simpl in Hwi.
        apply Forall_cons in Hwi as [Hp Hwi]. rewrite Hp in Hnone.
        rewrite jump_S.
        destruct (k (jump i (Cursor (c :: sn) t cs))) as [e'|] eqn:Hk'; [|done].
        assert (Hex : is_Some (exec f (Star true (Chr p)) k (Cursor (c :: sn) t cs))).
        { eapply exec_complete; [|by rewrite Hk'].
          apply matches_star_chr. exists (take i t), (drop i t). simpl.
          rewrite take_drop. done. }
        rewrite Hnone in Hex. by destruct Hex.
    + intros ([|n] & Hn & Hw & Hkn & Hmax).
      * right. rewrite jump_0 in Hkn. split; [|done].
        destruct (p c) eqn:Hp; [|done].
        destruct (exec f (Star true (Chr p)) k (Cursor (c :: sn) t cs)) eqn:E;
          [|done].
        apply IH in E as (n & Hn' & Hw' & Hkn' & _).
        rewrite <- jump_S in Hkn'. rewrite Hmax in Hkn'; [done|simpl in *; lia|].
        simpl. by constructor.
      * left. simpl in Hw, Hn. apply Forall_cons in Hw as [Hp Hw]. rewrite Hp.
        apply IH. exists n. rewrite jump_S in Hkn.
        split_and!; [simpl; lia|done|done|].
        intros i Hi Hwi. rewrite <- jump_S. apply Hmax; [simpl in *; lia|].
        simpl. by constructor.
Qed.

Lemma lazy_star_dot_Some f k s e :
  exec f (Star false Dot) k s = Some e <->
  exists n, n <= length (rest s) /\
    Forall (fun c => dot f c = true) (take n (rest s)) /\
    k (jump n s) = Some e /\
    forall i, i < n -> k (jump i s) = None.
Proof. rewrite exec_star_dot. apply lazy_star_Some. Qed.

Lemma greedy_star_dot_Some f k s e :
  exec f (Star true Dot) k s = Some e <->
  exists n, n <= length (rest s) /\
    Forall (fun c => dot f c = true) (take n (rest s)) /\
    k (jump n s) = Some e /\
    forall i, n < i <= length (rest s) ->
      Forall (fun c => dot f c = true) (take i (rest s)) -> k (jump i s) = None.
Proof. rewrite exec_star_dot. apply greedy_star_Some. Qed.


(** Soundness and completeness, on parses. *)
Lemma exec_parses f r k sn rs cs e :
  exec f r k (Cursor sn rs cs) = Some e ->
  exists w t cs', rs = w ++ t /\ parses f r sn w t cs cs' /\
    k (Cursor (rev w ++ sn) t cs') = Some e.
Proof.
  intros H. apply exec_sound in H as (s' & Hm & Hk).
  apply matches_parses in Hm as (w & E & F & Hp). simpl in *.
  exists w, (rest s'), (caps s'). rewrite <- F. split; [done|]. split; [done|].
  by destruct s'.
Qed.

Lemma parses_exec f r k sn w t cs cs' :
  parses f r sn w t cs cs' ->
  is_Some (k (Cursor (rev w ++ sn) t cs')) ->
  is_Some (exec f r k (Cursor sn (w ++ t) cs)).
Proof. intros Hp Hk. by eapply exec_complete. Qed.

Lemma parses_exec_None f r k sn w t cs cs' :
  exec f r k (Cursor sn (w ++ t) cs) = None ->
  parses f r sn w t cs cs' -> k (Cursor (rev w ++ sn) t cs') = None.
Proof. intros Hn Hp. by eapply exec_None. Qed.

(** *** Equations of [exec] *)

Lemma exec_cat f r1 r2 k s : exec f (Cat r1 r2) k s = exec f r1 (exec f r2 k) s.
Proof. done. Qed.

Lemma exec_alt f r1 r2 k s :
  exec f (Alt r1 r2) k s = orelse (exec f r1 k s) (exec f r2 k s).
Proof. done. Qed.

Lemma exec_grp f i r k s :
  exec f (Grp i r) k s =
  exec f r (fun s' => k (Cursor (seen s') (rest s') ((i, between s s') :: caps s'))) s.
Proof. done. Qed.

Lemma exec_bol f k s : exec f Bol k s = if at_bol f s then k s else None.
Proof. done. Qed.

Lemma exec_eol f k s : exec f Eol k s = if at_eol f s then k s else None.
Proof. done. Qed.

Lemma exec_not_after f p k s :
  exec f (NotAfter p) k s = if not_after p s then k s else None.
Proof. done. Qed.

Lemma exec_chr_cons f p k sn c t cs :
  exec f (Chr p) k (Cursor sn (c :: t) cs) =
  if p c then k (Cursor (c :: sn) t cs) else None.
Proof. done. Qed.

Lemma exec_chr_nil f p k sn cs : exec f (Chr p) k (Cursor sn [] cs) = None.
Proof. done. Qed.

Lemma exec_look_pos f r k s :
  exec f (Look true r) k s =
  match exec f r Some s with
  | Some s' => k (Cursor (seen s) (rest s) (caps s'))
  | None => None
  end.
Proof. done. Qed.

Lemma exec_eps f k s : exec f Eps k s = k s.
Proof. done. Qed.


Lemma between_app sn w t cs sn' cs' :
  between (Cursor sn (w ++ t) cs) (Cursor sn' t cs') = w.
Proof.
  unfold between. simpl. rewrite length_app.
  replace (length w + length t - length t) with (length w) by lia.
  by rewrite take_app_length.
Qed.

Lemma take_drop_split {A} n (l : list A) :
  n <= length l -> exists a b, l = a ++ b /\ length a = n /\ take n l = a /\ drop n l = b.
Proof.
  intros Hn. exists (take n l), (drop n l). rewrite take_drop, length_take. 
  split_and!; [done|lia|done|done].
Qed.

(** The same two facts with the text split at the cursor. *)
Lemma lazy_star_split f p k sn rs cs e :
  exec f (Star false (Chr p)) k (Cursor sn rs cs) = Some e <->
  exists w t, rs = w ++ t /\ Forall (fun c => p c = true) w /\
    k (Cursor (rev w ++ sn) t cs) = Some e /\
    forall w1 w2, w = w1 ++ w2 -> w2 <> [] ->
      k (Cursor (rev w1 ++ sn) (w2 ++ t) cs) = None.
Proof.
  rewrite lazy_star_Some. cbn [rest]. split.
  - intros (n & Hn & Hw & Hk & Hmin).
    destruct (take_drop_split n rs Hn) as (a & b & -> & Hlen & Ea & Eb).
    rewrite Ea in Hw. subst n. rewrite jump_app in Hk.
    exists a, b. split_and!; try done.
    intros w1 w2 -> Hw2. specialize (Hmin (length w1)).
    rewrite <- app_assoc, jump_app in Hmin. apply Hmin.
    rewrite length_app. destruct w2; [done | simpl; lia].
  - intros (w & t & -> & Hw & Hk & Hmin). exists (length w).
    rewrite take_app_length, jump_app, length_app.
    split_and!; [lia|done|done|].
    intros i Hi.
    destruct (take_drop_split i w ltac:(lia)) as (a & b & -> & Hlen & _ & _).
    subst i. rewrite <- app_assoc, jump_app. apply Hmin; [done|].
    intros ->. rewrite length_app in Hi. simpl in Hi. lia.
Qed.

Lemma greedy_star_split f p k sn rs cs e :
  exec f (Star true (Chr p)) k (Cursor sn rs cs) = Some e <->
  exists w t, rs = w ++ t /\ Forall (fun c => p c = true) w /\
    k (Cursor (rev w ++ sn) t cs) = Some e /\
    forall w2 t2, t = w2 ++ t2 -> w2 <> [] -> Forall (fun c => p c = true) w2 ->
      k (Cursor (rev (w ++ w2) ++ sn) t2 cs) = None.
Proof.
  rewrite greedy_star_Some. cbn [rest]. split.
  - intros (n & Hn & Hw & Hk & Hmax).
    destruct (take_drop_split n rs Hn) as (a & b & -> & Hlen & Ea & Eb).
    rewrite Ea in Hw. subst n. rewrite jump_app in Hk.
    exists a, b. split_and!; try done.
    intros w2 t2 -> Hw2 Hp2. specialize (Hmax (length (a ++ w2))).
    rewrite app_assoc in Hmax. rewrite take_app_length, jump_app in Hmax.
    apply Hmax.
    + rewrite !length_app. destruct w2; [done | simpl; lia].
    + by apply Forall_app.
  - intros (w & t & -> & Hw & Hk & Hmax). exists (length w).
    rewrite take_app_length, jump_app, length_app.
    split_and!; [lia|done|done|].
    intros i Hi Hpi.
    destruct (take_drop_split (i - length w) t ltac:(lia)) as (a & b & -> & Hlen & _ & _).
    assert (i = length (w ++ a)) as -> by (rewrite length_app; lia).
    rewrite app_assoc in Hpi |- *. rewrite take_app_length in Hpi.
    rewrite jump_app. apply Forall_app in Hpi as [_ Hpa].
    apply Hmax; [done| |done]. intros ->. rewrite length_app in Hi. simpl in *. lia.
Qed.

Lemma lazy_star_dot_split f k sn rs cs e :
  exec f (Star false Dot) k (Cursor sn rs cs) = Some e <->
  exists w t, rs = w ++ t /\ Forall (fun c => dot f c = true) w /\
    k (Cursor (rev w ++ sn) t cs) = Some e /\
    forall w1 w2, w = w1 ++ w2 -> w2 <> [] ->
      k (Cursor (rev w1 ++ sn) (w2 ++ t) cs) = None.
Proof. rewrite exec_star_dot. apply lazy_star_split. Qed.

Lemma greedy_star_dot_split f k sn rs cs e :
  exec f (Star true Dot) k (Cursor sn rs cs) = Some e <->
  exists w t, rs = w ++ t /\ Forall (fun c => dot f c = true) w /\
    k (Cursor (rev w ++ sn) t cs) = Some e /\
    forall w2 t2, t = w2 ++ t2 -> w2 <> [] ->
      Forall (fun c => dot f c = true) w2 ->
      k (Cursor (rev (w ++ w2) ++ sn) t2 cs) = None.
Proof. rewrite exec_star_dot. apply greedy_star_split. Qed.

End ReFacts.

(** * Properties of the patterns *)

Module PatternFacts.
Import ReFacts RestBlockParser RestInlineParser.

(** *** ONELINE_DIRECTIVE *)

Lemma at_eol_multiline f sn rs cs :
  MULTILINE f = true ->
  at_eol f (Cursor sn rs cs) = match rs with [] => true | c :: _ => (c =? NL)%N end.
Proof.
  intros Hf. destruct rs as [|c t]; [done|]. unfold at_eol. cbn [rest].
  rewrite Hf. apply andb_true_r.
Qed.

Lemma at_eol_line_end f sn tail cs :
  MULTILINE f = true ->
  at_eol f (Cursor sn tail cs) = true <-> tail = [] \/ exists t, tail = NL :: t.
Proof.
  intros Hf. rewrite at_eol_multiline by done. destruct tail as [|c t].
  - split; [by left | done].
  - rewrite N.eqb_eq. split.
    + intros ->. right. by exists t.
    + intros [?|[t' [= -> _]]]; done.
Qed.

Lemma between_eq sn x t cs sn' cs' w :
  x = w ++ t -> between (Cursor sn x cs) (Cursor sn' t cs') = w.
Proof. intros ->. apply between_app. Qed.

Lemma Forall_just c w :
  Forall (fun d => just c d = true) w <-> Forall (fun d => d = c) w.
Proof. apply Forall_iff. intros d. apply just_true. Qed.

(** A match of [ONELINE_DIRECTIVE]: spaces, two dots and the rest of the
    line, which is group 1 and the whole match. *)
Lemma oneline_directive_match before after m :
  match_at (pflags ONELINE_DIRECTIVE) (pattern ONELINE_DIRECTIVE) before after = Some m ->
  exists sp line tail,
    after = sp ++ str ".." ++ line ++ tail
    /\ Forall (fun c => c = SP) sp
    /\ (NL ∉ line)
    /\ (tail = [] \/ exists t, tail = NL :: t)
    /\ group0 m = sp ++ str ".." ++ line
    /\ group 1 m = Some (sp ++ str ".." ++ line).
Proof.
  unfold match_at.
  destruct (exec _ _ Some _) as [e|] eqn:He; [|done]. intros [= <-].
  cbn [pflags pattern ONELINE_DIRECTIVE] in He.
  unfold star, star_lazy, lit in He.
  rewrite !exec_cat, exec_bol in He.
  destruct (at_bol _ _) eqn:Hbol; [|done].
  rewrite exec_grp, !exec_cat in He.
  apply exec_parses in He as (w1 & t1 & cs1 & -> & Hp1 & He).
  apply exec_parses in He as (w2 & t2 & cs2 & -> & Hp2 & He).
  apply exec_parses in He as (w3 & t3 & cs3 & -> & Hp3 & He).
  inv_parses.
  apply lazy_star_dot_split in He as (line & tail & -> & Hw & Hk & Hmin).
  cbn [seen rest caps] in Hk, Hmin. rewrite exec_eol in Hk.
  destruct (at_eol _ _) eqn:Heol in Hk; [|done]. injection Hk as <-.
  apply at_eol_line_end in Heol; [|done].
  exists w1, line, tail. unfold group0, group. cbn [m_start m_end caps].
  cbn [find fst snd Nat.eqb fmap option_fmap option_map].
  rewrite !(between_eq _ _ _ _ _ _ (w1 ++ str ".." ++ line))
    by (by rewrite <- !app_assoc).
  split_and!; try done.
  - by apply Forall_just in H.
  - intros Hin. apply list_elem_of_split in Hin as (l1 & l2 & ->).
    specialize (Hmin l1 (NL :: l2) eq_refl ltac:(done)).
    rewrite exec_eol, at_eol_multiline in Hmin by done. cbn [app] in Hmin.
    by rewrite N.eqb_refl in Hmin.
Qed.

(** *** Building parses *)

Lemma parses_cat_intro f r1 r2 sn w1 w2 t cs cs1 cs' :
  parses f r1 sn w1 (w2 ++ t) cs cs1 ->
  parses f r2 (rev w1 ++ sn) w2 t cs1 cs' ->
  parses f (Cat r1 r2) sn (w1 ++ w2) t cs cs'.
Proof. intros H1 H2. apply parses_cat. by exists w1, w2, cs1. Qed.

Lemma parses_chr_intro f (p : char -> bool) c sn t cs :
  p c = true -> parses f (Chr p) sn [c] t cs cs.
Proof. intros Hp. apply parses_chr. by exists c. Qed.

Lemma parses_lit_intro f a sn t cs : parses f (lit a) sn [ch a] t cs cs.
Proof. apply parses_chr_intro. by apply just_true. Qed.

Lemma parses_star_intro f g (p : char -> bool) w sn t cs :
  Forall (fun c => p c = true) w -> parses f (Star g (Chr p)) sn w t cs cs.
Proof. intros Hw. by apply parses_star_chr. Qed.

Lemma parses_star_dot_intro f g w sn t cs :
  Forall (fun c => dot f c = true) w -> parses f (Star g Dot) sn w t cs cs.
Proof. intros Hw. by apply parses_star_dot. Qed.

Lemma parses_grp_intro f i r sn w t cs cs1 :
  parses f r sn w t cs cs1 -> parses f (Grp i r) sn w t cs ((i, w) :: cs1).
Proof. intros H. apply parses_grp. by exists cs1. Qed.

Lemma parses_bol_intro f sn t cs :
  at_bol f (Cursor sn t cs) = true -> parses f Bol sn [] t cs cs.
Proof. intros H. by apply parses_bol. Qed.

Lemma parses_eol_intro f sn t cs :
  at_eol f (Cursor sn t cs) = true -> parses f Eol sn [] t cs cs.
Proof. intros H. by apply parses_eol. Qed.

Lemma parses_eps_intro f sn t cs : parses f Eps sn [] t cs cs.
Proof. by apply parses_eps. Qed.

Lemma parses_not_after_intro f p sn t cs :
  not_after p (Cursor sn t cs) = true -> parses f (NotAfter p) sn [] t cs cs.
Proof. intros H. by apply parses_not_after. Qed.

Lemma dotall_dot f c : DOTALL f = true -> dot f c = true.
Proof. unfold dot. by intros ->. Qed.

(** Every text splits at the end of its first line. *)
Lemma first_line_split (l : text) :
  exists line tail, l = line ++ tail /\ (NL ∉ line) /\
    (tail = [] \/ exists t, tail = NL :: t).
Proof.
  induction l as [|c l (line & tail & -> & Hl & Ht)].
  - exists [], []. split_and!; [done|by apply not_elem_of_nil|by left].
  - destruct (N.eq_dec c NL) as [->|Hc].
    + exists [], (NL :: line ++ tail).
      split_and!; [done|by apply not_elem_of_nil|right; eauto].
    + exists (c :: line), tail. split_and!; [done| |done].
      rewrite not_elem_of_cons. split; [congruence|done].
Qed.

(** A line of spaces and two dots is matched, up to its end. *)
Lemma oneline_directive_line before sp more :
  at_bol (pflags ONELINE_DIRECTIVE) (Cursor before [] []) = true ->
  Forall (fun c => c = SP) sp ->
  is_Some (match_at (pflags ONELINE_DIRECTIVE) (pattern ONELINE_DIRECTIVE) before
             (sp ++ str ".." ++ more)).
Proof.
  intros Hbol Hsp.
  destruct (first_line_split more) as (line & tail & -> & Hline & Htail).
  replace (sp ++ str ".." ++ line ++ tail)
    with ((([] ++ ((sp ++ [ch "."]) ++ [ch "."]) ++ line) ++ []) ++ tail)
    by (by rewrite app_nil_r; cbn [app]; rewrite <- !app_assoc).
  eapply parses_match_at. cbn [pflags pattern ONELINE_DIRECTIVE].
  eapply parses_cat_intro; [eapply parses_cat_intro|].
  - by apply parses_bol_intro.
  - apply parses_grp_intro. repeat eapply parses_cat_intro.
    + apply parses_star_intro. by apply Forall_just.
    + apply parses_lit_intro.
    + apply parses_lit_intro.
    + apply parses_star_dot_intro. apply Forall_forall. intros c _.
      by apply dotall_dot.
  - apply parses_eol_intro. by apply at_eol_line_end.
Qed.

(** *** DIRECTIVE *)

(** A match of [DIRECTIVE] ends at a newline that a character other than
    whitespace follows. *)
Lemma directive_match before after m :
  match_at (pflags DIRECTIVE) (pattern DIRECTIVE) before after = Some m ->
  exists sp body c tail,
    after = sp ++ str ".." ++ body ++ NL :: c :: tail
    /\ Forall (fun c => c = SP) sp
    /\ nonspace c = true
    /\ group0 m = sp ++ str ".." ++ body ++ [NL]
    /\ group 1 m = Some (sp ++ str ".." ++ body).
Proof.
  intros H. apply match_at_parses in H as (w & t & cs & -> & Hp & -> & Hg).
  rewrite Hg. clear Hg. cbn [pflags pattern DIRECTIVE] in Hp.
  unfold star, star_lazy, lit in Hp. inv_parses.
  match goal with H : exec _ (Chr nonspace) _ _ = Some _ |- _ => rename H into Hl end.
  destruct t as [|c tail]; [done|]. rewrite exec_chr_cons in Hl.
  destruct (nonspace c) eqn:Hc; [|done]. injection Hl as <-.
  match goal with H : Forall _ ?w |- _ =>
    match type of H with context [just] => exists w end end.
  match goal with H : Forall _ ?w |- _ =>
    match type of H with context [dot] => exists w end end.
  exists c, tail. unfold group. cbn [m_end caps find fst snd Nat.eqb fmap option_fmap option_map].
  rewrite app_nil_r. cbn [app]. rewrite <- !app_assoc. cbn [app].
  split_and!; try done. by apply Forall_just.
Qed.

Lemma unterminated_spec t u c v :
  unterminated t = true -> t = u ++ NL :: c :: v -> nonspace c = false.
Proof.
  revert t. induction u as [|d u IH]; intros t Ht ->.
  - cbn [app unterminated] in Ht. rewrite N.eqb_refl in Ht.
    by destruct (nonspace c).
  - cbn [app unterminated] in Ht. apply andb_prop in Ht as [_ Ht]. by eapply IH.
Qed.

(** Without such a newline [DIRECTIVE] matches nothing: the end of the
    input does not end a directive. *)
Lemma directive_unterminated before after :
  unterminated after = true ->
  match_at (pflags DIRECTIVE) (pattern DIRECTIVE) before after = None.
Proof.
  intros Hu. destruct (match_at _ _ _ _) as [m|] eqn:Hm; [|done].
  apply directive_match in Hm as (sp & body & c & tail & E & _ & Hc & _).
  rewrite (unterminated_spec after (sp ++ str ".." ++ body) c tail) in Hc; [done|done|].
  by rewrite E, <- !app_assoc.
Qed.

(** *** TEXT *)

Lemma exec_is_Some f r s :
  is_Some (exec f r Some s) <-> exists s', matches f r s s'.
Proof.
  split.
  - intros [e He]. apply exec_sound in He as (s' & Hm & _). by exists s'.
  - intros [s' Hm]. by eapply exec_complete.
Qed.

Lemma exec_is_Some_parses f r sn rs cs :
  is_Some (exec f r Some (Cursor sn rs cs)) <->
  exists w t cs', rs = w ++ t /\ parses f r sn w t cs cs'.
Proof.
  split.
  - intros [e He]. apply exec_parses in He as (w & t & cs' & -> & Hp & _).
    by exists w, t, cs'.
  - intros (w & t & cs' & -> & Hp). by eapply parses_exec.
Qed.

Lemma starts_with_true p t : starts_with p t = true <-> exists t', t = p ++ t'.
Proof.
  unfold starts_with. rewrite bool_decide_eq_true. split.
  - intros E. exists (drop (length p) t). by rewrite <- E at 1; rewrite take_drop.
  - intros [t' ->]. by rewrite take_app_length.
Qed.

Lemma text_stop_space : text_stop SP = true.
Proof. done. Qed.

Lemma at_eol_seen f sn sn' t cs cs' :
  at_eol f (Cursor sn t cs) = at_eol f (Cursor sn' t cs').
Proof. done. Qed.

(** The lookahead of [TEXT] holds exactly at the boundaries. *)
Lemma text_lookahead_boundary f sn t cs :
  is_Some (exec f text_lookahead Some (Cursor sn t cs)) <-> text_boundary f t = true.
Proof.
  rewrite exec_is_Some_parses. unfold text_boundary.
  rewrite !orb_true_iff, !starts_with_true. split.
  - intros (w & t' & cs' & -> & Hp).
    unfold text_lookahead, at_least2, opt, lit in Hp. inv_parses.
    + left. left. left. done.
    + left. right. eexists. literals. cbn [app]. done.
    + left. left. right. eexists. literals. cbn [app]. done.
    + left. left. left. cbn [app]. done.
    + right. done.
  - intros [[[H|[t' ->]]|[t' ->]]|H].
    + destruct t as [|c t']; [done|]. exists [c], t', cs. split; [done|].
      unfold text_lookahead. do 3 (apply parses_alt; left).
      by apply parses_chr_intro.
    + exists (str "http://"), t', cs. split; [done|].
      unfold text_lookahead. do 2 (apply parses_alt; left). apply parses_alt; right.
      change (str "http://") with
        (((((((([ch "h"] ++ [ch "t"]) ++ [ch "t"]) ++ [ch "p"]) ++ [])
             ++ [ch ":"]) ++ [ch "/"]) ++ [ch "/"])).
      repeat eapply parses_cat_intro; try apply parses_lit_intro.
      apply parses_alt. right. apply parses_eps_intro.
    + exists (str "https://"), t', cs. split; [done|].
      unfold text_lookahead. do 2 (apply parses_alt; left). apply parses_alt; right.
      change (str "https://") with
        (((((((([ch "h"] ++ [ch "t"]) ++ [ch "t"]) ++ [ch "p"]) ++ [ch "s"])
             ++ [ch ":"]) ++ [ch "/"]) ++ [ch "/"])).
      repeat eapply parses_cat_intro; try apply parses_lit_intro.
      apply parses_alt. left. apply parses_lit_intro.
    + exists [], t, cs. split; [done|].
      unfold text_lookahead. apply parses_alt; right. by apply parses_eol_intro.
Qed.

Lemma any_char_true c : either space nonspace c = true.
Proof. unfold either, nonspace. by destruct (space c). Qed.

Lemma text_boundary_nil f : text_boundary f [] = true.
Proof. done. Qed.

(** A match of [TEXT]: one character, then as few as possible up to a
    boundary. *)
Lemma text_match f before after m :
  match_at f TEXT before after = Some m ->
  exists c w tail,
    after = c :: w ++ tail
    /\ group0 m = c :: w
    /\ text_boundary f tail = true
    /\ forall w1 w2, w = w1 ++ w2 -> w2 <> [] -> text_boundary f (w2 ++ tail) = false.
Proof.
  unfold match_at.
  destruct (exec _ _ Some _) as [e|] eqn:He; [|done]. intros [= <-].
  unfold TEXT, plus_lazy in He.
  rewrite !exec_cat, exec_bol in He.
  destruct (at_bol _ _) eqn:Hbol; [|done].
  rewrite !exec_cat in He.
  destruct after as [|c t]; [done|]. rewrite exec_chr_cons, any_char_true in He.
  apply lazy_star_split in He as (w & tail & -> & _ & Hk & Hmin).
  exists c, w, tail. unfold group0. cbn [m_start m_end].
  rewrite exec_look_pos in Hk.
  destruct (exec f text_lookahead Some _) as [e'|] eqn:Hl in Hk; [|done].
  injection Hk as <-. cbn [seen rest caps].
  rewrite (between_eq _ _ _ _ _ _ (c :: w)) by done.
  split_and!; try done.
  - apply (text_lookahead_boundary f (rev w ++ c :: before) tail []). by rewrite Hl.
  - intros w1 w2 E Hw2. specialize (Hmin w1 w2 E Hw2).
    rewrite exec_look_pos in Hmin.
    destruct (text_boundary f (w2 ++ tail)) eqn:Hb; [|done].
    apply (text_lookahead_boundary f (rev w1 ++ c :: before) _ []) in Hb as [x Hx].
    by rewrite Hx in Hmin.
Qed.

(** [TEXT] matches every text that is not empty. *)
Lemma text_matches f before after :
  at_bol f (Cursor before [] []) = true -> after <> [] ->
  is_Some (match_at f TEXT before after).
Proof.
  intros Hbol Hne. destruct after as [|c t]; [done|].
  destruct (proj2 (text_lookahead_boundary f (rev ([] ++ [c] ++ t) ++ before) [] [])
              (text_boundary_nil f)) as [e He].
  replace (c :: t) with ((([] ++ [c] ++ t) ++ []) ++ []) by (by rewrite !app_nil_r).
  apply (parses_match_at f TEXT before _ [] (caps e)). unfold TEXT, plus_lazy.
  eapply parses_cat_intro; [eapply parses_cat_intro; [|eapply parses_cat_intro]|].
  - by apply parses_bol_intro.
  - apply parses_chr_intro, any_char_true.
  - apply parses_star_intro. apply Forall_forall. intros ? _. apply any_char_true.
  - apply parses_look_pos. split; [done|]. exists e. split; [exact He | reflexivity].
Qed.

Lemma just_refl c : just c c = true.
Proof. by apply just_true. Qed.

(** The text in front of the suffix [t] of [x]. *)
Ltac strip x t :=
  lazymatch x with
  | t => constr:(@nil N)
  | ?a ++ t => constr:(a)
  | ?c :: t => constr:([c])
  | ?a ++ ?y => let r := strip y t in constr:(a ++ r)
  | ?c :: ?y => let r := strip y t in constr:(c :: r)
  end.

Ltac solve_app_eq :=
  cbn [app]; rewrite <- ?app_assoc; cbn [app]; rewrite ?app_nil_r; reflexivity.

Ltac simpl_between :=
  repeat match goal with
  | |- context [between (Cursor ?a ?x ?c) (Cursor ?a' ?t ?c')] =>
      let w := strip x t in
      rewrite (between_eq a x t c a' c' w) by solve_app_eq
  | H : context [between (Cursor ?a ?x ?c) (Cursor ?a' ?t ?c')] |- _ =>
      let w := strip x t in
      rewrite (between_eq a x t c a' c' w) in H by solve_app_eq
  end.

(** *** INLINE_MATH *)

Lemma inline_math_match f before after m :
  match_at f INLINE_MATH before after = Some m ->
  exists expr tail,
    after = str "`$" ++ expr ++ str "$`" ++ tail
    /\ group0 m = str "`$" ++ expr ++ str "$`"
    /\ group 2 m = Some expr
    /\ Forall (fun c => dot f c = true) expr
    /\ forall e1 e2, expr = e1 ++ e2 -> e2 <> [] ->
         starts_with (str "$`") (e2 ++ str "$`" ++ tail) = false.
Proof.
  unfold match_at.
  destruct (exec _ _ Some _) as [e|] eqn:He; [|done]. intros [= <-].
  unfold INLINE_MATH, bq, star_lazy, lit in He. rewrite !exec_cat in He.
  apply exec_parses in He as (w1 & t1 & cs1 & -> & Hp1 & He).
  apply exec_parses in He as (w2 & t2 & cs2 & -> & Hp2 & He).
  inv_parses.
  rewrite exec_grp, !exec_cat, exec_grp in He.
  apply lazy_star_dot_split in He as (expr & t & -> & Hw & Hk & Hmin).
  cbn [seen rest caps] in Hk, Hmin.
  apply exec_parses in Hk as (w3 & t3 & cs3 & -> & Hp3 & Hk).
  apply exec_parses in Hk as (w4 & t4 & cs4 & -> & Hp4 & Hk).
  inv_parses. injection Hk as <-.
  exists expr, t4. unfold group0, group.
  cbn [m_start m_end caps seen rest find fst snd Nat.eqb fmap option_fmap option_map].
  simpl_between.
  split_and!; [literals; solve_app_eq | literals; solve_app_eq | done | done |].
  intros e1 e2 E Hne. specialize (Hmin e1 e2 E Hne).
  destruct (starts_with _ _) eqn:Hs; [|done].
  apply starts_with_true in Hs as [x Hx].
  assert (Hx' : e2 ++ [ch "$"] ++ [BQ] ++ t4 = ch "$" :: BQ :: x) by exact Hx.
  rewrite Hx' in Hmin. by rewrite !exec_chr_cons, !just_refl in Hmin.
Qed.


(** Right-nests the concatenations of the goal; for goals without
    existential variables. *)
Ltac norm_app := rewrite <- ?app_assoc, ?app_nil_r; cbn [app].

Ltac group_lookup :=
  unfold group;
  cbn [m_start m_end caps find fst snd Nat.eqb fmap option_fmap option_map].

(** *** EOL_LITERAL_MARKER *)

Lemma eol_literal_marker_match f before after m :
  match_at f EOL_LITERAL_MARKER before after = Some m ->
  (group 1 m = None /\ exists tail, after = str "::" ++ tail)
  \/ (exists ws tail,
        group 1 m = Some ws /\ ws <> [] /\ Forall (fun c => space c = true) ws
        /\ after = ws ++ str "::" ++ tail).
Proof.
  intros H. apply match_at_parses in H as (w & t & cs & -> & Hp & -> & _).
  unfold EOL_LITERAL_MARKER, opt, plus, star, lit in Hp. inv_parses.
  - right. group_lookup. literals. norm_app. eexists (_ :: _), _.
    split_and!; [reflexivity|done|by constructor|reflexivity].
  - left. group_lookup. literals. norm_app. split; [done|]. by eexists.
Qed.

(** *** REST_ROLE *)

Lemma none_of_true cs c : none_of cs c = true <-> c ∉ cs.
Proof.
  unfold none_of, one_of. rewrite negb_true_iff, <- not_true_iff_false.
  rewrite existsb_exists. split.
  - intros H Hin. apply H. exists c. rewrite N.eqb_refl. split; [|done].
    by apply list_elem_of_In.
  - intros H (x & Hin & Hx). apply N.eqb_eq in Hx as ->. apply H.
    by apply list_elem_of_In.
Qed.

Lemma Forall_none_of cs w :
  Forall (fun c => none_of cs c = true) w <-> Forall (fun c => c ∉ cs) w.
Proof. apply Forall_iff. intros c. apply none_of_true. Qed.

Lemma rest_role_match f before after m :
  match_at f REST_ROLE before after = Some m ->
  exists tail,
    after = group0 m ++ tail
    /\ ((exists role code, group0 m = str ":" ++ role ++ str ":`" ++ code ++ str "`")
        \/ (exists code role,
              code <> [] /\ (BQ ∉ code)
              /\ group0 m = str "`" ++ code ++ str "`:" ++ role ++ str ":")).
Proof.
  intros H. apply match_at_parses in H as (w & t & cs & -> & Hp & -> & Hg).
  rewrite Hg. clear Hg. exists t. split; [done|].
  unfold REST_ROLE, bq, plus, star_lazy, lit in Hp. inv_parses.
  - left. literals. norm_app. by eexists _, _.
  - right. literals. norm_app.
    match goal with H : none_of _ ?c = true, H' : Forall _ ?w |- _ =>
      exists (c :: w); apply none_of_true in H; apply Forall_none_of in H';
      rename H into Hc; rename H' into Hw
    end.
    eexists. split_and!; [done| |reflexivity].
    intros Hin. apply elem_of_cons in Hin as [E|Hin].
    + apply Hc. rewrite <- E. by left.
    + rewrite Forall_forall in Hw. apply (Hw _ Hin). by left.
Qed.

(** The patterns of this module consume at least a character. *)
Lemma consumed_le f r before after m :
  match_at f r before after = Some m ->
  consumed m <= length after /\ group0 m = take (consumed m) after.
Proof.
  intros H. apply match_at_parses in H as (w & t & cs & -> & _ & _ & Hg).
  unfold consumed. rewrite Hg, length_app, take_app_length. split; [lia|done].
Qed.

Ltac consumed_pos H :=
  apply match_at_parses in H as (? & ? & ? & -> & Hp & _ & Hg);
  unfold consumed; rewrite Hg; clear Hg;
  repeat match goal with
  | H : parses _ (Cat _ _) _ _ _ _ _ |- _ =>
      apply parses_cat in H as (? & ? & ? & -> & ? & ?)
  | H : parses _ (Alt _ _) _ _ _ _ _ |- _ => apply parses_alt in H as [?|?]
  | H : parses _ (Chr _) _ _ _ _ _ |- _ => apply parses_chr in H as (? & -> & ? & ?)
  | H : parses _ (NotAfter _) _ _ _ _ _ |- _ =>
      apply parses_not_after in H as (-> & ? & ?)
  | H : parses _ Eps _ _ _ _ _ |- _ => apply parses_eps in H as (-> & ?)
  end;
  rewrite ?length_app; cbn [length]; lia.

Lemma own_patterns_consume f tag attrs p before after m :
  p ∈ [INLINE_MATH; REST_LINK; REST_ROLE; EOL_LITERAL_MARKER; INLINE_HTML tag attrs] ->
  match_at f p before after = Some m -> 1 <= consumed m.
Proof.
  intros Hin H.
  repeat (apply elem_of_cons in Hin as [->|Hin]); [| | | | |by apply elem_of_nil in Hin].
  - unfold INLINE_MATH, bq, lit in H. consumed_pos H.
  - unfold REST_LINK, bq, lit in H. consumed_pos H.
  - unfold REST_ROLE, bq, plus, lit in H. consumed_pos H.
  - unfold EOL_LITERAL_MARKER, opt, plus, lit in H. consumed_pos H.
  - unfold INLINE_HTML, HTML_OPEN_CLOSE, HTML_SELF_CLOSING, HTML_PI, HTML_DOCTYPE,
      HTML_CDATA, lit in H. consumed_pos H.
Qed.

Lemma escape_consumes f name p u m :
  Sample.InlineParser_SPECIFICATION !! name = Some p ->
  re_match f p u = Some m -> 1 <= consumed m.
Proof.
  intros Hp H. unfold Sample.InlineParser_SPECIFICATION in Hp.
  apply lookup_singleton_Some in Hp as [_ <-].
  unfold Sample.ESCAPE, lit in H. unfold re_match in H.
  apply match_at_parses in H as (? & ? & ? & -> & Hp & _ & Hg).
  unfold consumed. rewrite Hg. apply parses_cat in Hp as (? & ? & ? & -> & Hp & _).
  apply parses_chr in Hp as (? & -> & _). rewrite length_app. simpl. lia.
Qed.


End PatternFacts.

(** * Properties of the rule tables *)

Module TableFacts.
Import RestBlockParser RestInlineParser.

Section Driver.
Context {P T : Type}.
Variable matcher : P -> text -> option Match.
Variable SPEC : gmap string P.

Lemma first_match_app l1 l2 t :
  Engine.first_match matcher SPEC (l1 ++ l2) t =
  orelse (Engine.first_match matcher SPEC l1 t) (Engine.first_match matcher SPEC l2 t).
Proof.
  induction l1 as [|n l1 IH]; [done|]. cbn [app Engine.first_match].
  by destruct (Engine.try_rule matcher SPEC n t).
Qed.

(** The rule that claims the text is the first one of the table, in the
    order of the table, whose pattern matches. *)
Lemma first_match_Some rules t name m :
  Engine.first_match matcher SPEC rules t = Some (name, m) <->
  exists l1 l2, rules = l1 ++ name :: l2
    /\ Engine.try_rule matcher SPEC name t = Some m
    /\ Forall (fun n => Engine.try_rule matcher SPEC n t = None) l1.
Proof.
  induction rules as [|n rules IH]; cbn [Engine.first_match].
  - split; [done|]. intros (l1 & l2 & E & _). by destruct l1.
  - destruct (Engine.try_rule matcher SPEC n t) as [m'|] eqn:Hn.
    + split.
      * intros [= <- <-]. exists [], rules. by split_and!.
      * intros ([|n' l1] & l2 & E & Hm & Hl1); injection E as <- E.
        -- congruence.
        -- apply Forall_cons in Hl1 as [Hl1 _]. congruence.
    + rewrite IH. split.
      * intros (l1 & l2 & -> & Hm & Hl1). exists (n :: l1), l2.
        split_and!; [done|done|by constructor].
      * intros ([|n' l1] & l2 & E & Hm & Hl1); injection E as <- E.
        -- congruence.
        -- apply Forall_cons in Hl1 as [_ Hl1]. by exists l1, l2.
Qed.

Lemma first_match_None rules t :
  Engine.first_match matcher SPEC rules t = None <->
  Forall (fun n => Engine.try_rule matcher SPEC n t = None) rules.
Proof.
  induction rules as [|n rules IH]; cbn [Engine.first_match]; [done|].
  destruct (Engine.try_rule matcher SPEC n t) as [m'|] eqn:Hn.
  - split; [done|]. intros H. apply Forall_cons in H as [H _]. congruence.
  - rewrite IH. split; [by constructor|]. intros H. by apply Forall_cons in H as [_ H].
Qed.
End Driver.

(** The entries of this module in the two [SPECIFICATION] tables: an
    inherited entry of the same name is overwritten. *)
Lemma block_specification_own base :
  RestBlockParser.SPECIFICATION base !! "directive" = Some DIRECTIVE
  /\ RestBlockParser.SPECIFICATION base !! "oneline_directive" = Some ONELINE_DIRECTIVE
  /\ RestBlockParser.SPECIFICATION base !! "rest_code_block" = Some REST_CODE_BLOCK.
Proof.
  unfold RestBlockParser.SPECIFICATION.
  split_and!; by apply lookup_union_Some_l.
Qed.

Lemma inline_specification_own base tag attrs :
  RestInlineParser.SPECIFICATION base tag attrs !! "inline_math" = Some INLINE_MATH
  /\ RestInlineParser.SPECIFICATION base tag attrs !! "rest_role" = Some REST_ROLE
  /\ RestInlineParser.SPECIFICATION base tag attrs !! "rest_link" = Some REST_LINK
  /\ RestInlineParser.SPECIFICATION base tag attrs !! "eol_literal_marker"
     = Some EOL_LITERAL_MARKER
  /\ RestInlineParser.SPECIFICATION base tag attrs !! "inline_html"
     = Some (INLINE_HTML tag attrs).
Proof.
  unfold RestInlineParser.SPECIFICATION.
  split_and!; by apply lookup_union_Some_l.
Qed.

Lemma inline_specification_lookup base tag attrs name p :
  RestInlineParser.SPECIFICATION base tag attrs !! name = Some p ->
  p ∈ [INLINE_MATH; REST_LINK; REST_ROLE; EOL_LITERAL_MARKER; INLINE_HTML tag attrs]
  \/ base !! name = Some p.
Proof.
  unfold RestInlineParser.SPECIFICATION. intros H.
  apply lookup_union_Some_raw in H as [H|[_ H]]; [left|by right].
  repeat (apply lookup_insert_Some in H as [[_ <-]|[_ H]];
          [repeat first [by left | right]|]).
  apply lookup_singleton_Some in H as [_ <-]. repeat first [by left | right].
Qed.


End TableFacts.

(** * The claims *)

Import ReFacts PatternFacts TableFacts RestBlockParser RestInlineParser.

(** C1, as stated, fails: the rules of the class come after the inherited
    ones.  With an inherited rule for indented code, an indented line of two
    dots is matched by [DIRECTIVE] and by the inherited pattern, and the
    inherited rule claims it. *)
Lemma directive_before_base_rules_counterexample :
  RestBlockParser.DEFAULT_RULES Sample.BlockParser_DEFAULT_RULES
  = ["indent_code"; "directive"; "oneline_directive"; "rest_code_block"]
  /\ group0 <$> block_match DIRECTIVE indented_directive
     = Some (str "    .. note::" ++ [NL])
  /\ group0 <$> block_match Sample.INDENT_CODE indented_directive
     = Some (str "    .. note::" ++ [NL])
  /\ fst <$> RestBlockParser.claim Sample.BlockParser_SPECIFICATION
               Sample.BlockParser_DEFAULT_RULES indented_directive
     = Some "indent_code"
  /\ fst <$> RestBlockParser.parse_step Sample.BlockParser_SPECIFICATION
               Sample.BlockParser_DEFAULT_RULES Sample.BlockParser_method
               indented_directive ∅
     = Some {[ "type" := VStr (str "block_code");
               "text" := VStr (str "    .. note::" ++ [NL]) ]}.
Proof. vm_compute. by split_and!. Qed.

(** C1.  [DEFAULT_RULES] is the inherited rules followed by [directive],
    [oneline_directive] and [rest_code_block].  Whenever an inherited rule
    claims the text, it is the one of the table that claims it; and when no
    inherited rule matches, the directive rule claims the text exactly when
    [DIRECTIVE] matches. *)
Theorem directive_after_base_rules
    (base_spec : gmap string compiled) (base_rules : list string) (t : text) :
  RestBlockParser.DEFAULT_RULES base_rules
  = base_rules ++ ["directive"; "oneline_directive"; "rest_code_block"]
  /\ (forall x,
        Engine.first_match block_match (RestBlockParser.SPECIFICATION base_spec)
          base_rules t = Some x ->
        RestBlockParser.claim base_spec base_rules t = Some x)
  /\ (Engine.first_match block_match (RestBlockParser.SPECIFICATION base_spec)
        base_rules t = None ->
      forall m,
        RestBlockParser.claim base_spec base_rules t = Some ("directive", m)
        <-> block_match DIRECTIVE t = Some m).
Proof.
  split_and!; [done| |].
  - intros x Hx. unfold RestBlockParser.claim, RestBlockParser.DEFAULT_RULES.
    by rewrite first_match_app, Hx.
  - intros Hbase m. unfold RestBlockParser.claim, RestBlockParser.DEFAULT_RULES.
    rewrite first_match_app, Hbase. cbn [orelse Engine.first_match].
    unfold Engine.try_rule.
    destruct (block_specification_own base_spec) as (-> & -> & ->).
    destruct (block_match DIRECTIVE t) as [md|]; [split; congruence|].
    destruct (block_match ONELINE_DIRECTIVE t); [done|].
    by destruct (block_match REST_CODE_BLOCK t).
Qed.

Lemma directive_after_base_rules_witness :
  Engine.first_match block_match
    (RestBlockParser.SPECIFICATION Sample.BlockParser_SPECIFICATION)
    Sample.BlockParser_DEFAULT_RULES directive_then_text = None
  /\ (group 1 ∘ snd) <$> RestBlockParser.claim Sample.BlockParser_SPECIFICATION
        Sample.BlockParser_DEFAULT_RULES directive_then_text
     = Some (Some (str ".. note::" ++ [NL] ++ str "   body" ++ [NL]))
  /\ forall m,
       RestBlockParser.claim Sample.BlockParser_SPECIFICATION
         Sample.BlockParser_DEFAULT_RULES directive_then_text = Some ("directive", m)
       <-> block_match DIRECTIVE directive_then_text = Some m.
Proof.
  split; [vm_compute; reflexivity|]. split; [vm_compute; reflexivity|].
  apply (proj2 (proj2 (directive_after_base_rules Sample.BlockParser_SPECIFICATION
           Sample.BlockParser_DEFAULT_RULES directive_then_text))).
  vm_compute. reflexivity.
Defined.

(** C4.  The inline [DEFAULT_RULES] is [inline_math], [rest_role],
    [rest_link], [eol_literal_marker], in this order, followed by the
    inherited rules, each of the four with its pattern of the class.  The
    rule that claims a text is the first of this table whose pattern
    matches: one of the four if any of them matches, an inherited rule
    otherwise. *)
Theorem inline_rules_in_declared_order
    (base_spec : gmap string regex) (base_rules : list string)
    (f : flags) (tag attrs : regex) (t : text) :
  let spec := RestInlineParser.SPECIFICATION base_spec tag attrs in
  let rules := RestInlineParser.DEFAULT_RULES base_rules in
  rules = ["inline_math"; "rest_role"; "rest_link"; "eol_literal_marker"] ++ base_rules
  /\ (spec !! "inline_math" = Some INLINE_MATH
      /\ spec !! "rest_role" = Some REST_ROLE
      /\ spec !! "rest_link" = Some REST_LINK
      /\ spec !! "eol_literal_marker" = Some EOL_LITERAL_MARKER)
  /\ (forall name m,
        RestInlineParser.claim base_spec base_rules f tag attrs t = Some (name, m)
        <-> exists l1 l2,
              rules = l1 ++ name :: l2
              /\ Engine.try_rule (inline_match f) spec name t = Some m
              /\ Forall (fun n => Engine.try_rule (inline_match f) spec n t = None) l1)
  /\ RestInlineParser.claim base_spec base_rules f tag attrs t
     = orelse
         (Engine.first_match (inline_match f) spec
            ["inline_math"; "rest_role"; "rest_link"; "eol_literal_marker"] t)
         (Engine.first_match (inline_match f) spec base_rules t).
Proof.
  cbv zeta. split; [done|]. split; [|split].
  - destruct (inline_specification_own base_spec tag attrs) as (? & ? & ? & ? & _).
    by split_and!.
  - intros name m. apply first_match_Some.
  - unfold RestInlineParser.claim, RestInlineParser.DEFAULT_RULES.
    apply first_match_app.
Qed.

Lemma inline_rules_in_declared_order_witness :
  group0 <$> re_match no_flags INLINE_MATH math_or_role = Some (str "`$x$`")
  /\ group0 <$> re_match no_flags REST_ROLE math_or_role = Some (str "`$x$`:r:")
  /\ fst <$> RestInlineParser.claim Sample.InlineParser_SPECIFICATION
               Sample.InlineParser_DEFAULT_RULES no_flags
               Mistune.HTML_TAGNAME Mistune.HTML_ATTRIBUTES math_or_role
     = Some "inline_math"
  /\ RestInlineParser.claim Sample.InlineParser_SPECIFICATION
       Sample.InlineParser_DEFAULT_RULES no_flags
       Mistune.HTML_TAGNAME Mistune.HTML_ATTRIBUTES math_or_role
     = orelse
         (Engine.first_match (inline_match no_flags)
            (RestInlineParser.SPECIFICATION Sample.InlineParser_SPECIFICATION
               Mistune.HTML_TAGNAME Mistune.HTML_ATTRIBUTES)
            ["inline_math"; "rest_role"; "rest_link"; "eol_literal_marker"]
            math_or_role)
         (Engine.first_match (inline_match no_flags)
            (RestInlineParser.SPECIFICATION Sample.InlineParser_SPECIFICATION
               Mistune.HTML_TAGNAME Mistune.HTML_ATTRIBUTES)
            Sample.InlineParser_DEFAULT_RULES math_or_role).
Proof.
  split; [vm_compute; reflexivity|]. split; [vm_compute; reflexivity|].
  split; [vm_compute; reflexivity|].
  apply (inline_rules_in_declared_order Sample.InlineParser_SPECIFICATION
           Sample.InlineParser_DEFAULT_RULES no_flags
           Mistune.HTML_TAGNAME Mistune.HTML_ATTRIBUTES math_or_role).
Defined.

(** C2, as stated, fails: a directive block at the end of the input, with no
    later line that starts in column 0, is not matched by [DIRECTIVE]; the
    table falls to [oneline_directive], which takes the first line only, 9
    of the 18 characters. *)
Lemma directive_at_end_of_input_counterexample :
  unterminated directive_block = true
  /\ re_match (pflags DIRECTIVE) (pattern DIRECTIVE) directive_block = None
  /\ group 1 <$> re_match (pflags ONELINE_DIRECTIVE) (pattern ONELINE_DIRECTIVE)
                   directive_block
     = Some (Some (str ".. note::"))
  /\ (fun r => (fst r, consumed (snd r)))
       <$> RestBlockParser.claim ∅ [] directive_block
     = Some ("oneline_directive", 9)
  /\ length directive_block = 18.
Proof. vm_compute. by split_and!. Qed.

(** C2.  A text that starts a line with spaces and two dots, and in which
    no newline is followed by a character other than whitespace, is not
    matched by [DIRECTIVE]: the end of the input is no boundary to it.
    [ONELINE_DIRECTIVE] matches it, and its token holds the first line
    alone. *)
Theorem directive_at_end_of_input (before t sp more : text) (state : State) :
  at_bol (pflags DIRECTIVE) (Cursor before [] []) = true ->
  Forall (fun c => c = SP) sp ->
  t = sp ++ str ".." ++ more ->
  unterminated t = true ->
  match_at (pflags DIRECTIVE) (pattern DIRECTIVE) before t = None
  /\ exists m sp' line tail,
       match_at (pflags ONELINE_DIRECTIVE) (pattern ONELINE_DIRECTIVE) before t = Some m
       /\ t = sp' ++ str ".." ++ line ++ tail
       /\ Forall (fun c => c = SP) sp'
       /\ (NL ∉ line)
       /\ (tail = [] \/ exists t', tail = NL :: t')
       /\ parse_oneline_directive m state
          = {[ "type" := VStr (str "directive");
               "text" := VStr (sp' ++ str ".." ++ line) ]}.
Proof.
  intros Hbol Hsp -> Hu. split; [by apply directive_unterminated|].
  destruct (oneline_directive_line before sp more Hbol Hsp) as [m Hm].
  destruct (oneline_directive_match _ _ _ Hm)
    as (sp' & line & tail & E & Hsp' & Hline & Htail & G0 & G1).
  exists m, sp', line, tail. split_and!; try done.
  unfold parse_oneline_directive. by rewrite G1.
Qed.

Lemma directive_at_end_of_input_witness :
  match_at (pflags DIRECTIVE) (pattern DIRECTIVE) [] directive_block = None
  /\ exists m sp' line tail,
       match_at (pflags ONELINE_DIRECTIVE) (pattern ONELINE_DIRECTIVE) []
         directive_block = Some m
       /\ directive_block = sp' ++ str ".." ++ line ++ tail
       /\ Forall (fun c => c = SP) sp'
       /\ (NL ∉ line)
       /\ (tail = [] \/ exists t', tail = NL :: t')
       /\ parse_oneline_directive m ∅
          = {[ "type" := VStr (str "directive");
               "text" := VStr (sp' ++ str ".." ++ line) ]}.
Proof.
  apply (directive_at_end_of_input [] directive_block []
           (str " note::" ++ [NL] ++ str "   body" ++ [NL]) ∅).
  - reflexivity.
  - constructor.
  - reflexivity.
  - vm_compute. reflexivity.
Defined.

(** C8.  [oneline_directive] stands right after [directive] in
    [DEFAULT_RULES].  Where no inherited rule matches, the directive rule
    claims the text whenever [DIRECTIVE] matches, and the one-line rule
    claims it exactly when [DIRECTIVE] does not match and
    [ONELINE_DIRECTIVE] does: on a directive line followed by a line of
    text both patterns match and the directive rule claims the text.  For
    every match of [ONELINE_DIRECTIVE] the handler returns the token of
    type [directive] with the matched text, the same token as
    [parse_directive] returns; the text has no newline and ends at the end
    of a line. *)
Theorem oneline_directive_after_directive :
  (forall base_rules : list string,
     RestBlockParser.DEFAULT_RULES base_rules
     = base_rules ++ ["directive"; "oneline_directive"; "rest_code_block"])
  /\ (forall (base_spec : gmap string compiled) (base_rules : list string)
             (t : text) (m : Match),
        Engine.first_match block_match (RestBlockParser.SPECIFICATION base_spec)
          base_rules t = None ->
        block_match DIRECTIVE t = Some m ->
        RestBlockParser.claim base_spec base_rules t = Some ("directive", m))
  /\ (forall (base_spec : gmap string compiled) (base_rules : list string)
             (t : text) (m : Match),
        Engine.first_match block_match (RestBlockParser.SPECIFICATION base_spec)
          base_rules t = None ->
        (RestBlockParser.claim base_spec base_rules t = Some ("oneline_directive", m)
         <-> block_match DIRECTIVE t = None
             /\ block_match ONELINE_DIRECTIVE t = Some m))
  /\ (forall (base_method : string -> Match -> State -> Token)
             (before after : text) (m : Match) (state : State),
        match_at (pflags ONELINE_DIRECTIVE) (pattern ONELINE_DIRECTIVE) before after
          = Some m ->
        RestBlockParser.method base_method "oneline_directive" m state
          = {[ "type" := VStr (str "directive"); "text" := VStr (group0 m) ]}
        /\ RestBlockParser.method base_method "oneline_directive" m state
           = RestBlockParser.method base_method "directive" m state
        /\ (NL ∉ group0 m)
        /\ exists tail, after = group0 m ++ tail
             /\ (tail = [] \/ exists t', tail = NL :: t'))
  /\ (group 1 <$> block_match ONELINE_DIRECTIVE oneline_then_text
      = Some (Some (str ".. note:: short"))
      /\ (fun r => (fst r, group 1 (snd r)))
           <$> RestBlockParser.claim ∅ [] oneline_then_text
         = Some ("directive", Some (str ".. note:: short"))).
Proof.
  split_and!.
  - done.
  - intros base_spec base_rules t m Hbase Hd.
    unfold RestBlockParser.claim, RestBlockParser.DEFAULT_RULES.
    rewrite first_match_app, Hbase. cbn [orelse Engine.first_match].
    unfold Engine.try_rule.
    rewrite (proj1 (block_specification_own base_spec)). by rewrite Hd.
  - intros base_spec base_rules t m Hbase.
    unfold RestBlockParser.claim, RestBlockParser.DEFAULT_RULES.
    rewrite first_match_app, Hbase. cbn [orelse Engine.first_match].
    unfold Engine.try_rule.
    destruct (block_specification_own base_spec) as (-> & -> & ->).
    destruct (block_match DIRECTIVE t) as [md|]; [split; [done|by intros [? _]]|].
    destruct (block_match ONELINE_DIRECTIVE t) as [mo|].
    + split; [by intros [= ->]|by intros [_ [= ->]]].
    + split; [|by intros [_ ?]]. by destruct (block_match REST_CODE_BLOCK t).
  - intros base_method before after m state Hm.
    destruct (oneline_directive_match _ _ _ Hm)
      as (sp & line & tail & E & Hsp & Hline & Htail & G0 & G1).
    change (RestBlockParser.method base_method "oneline_directive")
      with parse_oneline_directive.
    change (RestBlockParser.method base_method "directive") with parse_directive.
    unfold parse_oneline_directive, parse_directive. rewrite G1, G0.
    split_and!; try done.
    + rewrite !not_elem_of_app. split_and!; try done.
      * intros Hin. rewrite Forall_forall in Hsp. by apply Hsp in Hin.
      * literals. intros Hin.
        repeat (apply elem_of_cons in Hin as [Hin|Hin]; [done|]).
        by apply elem_of_nil in Hin.
    + exists tail. by rewrite E, <- !app_assoc.
  - vm_compute. reflexivity.
  - vm_compute. reflexivity.
Qed.

Lemma oneline_directive_after_directive_witness :
  exists md mo,
    block_match DIRECTIVE oneline_then_text = Some md
    /\ block_match ONELINE_DIRECTIVE oneline_then_text = Some mo
    /\ RestBlockParser.claim ∅ [] oneline_then_text = Some ("directive", md)
    /\ (RestBlockParser.claim ∅ [] oneline_then_text = Some ("oneline_directive", mo)
        <-> block_match DIRECTIVE oneline_then_text = None
            /\ block_match ONELINE_DIRECTIVE oneline_then_text = Some mo)
    /\ group 1 md = Some (str ".. note:: short")
    /\ group0 mo = str ".. note:: short"
    /\ RestBlockParser.method Sample.BlockParser_method "oneline_directive" mo ∅
       = {[ "type" := VStr (str "directive"); "text" := VStr (group0 mo) ]}
    /\ RestBlockParser.method Sample.BlockParser_method "oneline_directive" mo ∅
       = RestBlockParser.method Sample.BlockParser_method "directive" mo ∅
    /\ (NL ∉ group0 mo)
    /\ exists tail, oneline_then_text = group0 mo ++ tail
         /\ (tail = [] \/ exists t', tail = NL :: t').
Proof.
  eexists _, _.
  split; [vm_compute; reflexivity|]. split; [vm_compute; reflexivity|].
  split.
  { apply (proj1 (proj2 oneline_directive_after_directive) ∅ [] oneline_then_text).
    - reflexivity.
    - vm_compute. reflexivity. }
  split.
  { apply (proj1 (proj2 (proj2 oneline_directive_after_directive))
             ∅ [] oneline_then_text).
    reflexivity. }
  split; [vm_compute; reflexivity|]. split; [vm_compute; reflexivity|].
  apply (proj1 (proj2 (proj2 (proj2 oneline_directive_after_directive)))
           Sample.BlockParser_method [] oneline_then_text _ ∅).
  vm_compute. reflexivity.
Defined.

(** C3, as stated, fails: one space stops plain text; a character of the
    class that comes first is taken; and without any character of the
    class the text is taken to its end. *)
Lemma plain_text_stop_set_counterexample :
  group0 <$> re_match no_flags TEXT (str "ab cd") = Some (str "ab")
  /\ group0 <$> re_match no_flags TEXT (str ":ab") = Some (str ":ab")
  /\ group0 <$> re_match no_flags TEXT (str "abc") = Some (str "abc").
Proof. vm_compute. by split_and!. Qed.

(** C3.  [TEXT] matches every text that is not empty: it takes the first
    character, whatever it is, and then as few characters as it can up to a
    boundary: a character of the class (the space is one), [http://] or
    [https://], or a place where [$] matches. *)
Theorem plain_text_stops_at_boundary (f : flags) (t : text) :
  t <> [] ->
  exists m c w tail,
    re_match f TEXT t = Some m
    /\ t = c :: w ++ tail
    /\ group0 m = c :: w
    /\ text_boundary f tail = true
    /\ forall w1 w2, w = w1 ++ w2 -> w2 <> [] -> text_boundary f (w2 ++ tail) = false.
Proof.
  intros Hne. destruct (text_matches f [] t eq_refl Hne) as [m Hm].
  destruct (text_match _ _ _ _ Hm) as (c & w & tail & E & G0 & Hb & Hmin).
  by exists m, c, w, tail.
Qed.

Lemma plain_text_stops_at_boundary_witness :
  exists m c w tail,
    re_match no_flags TEXT (str "ab cd") = Some m
    /\ str "ab cd" = c :: w ++ tail
    /\ group0 m = c :: w
    /\ text_boundary no_flags tail = true
    /\ forall w1 w2, w = w1 ++ w2 -> w2 <> [] ->
         text_boundary no_flags (w2 ++ tail) = false.
Proof.
  apply (plain_text_stops_at_boundary no_flags (str "ab cd")). vm_compute. discriminate.
Defined.


(** C5.  For every match of [EOL_LITERAL_MARKER] the handler returns
    [eol_literal_marker] with the marker [:] when group 1 took no part in
    the match, the match then starts with the two colons, and with the
    empty marker when group 1 is the whitespace in front of the colons.
    Searching [see::] gives the marker [:], searching [see ::] the empty
    marker. *)
Theorem eol_literal_marker_asymmetry :
  (forall (f : flags) (before after : text) (m : Match) (state : State),
     match_at f EOL_LITERAL_MARKER before after = Some m ->
     exists marker,
       parse_eol_literal_marker m state
         = [VStr (str "eol_literal_marker"); VStr marker]
       /\ ((group 1 m = None /\ marker = str ":"
            /\ exists tail, after = str "::" ++ tail)
           \/ (exists ws tail,
                 group 1 m = Some ws /\ marker = str ""
                 /\ ws <> [] /\ Forall (fun c => space c = true) ws
                 /\ after = ws ++ str "::" ++ tail)))
  /\ (forall (f : flags) (state : State),
        (fun m => parse_eol_literal_marker m state)
          <$> re_search f EOL_LITERAL_MARKER (str "see::")
        = Some [VStr (str "eol_literal_marker"); VStr (str ":")]
        /\ (fun m => parse_eol_literal_marker m state)
             <$> re_search f EOL_LITERAL_MARKER (str "see ::")
           = Some [VStr (str "eol_literal_marker"); VStr (str "")]).
Proof.
  split.
  - intros f before after m state H.
    destruct (eol_literal_marker_match _ _ _ _ H)
      as [[G Ht]|(ws & tail & G & Hne & Hws & E)];
      unfold parse_eol_literal_marker; rewrite G; eexists; (split; [reflexivity|]).
    + left. by split_and!.
    + right. exists ws, tail. by split_and!.
  - intros [[] []] state; split; vm_compute; reflexivity.
Qed.

Lemma eol_literal_marker_asymmetry_witness :
  exists m,
    match_at no_flags EOL_LITERAL_MARKER (rev (str "see")) (str " ::") = Some m
    /\ exists marker,
       parse_eol_literal_marker m ∅
         = [VStr (str "eol_literal_marker"); VStr marker]
       /\ ((group 1 m = None /\ marker = str ":"
            /\ exists tail, str " ::" = str "::" ++ tail)
           \/ (exists ws tail,
                 group 1 m = Some ws /\ marker = str ""
                 /\ ws <> [] /\ Forall (fun c => space c = true) ws
                 /\ str " ::" = ws ++ str "::" ++ tail)).
Proof.
  eexists. split; [vm_compute; reflexivity|].
  apply (proj1 eol_literal_marker_asymmetry no_flags (rev (str "see")) (str " ::") _ ∅).
  vm_compute. reflexivity.
Defined.

(** C9.  Every match of [INLINE_MATH] is a backtick, [$], an expression,
    [$] and a backtick; the expression is group 2, it ends at the first
    [$] that a backtick follows, and the handler returns [inline_math]
    with it.  The text of the example gives the expression [x^2]. *)
Theorem inline_math_extracts_expression :
  (forall (f : flags) (before after : text) (m : Match) (state : State),
     match_at f INLINE_MATH before after = Some m ->
     exists expr tail,
       after = str "`$" ++ expr ++ str "$`" ++ tail
       /\ group0 m = str "`$" ++ expr ++ str "$`"
       /\ group 2 m = Some expr
       /\ parse_inline_math m state = [VStr (str "inline_math"); VStr expr]
       /\ forall e1 e2, expr = e1 ++ e2 -> e2 <> [] ->
            starts_with (str "$`") (e2 ++ str "$`" ++ tail) = false)
  /\ (forall (f : flags) (state : State),
        (fun m => parse_inline_math m state) <$> re_match f INLINE_MATH (str "`$x^2$`")
        = Some [VStr (str "inline_math"); VStr (str "x^2")]).
Proof.
  split.
  - intros f before after m state H.
    destruct (inline_math_match _ _ _ _ H) as (expr & tail & E & G0 & G2 & _ & Hmin).
    exists expr, tail. split_and!; try done.
    unfold parse_inline_math. by rewrite G2.
  - intros [[] []] state; vm_compute; reflexivity.
Qed.

Lemma inline_math_extracts_expression_witness :
  exists m,
    match_at no_flags INLINE_MATH [] (str "`$x^2$`") = Some m
    /\ exists expr tail,
       str "`$x^2$`" = str "`$" ++ expr ++ str "$`" ++ tail
       /\ group0 m = str "`$" ++ expr ++ str "$`"
       /\ group 2 m = Some expr
       /\ parse_inline_math m ∅ = [VStr (str "inline_math"); VStr expr]
       /\ forall e1 e2, expr = e1 ++ e2 -> e2 <> [] ->
            starts_with (str "$`") (e2 ++ str "$`" ++ tail) = false.
Proof.
  eexists. split; [vm_compute; reflexivity|].
  apply (proj1 inline_math_extracts_expression no_flags [] (str "`$x^2$`") _ ∅).
  vm_compute. reflexivity.
Defined.

(** C10.  For every match of [REST_ROLE] the handler returns [rest_role]
    with the whole matched text, which has one of the two forms: role then
    code in backticks, or code in backticks then role.  One step on the
    example gives this one element and consumes all of the text. *)
Theorem rest_role_passthrough :
  (forall (f : flags) (before after : text) (m : Match) (state : State),
     match_at f REST_ROLE before after = Some m ->
     parse_rest_role m state = [VStr (str "rest_role"); VStr (group0 m)]
     /\ exists tail,
          after = group0 m ++ tail
          /\ ((exists role code,
                 group0 m = str ":" ++ role ++ str ":`" ++ code ++ str "`")
              \/ (exists code role,
                    code <> [] /\ (BQ ∉ code)
                    /\ group0 m = str "`" ++ code ++ str "`:" ++ role ++ str ":")))
  /\ (forall (base_spec : gmap string regex) (base_rules : list string)
             (base_method : string -> Match -> State -> Element)
             (f : flags) (tag attrs : regex) (state : State),
        RestInlineParser.parse_step base_spec base_rules base_method f tag attrs
          (str ":py:func:`foo`") state
        = Some (Elem [VStr (str "rest_role"); VStr (str ":py:func:`foo`")],
                length (str ":py:func:`foo`"))).
Proof.
  split.
  - intros f before after m state H. split; [done|]. by apply rest_role_match in H.
  - intros base_spec base_rules base_method f tag attrs state.
    unfold RestInlineParser.parse_step, Engine.step, RestInlineParser.DEFAULT_RULES.
    cbn [app Engine.first_match]. unfold Engine.try_rule.
    destruct (inline_specification_own base_spec tag attrs) as (-> & -> & _).
    unfold inline_match. destruct f as [[] []]; vm_compute; reflexivity.
Qed.

Lemma rest_role_passthrough_witness :
  exists m,
    match_at no_flags REST_ROLE [] (str ":py:func:`foo`") = Some m
    /\ parse_rest_role m ∅ = [VStr (str "rest_role"); VStr (str ":py:func:`foo`")]
    /\ parse_rest_role m ∅ = [VStr (str "rest_role"); VStr (group0 m)]
    /\ exists tail,
         str ":py:func:`foo`" = group0 m ++ tail
         /\ ((exists role code,
                group0 m = str ":" ++ role ++ str ":`" ++ code ++ str "`")
             \/ (exists code role,
                   code <> [] /\ (BQ ∉ code)
                   /\ group0 m = str "`" ++ code ++ str "`:" ++ role ++ str ":")).
Proof.
  eexists. split; [vm_compute; reflexivity|]. split; [vm_compute; reflexivity|].
  apply (proj1 rest_role_passthrough no_flags [] (str ":py:func:`foo`") _ ∅).
  vm_compute. reflexivity.
Defined.

(** C6.  On a text that is not empty [TEXT] matches and takes at least one
    character; and one step of the inline engine, by a rule of the table or
    by the plain text that [TEXT] matches, consumes at least one character
    and no more than the text has, when every inherited pattern consumes
    at least one character where it matches. *)
Theorem inline_step_consumes
    (base_spec : gmap string regex) (base_rules : list string)
    (base_method : string -> Match -> State -> Element)
    (f : flags) (tag attrs : regex) (t : text) (state : State) :
  (forall name p u m,
     base_spec !! name = Some p -> re_match f p u = Some m -> 1 <= consumed m) ->
  t <> [] ->
  (exists m, re_match f TEXT t = Some m
     /\ 1 <= consumed m <= length t /\ group0 m = take (consumed m) t)
  /\ exists x n,
       RestInlineParser.parse_step base_spec base_rules base_method f tag attrs t state
       = Some (x, n)
       /\ 1 <= n <= length t.
Proof.
  intros Hbase Hne.
  destruct (text_matches f [] t eq_refl Hne) as [m Hm].
  destruct (text_match _ _ _ _ Hm) as (c & w & tail & E & G0 & _).
  change (re_match f TEXT t = Some m) in Hm.
  assert (Htext : 1 <= consumed m <= length t /\ group0 m = take (consumed m) t).
  { destruct (consumed_le _ _ _ _ _ Hm) as [Hle Hg]. split; [|done].
    split; [|done]. unfold consumed. rewrite G0. simpl. lia. }
  split; [by exists m|].
  unfold RestInlineParser.parse_step, Engine.step.
  destruct (Engine.first_match _ _ _ t) as [[name m']|] eqn:Hf.
  - eexists _, _. split; [reflexivity|].
    apply first_match_Some in Hf as (l1 & l2 & _ & Hr & _).
    unfold Engine.try_rule in Hr.
    destruct (RestInlineParser.SPECIFICATION base_spec tag attrs !! name)
      as [p|] eqn:Hp; [|done].
    split; [|by apply (consumed_le _ _ _ _ _ Hr)].
    apply inline_specification_lookup in Hp as [Hp|Hp].
    + by eapply own_patterns_consume.
    + by eapply Hbase.
  - rewrite Hm. eexists _, _. split; [reflexivity|]. apply Htext.
Qed.

Lemma inline_step_consumes_witness :
  (exists m, re_match no_flags TEXT (str "see ::") = Some m
     /\ 1 <= consumed m <= length (str "see ::")
     /\ group0 m = take (consumed m) (str "see ::"))
  /\ exists x n,
       RestInlineParser.parse_step Sample.InlineParser_SPECIFICATION
         Sample.InlineParser_DEFAULT_RULES Sample.InlineParser_method no_flags
         Mistune.HTML_TAGNAME Mistune.HTML_ATTRIBUTES (str "see ::") ∅
       = Some (x, n)
       /\ 1 <= n <= length (str "see ::").
Proof.
  apply (inline_step_consumes Sample.InlineParser_SPECIFICATION
           Sample.InlineParser_DEFAULT_RULES Sample.InlineParser_method no_flags
           Mistune.HTML_TAGNAME Mistune.HTML_ATTRIBUTES (str "see ::") ∅).
  - apply escape_consumes.
  - vm_compute. discriminate.
Defined.

(** * Further properties of the patterns and the tables *)

Module SpanFacts.
Import ReFacts PatternFacts TableFacts RestBlockParser RestInlineParser.

(** *** Lines *)

Lemma unterminated_app_no_newline a b :
  NL ∉ a -> unterminated (a ++ b) = unterminated b.
Proof.
  induction a as [|c a IH]; [done|]. intros Hin.
  apply not_elem_of_cons in Hin as [Hc Hin]. cbn [app unterminated].
  rewrite IH by done. apply not_eq_sym, N.eqb_neq in Hc. by rewrite Hc.
Qed.

Lemma unterminated_false t :
  unterminated t = false <->
  exists u c v, t = u ++ NL :: c :: v /\ nonspace c = true.
Proof.
  split.
  - induction t as [|d t IH]; [done|]. cbn [unterminated].
    intros H. apply andb_false_iff in H as [H|H].
    + apply negb_false_iff, andb_prop in H as [Hd Hn]. apply N.eqb_eq in Hd as ->.
      destruct t as [|c v]; [done|]. by exists [], c, v.
    + destruct (IH H) as (u & c & v & -> & Hc). by exists (d :: u), c, v.
  - intros (u & c & v & -> & Hc). destruct (unterminated _) eqn:Hu; [|done].
    by rewrite (unterminated_spec _ _ _ _ Hu eq_refl) in Hc.
Qed.

(** A text whose suffixes never start with a newline and a character other
    than whitespace. *)
Lemma unterminated_suffixes body rest :
  (forall w1 w2 d r,
     body = w1 ++ w2 -> w2 <> [] -> w2 ++ rest = NL :: d :: r -> nonspace d = false) ->
  unterminated (body ++ [NL]) = true.
Proof.
  intros Hs. destruct (unterminated (body ++ [NL])) eqn:Hu; [done|]. exfalso.
  apply unterminated_false in Hu as (u & c & v & E & Hc).
  assert (Hu : exists v', body = u ++ NL :: c :: v').
  { destruct v as [|x v _] using rev_ind.
    - exfalso. change (u ++ [NL; c]) with (u ++ [NL] ++ [c]) in E.
      rewrite app_assoc in E. apply app_inj_tail in E as [_ <-]. done.
    - exists v. change (u ++ NL :: c :: v ++ [x]) with (u ++ (NL :: c :: v) ++ [x]) in E.
      rewrite app_assoc in E. by apply app_inj_tail in E as [-> _]. }
  destruct Hu as [v' ->].
  rewrite (Hs u (NL :: c :: v') c (v' ++ rest) eq_refl ltac:(done) eq_refl) in Hc. done.
Qed.

(** *** DIRECTIVE *)

(** A match of [DIRECTIVE] ends at the first newline that a character other
    than whitespace follows. *)
Lemma directive_match_first before after m :
  match_at (pflags DIRECTIVE) (pattern DIRECTIVE) before after = Some m ->
  exists sp body c tail,
    after = sp ++ str ".." ++ body ++ NL :: c :: tail
    /\ at_bol (pflags DIRECTIVE) (Cursor before [] []) = true
    /\ Forall (fun c => c = SP) sp
    /\ nonspace c = true
    /\ unterminated (sp ++ str ".." ++ body ++ [NL]) = true
    /\ group0 m = sp ++ str ".." ++ body ++ [NL]
    /\ group 1 m = Some (sp ++ str ".." ++ body).
Proof.
  unfold match_at.
  destruct (exec _ _ Some _) as [e|] eqn:He; [|done]. intros [= <-].
  cbn [pflags pattern DIRECTIVE] in He.
  unfold star, star_lazy, lit in He.
  rewrite !exec_cat, exec_bol in He.
  destruct (at_bol _ _) eqn:Hbol; [|done].
  rewrite exec_grp, !exec_cat in He.
  apply exec_parses in He as (w1 & t1 & cs1 & -> & Hp1 & He).
  apply exec_parses in He as (w2 & t2 & cs2 & -> & Hp2 & He).
  apply exec_parses in He as (w3 & t3 & cs3 & -> & Hp3 & He).
  inv_parses.
  apply lazy_star_dot_split in He as (body & t & -> & Hw & Hk & Hmin).
  cbn [seen rest caps] in Hk, Hmin.
  destruct t as [|n t]; [done|]. rewrite exec_chr_cons in Hk.
  destruct (just NL n) eqn:Hn; [|done]. apply just_true in Hn as ->.
  rewrite exec_look_pos in Hk.
  destruct t as [|c tail]; [done|]. rewrite exec_chr_cons in Hk.
  destruct (nonspace c) eqn:Hc; [|done]. injection Hk as <-.
  exists w1, body, c, tail. unfold group0, group. cbn [m_start m_end caps seen rest].
  cbn [find fst snd Nat.eqb fmap option_fmap option_map].
  rewrite (between_eq _ _ _ _ _ _ (w1 ++ str ".." ++ body ++ [NL]))
    by (by rewrite <- !app_assoc).
  rewrite (between_eq _ _ _ _ _ _ (w1 ++ str ".." ++ body))
    by (by rewrite <- !app_assoc).
  apply Forall_just in H.
  split_and!; try done.
  rewrite unterminated_app_no_newline.
  2:{ intros Hin. rewrite Forall_forall in H. by apply H in Hin. }
  rewrite unterminated_app_no_newline.
  2:{ literals. intros Hin.
      repeat (apply elem_of_cons in Hin as [Hin|Hin]; [done|]).
      by apply elem_of_nil in Hin. }
  apply (unterminated_suffixes body (NL :: c :: tail)).
  intros u1 u2 d r E Hne E2.
  specialize (Hmin u1 u2 E Hne). rewrite E2 in Hmin.
  rewrite exec_chr_cons, just_refl, exec_look_pos, exec_chr_cons in Hmin.
  by destruct (nonspace d).
Qed.

Lemma spaces_then_dot sp sp' x y :
  Forall (fun c => c = SP) sp -> Forall (fun c => c = SP) sp' ->
  sp ++ ch "." :: x = sp' ++ ch "." :: y -> sp = sp' /\ x = y.
Proof.
  intros H. revert sp'. induction H as [|c sp -> _ IH]; intros sp' H' E.
  - destruct H' as [|c sp' -> _]; [by injection E as <-|].
    injection E as E0 _. by vm_compute in E0.
  - destruct H' as [|c sp' -> H']; [injection E as E0 _; by vm_compute in E0|].
    cbn [app] in E. injection E as E. by destruct (IH _ H' E) as [-> ->].
Qed.

(** The first line of a text is where it is. *)
Lemma first_line_prefix line tail body more :
  NL ∉ line -> (tail = [] \/ exists t, tail = NL :: t) ->
  line ++ tail = body ++ NL :: more ->
  exists l, body = line ++ l /\ (l = [] \/ exists x, l = NL :: x).
Proof.
  intros Hline Htail E. apply app_eq_app in E as [k [[-> E]|[-> E]]].
  - destruct k as [|c k]; [exists []; rewrite !app_nil_r; by split; [|left]|].
    exfalso. injection E as <- _. apply Hline, elem_of_app. right. by left.
  - exists k. split; [done|]. destruct k as [|c k]; [by left|right].
    destruct Htail as [->|[t ->]]; [done|]. injection E as <- _. by eexists.
Qed.

(** *** Whitespace up to the end of a line *)

(** The whitespace a text starts with. *)
Lemma space_prefix (t : text) :
  exists i r, t = i ++ r /\ Forall (fun c => space c = true) i
    /\ (r = [] \/ exists d more, r = d :: more /\ nonspace d = true).
Proof.
  induction t as [|c t (i & r & -> & Hi & Hr)].
  - exists [], []. split_and!; [done|constructor|by left].
  - destruct (space c) eqn:Hc.
    + exists (c :: i), r. split_and!; [done|by constructor|done].
    + exists [], (c :: i ++ r). split_and!; [done|constructor|right].
      exists c, (i ++ r). split; [done|]. unfold nonspace. by rewrite Hc.
Qed.

Lemma space_newline : space NL = true.
Proof. done. Qed.

(** [\s*$]: the longest run of whitespace that ends where [$] matches.
    Without MULTILINE it runs to the end of the text; with MULTILINE it ends
    in front of the last newline before the next character that is not
    whitespace. *)
Lemma greedy_spaces_eol f sn rs cs e :
  exec f (Star true (Chr space)) (exec f Eol Some) (Cursor sn rs cs) = Some e ->
  exists ws tail,
    rs = ws ++ tail
    /\ Forall (fun c => space c = true) ws
    /\ e = Cursor (rev ws ++ sn) tail cs
    /\ (tail = []
        \/ (MULTILINE f = true
            /\ exists indent d more,
                 tail = NL :: indent ++ d :: more
                 /\ Forall (fun c => space c = true) indent
                 /\ (NL ∉ indent)
                 /\ nonspace d = true)).
Proof.
  intros He. apply greedy_star_split in He as (ws & tail & -> & Hws & Hk & Hmax).
  rewrite exec_eol in Hk. destruct (at_eol _ _) eqn:Heol in Hk; [|done].
  injection Hk as <-. exists ws, tail. split_and!; try done.
  destruct tail as [|c t]; [by left|right].
  unfold at_eol in Heol. cbn [rest] in Heol.
  apply andb_prop in Heol as [Hc Heol]. apply N.eqb_eq in Hc as ->.
  assert (Hnext : forall w2 t2, NL :: t = w2 ++ t2 -> w2 <> [] ->
            Forall (fun c => space c = true) w2 ->
            at_eol f (Cursor [] t2 []) = false).
  { intros w2 t2 E Hne Hw2. specialize (Hmax w2 t2 E Hne Hw2).
    rewrite exec_eol in Hmax.
    rewrite (at_eol_seen f _ [] t2 cs []) in Hmax. by destruct (at_eol _ _). }
  destruct (MULTILINE f) eqn:Hm.
  - split; [done|]. destruct (space_prefix t) as (i & r & -> & Hi & Hr).
    destruct Hr as [->|(d & more & -> & Hd)].
    + exfalso. rewrite app_nil_r in Hnext.
      specialize (Hnext (NL :: i) [] ltac:(by rewrite app_nil_r) ltac:(done)
                    ltac:(by constructor)).
      done.
    + exists i, d, more. split_and!; try done.
      intros Hin. apply list_elem_of_split in Hin as (i1 & i2 & ->).
      apply Forall_app in Hi as [Hi1 _].
      specialize (Hnext (NL :: i1) (NL :: i2 ++ d :: more)
                    ltac:(by rewrite <- app_assoc) ltac:(done) ltac:(by constructor)).
      unfold at_eol in Hnext. cbn [rest] in Hnext. by rewrite Hm in Hnext.
  - exfalso. cbn [orb] in Heol. destruct t; [|done].
    by specialize (Hnext [NL] [] eq_refl ltac:(done) ltac:(by repeat constructor)).
Qed.

(** *** REST_CODE_BLOCK *)

Lemma rest_code_block_match before after m :
  match_at (pflags REST_CODE_BLOCK) (pattern REST_CODE_BLOCK) before after = Some m ->
  exists ws tail,
    after = str "::" ++ ws ++ tail
    /\ at_bol (pflags REST_CODE_BLOCK) (Cursor before [] []) = true
    /\ Forall (fun c => space c = true) ws
    /\ group0 m = str "::" ++ ws
    /\ (tail = []
        \/ exists indent d more,
             tail = NL :: indent ++ d :: more
             /\ Forall (fun c => space c = true) indent
             /\ (NL ∉ indent)
             /\ nonspace d = true).
Proof.
  unfold match_at.
  destruct (exec _ _ Some _) as [e|] eqn:He; [|done]. intros [= <-].
  cbn [pflags pattern REST_CODE_BLOCK] in He. unfold star, lit in He.
  rewrite !exec_cat, exec_bol in He.
  destruct (at_bol _ _) eqn:Hbol; [|done].
  destruct after as [|c1 after]; [done|]. rewrite exec_chr_cons in He.
  destruct (just _ c1) eqn:H1; [|done]. apply just_true in H1 as ->.
  destruct after as [|c2 after]; [done|]. rewrite exec_chr_cons in He.
  destruct (just _ c2) eqn:H2; [|done]. apply just_true in H2 as ->.
  apply greedy_spaces_eol in He as (ws & tail & -> & Hws & -> & Htail).
  exists ws, tail. unfold group0. cbn [m_start m_end].
  rewrite (between_eq _ _ _ _ _ _ (str "::" ++ ws)) by done.
  split_and!; try done.
  destruct Htail as [->|(_ & R)]; [by left|by right].
Qed.

Lemma rest_code_block_line before ws tail :
  at_bol (pflags REST_CODE_BLOCK) (Cursor before [] []) = true ->
  Forall (fun c => space c = true) ws ->
  (tail = [] \/ exists t, tail = NL :: t) ->
  is_Some (match_at (pflags REST_CODE_BLOCK) (pattern REST_CODE_BLOCK) before
             (str "::" ++ ws ++ tail)).
Proof.
  intros Hbol Hws Htail.
  replace (str "::" ++ ws ++ tail)
    with ((((([] ++ [ch ":"]) ++ [ch ":"]) ++ ws) ++ []) ++ tail)
    by (rewrite app_nil_r; cbn [app]; rewrite <- ?app_assoc; reflexivity).
  eapply parses_match_at. cbn [pflags pattern REST_CODE_BLOCK].
  repeat eapply parses_cat_intro; try apply parses_lit_intro.
  - by apply parses_bol_intro.
  - by apply parses_star_intro.
  - apply parses_eol_intro. by apply at_eol_line_end.
Qed.

(** *** Rule tables *)

Lemma block_specification_inherited base name :
  name ∉ ["directive"; "oneline_directive"; "rest_code_block"] ->
  RestBlockParser.SPECIFICATION base !! name = base !! name.
Proof.
  intros Hn. unfold RestBlockParser.SPECIFICATION.
  apply lookup_union_r. rewrite !lookup_insert_ne, lookup_singleton_ne; [done|..];
    intros <-; apply Hn; set_solver.
Qed.

Lemma inline_specification_inherited base tag attrs name :
  name ∉ ["inline_math"; "rest_link"; "rest_role"; "eol_literal_marker"; "inline_html"] ->
  RestInlineParser.SPECIFICATION base tag attrs !! name = base !! name.
Proof.
  intros Hn. unfold RestInlineParser.SPECIFICATION.
  apply lookup_union_r. rewrite !lookup_insert_ne, lookup_singleton_ne; [done|..];
    intros <-; apply Hn; set_solver.
Qed.

(** *** REST_LINK *)

(** A text without backtick ends at the first backtick. *)
Lemma backtick_free_unique (a b x y : text) :
  BQ ∉ a -> BQ ∉ b -> a ++ BQ :: x = b ++ BQ :: y -> a = b /\ x = y.
Proof.
  revert b. induction a as [|c a IH]; intros [|d b] Ha Hb E.
  - by injection E.
  - injection E as <- _. exfalso. apply Hb. by left.
  - injection E as -> _. exfalso. apply Ha. by left.
  - injection E as -> E. apply not_elem_of_cons in Ha as [_ Ha].
    apply not_elem_of_cons in Hb as [_ Hb]. by destruct (IH _ Ha Hb E) as [-> ->].
Qed.

Lemma rest_link_match f before after m :
  match_at f REST_LINK before after = Some m ->
  exists phrase tail,
    after = str "`" ++ phrase ++ str "`_" ++ tail
    /\ (BQ ∉ phrase)
    /\ group0 m = str "`" ++ phrase ++ str "`_".
Proof.
  intros H. apply match_at_parses in H as (w & t & cs & -> & Hp & -> & G).
  rewrite G. clear G. unfold REST_LINK, bq, star_lazy, lit in Hp. inv_parses.
  match goal with H : Forall _ ?w |- _ => exists w, t; rename H into Hw end.
  apply Forall_none_of in Hw. literals. norm_app. split_and!; try done.
  intros Hin. rewrite Forall_forall in Hw. apply Hw in Hin. apply Hin. by left.
Qed.

Lemma rest_link_matches f before phrase tail :
  BQ ∉ phrase ->
  is_Some (match_at f REST_LINK before (str "`" ++ phrase ++ str "`_" ++ tail)).
Proof.
  intros Hp.
  replace (str "`" ++ phrase ++ str "`_" ++ tail)
    with (((([BQ] ++ phrase) ++ [BQ]) ++ [ch "_"]) ++ tail)
    by (cbn [app]; rewrite <- ?app_assoc; reflexivity).
  eapply parses_match_at. unfold REST_LINK, bq, star_lazy.
  repeat eapply parses_cat_intro; try apply parses_lit_intro;
    try (apply parses_chr_intro, just_refl).
  apply parses_star_intro, Forall_none_of, Forall_forall.
  intros c Hc Hin. apply list_elem_of_singleton in Hin as ->. done.
Qed.

(** *** EOL_LITERAL_MARKER, up to the end *)

Lemma eol_literal_marker_end f before after m :
  match_at f EOL_LITERAL_MARKER before after = Some m ->
  exists pre ws tail,
    after = pre ++ str "::" ++ ws ++ tail
    /\ Forall (fun c => space c = true) pre
    /\ Forall (fun c => space c = true) ws
    /\ group0 m = pre ++ str "::" ++ ws
    /\ group 1 m = (if decide (pre = []) then None else Some pre)
    /\ (tail = []
        \/ (MULTILINE f = true
            /\ exists indent d more,
                 tail = NL :: indent ++ d :: more
                 /\ Forall (fun c => space c = true) indent
                 /\ (NL ∉ indent)
                 /\ nonspace d = true)).
Proof.
  unfold match_at.
  destruct (exec _ _ Some _) as [e|] eqn:He; [|done]. intros [= <-].
  unfold EOL_LITERAL_MARKER, star, lit in He. rewrite !exec_cat in He.
  apply exec_parses in He as (w1 & t1 & cs1 & -> & Hp1 & He).
  apply exec_parses in He as (w2 & t2 & cs2 & -> & Hp2 & He).
  apply exec_parses in He as (w3 & t3 & cs3 & -> & Hp3 & He).
  apply greedy_spaces_eol in He as (ws & tail & -> & Hws & -> & Htail).
  apply parses_chr in Hp2 as (c2 & -> & Hc2 & ->). apply just_true in Hc2 as ->.
  apply parses_chr in Hp3 as (c3 & -> & Hc3 & ->). apply just_true in Hc3 as ->.
  unfold opt, plus in Hp1. apply parses_alt in Hp1 as [Hp1|Hp1].
  - apply parses_grp in Hp1 as (cs0 & Hp1 & ->).
    apply parses_cat in Hp1 as (a & b & cs' & -> & Ha & Hb).
    apply parses_chr in Ha as (c & -> & Hc & ->).
    apply parses_star_chr in Hb as (Hb & ->).
    exists (c :: b), ws, tail. unfold group0, group.
    cbn [m_start m_end caps seen rest find fst snd Nat.eqb fmap option_fmap option_map].
    rewrite (between_eq _ _ _ _ _ _ ((c :: b) ++ str "::" ++ ws))
      by (literals; cbn [app]; rewrite <- ?app_assoc; reflexivity).
    split_and!; try done. by constructor.
  - apply parses_eps in Hp1 as (-> & ->).
    exists [], ws, tail. unfold group0, group.
    cbn [m_start m_end caps seen rest find fst snd Nat.eqb fmap option_fmap option_map].
    rewrite (between_eq _ _ _ _ _ _ (str "::" ++ ws)) by done.
    split_and!; try done.
Qed.

Lemma Forall_space_no_backtick (w : text) :
  Forall (fun c => space c = true) w -> BQ ∉ w.
Proof.
  intros Hw Hin. rewrite Forall_forall in Hw. by apply Hw in Hin.
Qed.

(** *** Plain text in front of a construct *)

(** Where [INLINE_MATH], [REST_ROLE] or [REST_LINK] matches, plain text
    stops. *)
Lemma construct_start_boundary f p before after m :
  p ∈ [INLINE_MATH; REST_ROLE; REST_LINK] ->
  match_at f p before after = Some m -> text_boundary f after = true.
Proof.
  intros Hp H.
  assert (Hc : exists c t, after = c :: t /\ (c = ch ":" \/ c = BQ)).
  { repeat (apply elem_of_cons in Hp as [->|Hp]).
    - destruct (inline_math_match _ _ _ _ H) as (expr & tail & -> & _).
      literals. cbn [app]. eexists _, _. split; [reflexivity|by right].
    - destruct (rest_role_match _ _ _ _ H)
        as (tail & -> & [(role & code & ->)|(code & role & _ & _ & ->)]);
        literals; cbn [app]; eexists _, _; (split; [reflexivity|]); [by left|by right].
    - destruct (rest_link_match _ _ _ _ H) as (phrase & tail & -> & _).
      literals. cbn [app]. eexists _, _. split; [reflexivity|by right].
    - by apply elem_of_nil in Hp. }
  destruct Hc as (c & t & -> & [->| ->]); reflexivity.
Qed.

End SpanFacts.

Module HtmlFacts.
Import ReFacts PatternFacts TableFacts RestBlockParser RestInlineParser.

(** *** Repetitions in general *)

Lemma matches_star f g r s s' :
  matches f (Star g r) s s' <->
  s' = s \/ exists s1, matches f r s s1 /\ length (rest s1) < length (rest s)
             /\ matches f (Star g r) s1 s'.
Proof.
  split.
  - inversion 1; subst; [by left | right; eauto].
  - intros [->|(s1 & ? & ? & ?)]; [constructor | by econstructor].
Qed.

Lemma parses_star f g r sn w t cs cs' :
  parses f (Star g r) sn w t cs cs' <->
  (w = [] /\ cs' = cs)
  \/ exists w1 w2 cs1, w = w1 ++ w2 /\ w1 <> []
       /\ parses f r sn w1 (w2 ++ t) cs cs1
       /\ parses f (Star g r) (rev w1 ++ sn) w2 t cs1 cs'.
Proof.
  unfold parses. rewrite matches_star. split.
  - intros [E|(s1 & H1 & Hlt & H2)].
    + left. by apply parses_nil_inv in E.
    + right. destruct (matches_moved _ _ _ _ H1) as (w1 & E1 & F1).
      destruct (matches_moved _ _ _ _ H2) as (w2 & E2 & F2).
      destruct s1 as [sn1 rs1 cs1]. simpl in *. subst.
      rewrite app_assoc in E1. apply app_inv_tail in E1. subst w.
      exists w1, w2, cs1. rewrite <- app_assoc in H1.
      split_and!; [done| |done|by rewrite rev_app_distr, <- app_assoc in H2].
      intros ->. simpl in Hlt. lia.
  - intros [[-> ->]|(w1 & w2 & cs1 & -> & Hne & H1 & H2)]; [by left|right].
    exists (Cursor (rev w1 ++ sn) (w2 ++ t) cs1). split_and!.
    + by rewrite <- app_assoc.
    + simpl. rewrite !length_app. destruct w1; [done|simpl; lia].
    + by rewrite rev_app_distr, <- app_assoc.
Qed.

Lemma parses_star_ind f g r (Q : text -> Prop) :
  Q [] ->
  (forall sn w1 w2 t cs cs1,
     parses f r sn w1 t cs cs1 -> Q w2 -> Q (w1 ++ w2)) ->
  forall sn w t cs cs', parses f (Star g r) sn w t cs cs' -> Q w.
Proof.
  intros Hnil Hcons sn w. remember (length w) as n eqn:Hn. revert sn w Hn.
  induction n as [n IH] using lt_wf_ind. intros sn w Hn t cs cs' H.
  apply parses_star in H as [[-> _]|(w1 & w2 & cs1 & -> & Hne & H1 & H2)]; [done|].
  eapply Hcons; [exact H1|].
  eapply (IH (length w2)); [|done|exact H2].
  rewrite Hn, length_app. destruct w1; [done|simpl; lia].
Qed.

(** A plain pattern matches a text wherever the text stands, and sets no
    group. *)
Lemma plain_parses f r : plain r = true ->
  forall sn w t cs cs', parses f r sn w t cs cs' ->
  cs' = cs /\ forall sn2 t2 cs2, parses f r sn2 w t2 cs2 cs2.
Proof.
  induction r as [|p| |r1 IH1 r2 IH2|r1 IH1 r2 IH2|g r IH|i r IH| | |b r IH|p];
    cbn [plain]; intros Hpl sn w t cs cs' H; try done.
  - apply parses_eps in H as [-> ->]. split; [done|]. intros. by apply parses_eps.
  - apply parses_chr in H as (c & -> & Hc & ->). split; [done|]. intros.
    apply parses_chr. by exists c.
  - apply parses_dot in H as (c & -> & Hc & ->). split; [done|]. intros.
    apply parses_dot. by exists c.
  - apply andb_prop in Hpl as [Hp1 Hp2].
    apply parses_cat in H as (w1 & w2 & cs1 & -> & H1 & H2).
    destruct (IH1 Hp1 _ _ _ _ _ H1) as [-> F1].
    destruct (IH2 Hp2 _ _ _ _ _ H2) as [-> F2].
    split; [done|]. intros. apply parses_cat. exists w1, w2, cs2. by split_and!.
  - apply andb_prop in Hpl as [Hp1 Hp2]. apply parses_alt in H as [H|H].
    + destruct (IH1 Hp1 _ _ _ _ _ H) as [-> F1]. split; [done|]. intros.
      apply parses_alt. by left.
    + destruct (IH2 Hp2 _ _ _ _ _ H) as [-> F2]. split; [done|]. intros.
      apply parses_alt. by right.
  - remember (length w) as n eqn:Hn. revert sn w cs cs' t Hn H.
    induction n as [n IHn] using lt_wf_ind. intros sn w cs cs' t Hn H.
    apply parses_star in H as [[-> ->]|(w1 & w2 & cs1 & -> & Hne & H1 & H2)].
    + split; [done|]. intros. apply parses_star. by left.
    + destruct (IH Hpl _ _ _ _ _ H1) as [-> F1].
      assert (Hlt : length w2 < n).
      { rewrite Hn, length_app. destruct w1; [done|simpl; lia]. }
      destruct (IHn _ Hlt _ _ _ _ _ eq_refl H2) as [-> F2].
      split; [done|]. intros. apply parses_star. right.
      exists w1, w2, cs2. by split_and!.
Qed.

Lemma fullmatch_parses f r w :
  is_Some (re_fullmatch f r w) -> exists cs, parses f r [] w [] [] cs.
Proof.
  unfold re_fullmatch. cbv zeta. intros [m Hm].
  destruct (exec f r at_end _) as [e|] eqn:He; [|done].
  apply exec_parses in He as (w' & t & cs & -> & Hp & He).
  unfold at_end in He. cbn [rest] in He. destruct t; [|done].
  rewrite app_nil_r. by exists cs.
Qed.

(** What a plain pattern matches in full, it matches in every place. *)
Lemma fullmatch_plain f r w : plain r = true ->
  is_Some (re_fullmatch f r w) -> forall sn t cs, parses f r sn w t cs cs.
Proof.
  intros Hpl H. apply fullmatch_parses in H as [cs' H].
  by destruct (plain_parses f r Hpl _ _ _ _ _ H) as [_ F].
Qed.

(** *** Quotes in a tag *)

Lemma quote_scan_app q w1 w2 :
  quote_scan q (w1 ++ w2) =
  match quote_scan q w1 with Some q' => quote_scan q' w2 | None => None end.
Proof.
  revert q. induction w1 as [|c w1 IH]; intros q; [done|]. cbn [app quote_scan].
  destruct q; try apply IH. destruct (c =? ch ">")%N; [done|apply IH].
Qed.

Lemma quiet_nil : quiet [].
Proof. done. Qed.

Lemma quiet_app w1 w2 : quiet w1 -> quiet w2 -> quiet (w1 ++ w2).
Proof. unfold quiet. intros H1 H2. by rewrite quote_scan_app, H1. Qed.

Lemma quiet_harmless w : Forall harmless w -> quiet w.
Proof.
  unfold quiet. induction 1 as [|c w (H1 & H2 & H3) _ IH]; [done|].
  cbn [quote_scan quote_step].
  apply N.eqb_neq in H1, H2, H3. by rewrite H1, H2, H3.
Qed.

Lemma quiet_single body :
  Forall (fun c => c <> ch "'") body -> quiet ([ch "'"] ++ body ++ [ch "'"]).
Proof.
  unfold quiet. intros H. cbn [app quote_scan quote_step].
  change (ch "'" =? ch ">")%N with false. rewrite N.eqb_refl.
  induction H as [|c w Hc _ IH].
  - cbn [app quote_scan quote_step]. by rewrite N.eqb_refl.
  - cbn [app quote_scan quote_step]. apply N.eqb_neq in Hc. by rewrite Hc.
Qed.

Lemma quiet_double body :
  Forall (fun c => c <> DQ) body -> quiet ([DQ] ++ body ++ [DQ]).
Proof.
  unfold quiet. intros H. cbn [app quote_scan quote_step].
  change (DQ =? ch ">")%N with false. change (DQ =? ch "'")%N with false.
  rewrite N.eqb_refl.
  induction H as [|c w Hc _ IH].
  - cbn [app quote_scan quote_step]. by rewrite N.eqb_refl.
  - cbn [app quote_scan quote_step]. apply N.eqb_neq in Hc. by rewrite Hc.
Qed.

(** The first [>] outside quotes is where it is. *)
Lemma quote_scan_unique q w1 w2 t1 t2 :
  quote_scan q w1 = Some Outside -> quote_scan q w2 = Some Outside ->
  w1 ++ ch ">" :: t1 = w2 ++ ch ">" :: t2 -> w1 = w2 /\ t1 = t2.
Proof.
  revert q w2. induction w1 as [|c w1 IH]; intros q [|c2 w2] H1 H2 E.
  - by injection E as <-.
  - cbn [app] in E. injection E as <- E. injection H1 as ->.
    cbn [quote_scan] in H2. by rewrite N.eqb_refl in H2.
  - cbn [app] in E. injection E as -> E. injection H2 as ->.
    cbn [quote_scan] in H1. by rewrite N.eqb_refl in H1.
  - cbn [app] in E. injection E as <- E. cbn [quote_scan] in H1, H2.
    assert (Hq : quote_scan (quote_step q c) w1 = Some Outside
                 /\ quote_scan (quote_step q c) w2 = Some Outside).
    { destruct q; try done. by destruct (c =? ch ">")%N. }
    destruct Hq as [Hq1 Hq2]. destruct (IH _ _ Hq1 Hq2 E) as [-> ->]. done.
Qed.

Lemma quiet_unique w1 w2 t1 t2 :
  quiet w1 -> quiet w2 -> w1 ++ ch ">" :: t1 = w2 ++ ch ">" :: t2 ->
  w1 = w2 /\ t1 = t2.
Proof. apply quote_scan_unique. Qed.

(** Reads the facts on character classes as arithmetic. *)
Ltac class_arith :=
  unfold harmless, Mistune.alpha, Mistune.digit, space, nonspace, none_of, one_of,
    either, range, just, backslash in *;
  cbn [existsb] in *;
  literals;
  repeat match goal with
  | H : _ && _ = true |- _ => apply andb_prop in H as [? ?]
  | H : _ || _ = true |- _ => apply orb_prop in H as [?|?]
  | H : negb _ = true |- _ => apply negb_true_iff in H
  | H : _ || _ = false |- _ => apply orb_false_elim in H as [? ?]
  | H : (_ <=? _)%N = true |- _ => apply N.leb_le in H
  | H : (_ =? _)%N = true |- _ => apply N.eqb_eq in H
  | H : (_ =? _)%N = false |- _ => apply N.eqb_neq in H
  | H : false = true |- _ => discriminate H
  end;
  try lia.

Lemma alpha_harmless c : Mistune.alpha c = true -> harmless c.
Proof. intros H. class_arith; split_and!; lia. Qed.

Lemma space_harmless c : space c = true -> harmless c.
Proof. intros H. class_arith; split_and!; lia. Qed.

Lemma harmless_chars (p : char -> bool) w :
  (forall c, p c = true -> harmless c) ->
  Forall (fun c => p c = true) w -> quiet w.
Proof. intros Hp Hw. apply quiet_harmless. by eapply Forall_impl. Qed.

Ltac class_goal := class_arith; try (split_and!; lia).

Ltac solve_quiet :=
  lazymatch goal with
  | |- quiet (([ch "'"] ++ _) ++ [ch "'"]) =>
      rewrite <- app_assoc; apply quiet_single;
      eapply Forall_impl; [eassumption|]; intros ? ?; class_goal
  | |- quiet (([DQ] ++ _) ++ [DQ]) =>
      rewrite <- app_assoc; apply quiet_double;
      eapply Forall_impl; [eassumption|]; intros ? ?; class_goal
  | |- quiet (_ ++ _) => apply quiet_app; solve_quiet
  | |- quiet [] => apply quiet_nil
  | |- quiet [_] => apply quiet_harmless; constructor; [class_goal|constructor]
  | |- quiet _ => eapply harmless_chars; [|eassumption]; intros ? ?; class_goal
  end.

Lemma not_in_chars c (p : char -> bool) w :
  p c = false -> Forall (fun d => p d = true) w -> c ∉ w.
Proof.
  intros Hc Hw Hin. rewrite Forall_forall in Hw. apply Hw in Hin. congruence.
Qed.

Lemma not_in_single c (p : char -> bool) x : p c = false -> p x = true -> c ∉ [x].
Proof.
  intros Hc Hx Hin. apply list_elem_of_singleton in Hin as ->. congruence.
Qed.

Ltac solve_notin :=
  lazymatch goal with
  | |- _ ∉ _ ++ _ => apply not_elem_of_app; split; solve_notin
  | |- _ ∉ [] => apply not_elem_of_nil
  | |- _ ∉ [_] => eapply not_in_single; [|eassumption]; vm_compute; reflexivity
  | |- _ ∉ _ => eapply not_in_chars; [|eassumption]; vm_compute; reflexivity
  end.

(** *** The tags of mistune *)

Lemma tagname_parse f sn w t cs cs' :
  parses f Mistune.HTML_TAGNAME sn w t cs cs' ->
  quiet w /\ cs' = cs /\ (ch "<" ∉ w)
  /\ exists c w', w = c :: w' /\ Mistune.alpha c = true.
Proof.
  unfold Mistune.HTML_TAGNAME, star. intros H. inv_parses.
  split_and!; [solve_quiet|done|solve_notin|by eexists _, _].
Qed.

Lemma plain_attributes : plain Mistune.HTML_ATTRIBUTES = true.
Proof. done. Qed.

Lemma plain_tagname : plain Mistune.HTML_TAGNAME = true.
Proof. done. Qed.

Lemma attributes_parse f sn w t cs cs' :
  parses f Mistune.HTML_ATTRIBUTES sn w t cs cs' -> quiet w /\ cs' = cs.
Proof.
  intros H. split; [|by eapply plain_parses; [apply plain_attributes|]].
  unfold Mistune.HTML_ATTRIBUTES, star in H.
  eapply (parses_star_ind f true _ quiet); [apply quiet_nil| |exact H].
  clear. intros sn w1 w2 t cs cs1 H Hq. apply quiet_app; [|done]. clear Hq.
  unfold Mistune.attr_name, Mistune.attr_value, plus, star, star_lazy, opt, lit in H.
  inv_parses; solve_quiet.
Qed.

(** *** The alternatives of INLINE_HTML *)

Lemma exec_inline_html f tag attrs k s :
  exec f (INLINE_HTML tag attrs) k s =
  orelse (orelse (orelse (orelse (exec f (HTML_OPEN_CLOSE tag attrs) k s)
                                 (exec f (HTML_SELF_CLOSING tag attrs) k s))
                         (exec f HTML_PI k s))
                 (exec f HTML_DOCTYPE k s))
         (exec f HTML_CDATA k s).
Proof. reflexivity. Qed.

(** The match object of a run of the matcher. *)
Lemma match_at_of_exec f r before w tail cs :
  exec f r Some (Cursor before (w ++ tail) []) = Some (Cursor (rev w ++ before) tail cs) ->
  exists m,
    match_at f r before (w ++ tail) = Some m
    /\ group0 m = w
    /\ group 1 m = snd <$> List.find (fun p => Nat.eqb (fst p) 1) cs.
Proof.
  intros He. eexists. unfold match_at. cbv zeta. rewrite He.
  cbn [fmap option_fmap option_map]. split; [reflexivity|].
  split; [by apply between_eq|]. apply group_lookup.
Qed.

(** *** Literals and lazy runs *)

Lemma then_literals_spec f l sn t cs :
  then_literals f l Some (Cursor sn t cs) =
  if starts_with l t then Some (Cursor (rev l ++ sn) (drop (length l) t) cs) else None.
Proof.
  revert sn t. induction l as [|c l IH]; intros sn t.
  - cbn [then_literals fold_right rev app length]. by rewrite drop_0.
  - cbn [then_literals fold_right]. fold (then_literals f l Some).
    destruct t as [|d t].
    + by rewrite exec_chr_nil.
    + rewrite exec_chr_cons. unfold starts_with. cbn [length take drop rev].
      destruct (just c d) eqn:Hd.
      * apply just_true in Hd as ->. rewrite IH. unfold starts_with.
        rewrite <- app_assoc. cbn [app].
        destruct (bool_decide (take (length l) t = l)) eqn:Hb.
        -- apply bool_decide_eq_true in Hb. by rewrite bool_decide_true by congruence.
        -- apply bool_decide_eq_false in Hb. rewrite bool_decide_false; [done|].
           intros [= E]. done.
      * rewrite bool_decide_false; [done|]. intros [= E _].
        subst. by rewrite just_refl in Hd.
Qed.

Lemma absent_inside_spec p more w :
  absent_inside p more w = true <->
  forall w1 w2, w = w1 ++ w2 -> w2 <> [] -> starts_with p (w2 ++ more) = false.
Proof.
  induction w as [|c w IH].
  - split; [|done]. intros _ w1 w2 E Hne. by destruct w1, w2.
  - cbn [absent_inside]. rewrite andb_true_iff, negb_true_iff, IH. split.
    + intros [Hc Hw] [|d w1] w2 E Hne; cbn [app] in E.
      * by subst.
      * injection E as -> E. by eapply Hw.
    + intros H. split; [by apply (H [] (c :: w))|].
      intros w1 w2 E Hne. by apply (H (c :: w1) w2); [rewrite E|].
Qed.

(** [[\s\S]+?] and the literals [l]: one character, then up to the first
    place where [l] stands. *)
Lemma lazy_until f l sn c body tail cs :
  absent_inside l (l ++ tail) body = true ->
  exec f (plus_lazy any_char) (then_literals f l Some)
    (Cursor sn (c :: body ++ l ++ tail) cs)
  = Some (Cursor (rev l ++ rev body ++ c :: sn) tail cs).
Proof.
  intros Habs. unfold plus_lazy, any_char. rewrite exec_cat, exec_chr_cons, any_char_true.
  apply lazy_star_split. exists body, (l ++ tail). split_and!; [done| | |].
  - apply Forall_forall. intros ? _. apply any_char_true.
  - rewrite then_literals_spec. unfold starts_with.
    rewrite take_app_length, bool_decide_true by done. by rewrite drop_app_length.
  - intros w1 w2 E Hne. rewrite then_literals_spec.
    by rewrite (proj1 (absent_inside_spec _ _ _) Habs w1 w2 E Hne).
Qed.

(** *** Open tags, close tags *)

Section TagPatterns.
Variable f : flags.
Variables TAG ATTRS : regex.
Hypothesis Htag : tag_name_like f TAG.
Hypothesis Hattributes : attributes_like f ATTRS.

Lemma tag_parse sn w t cs cs' :
  parses f TAG sn w t cs cs' -> quiet w /\ cs' = cs /\ (ch "<" ∉ w).
Proof.
  intros H. destruct Htag as [Hpl Hq]. destruct (Hq _ _ _ _ _ H) as [? ?].
  by destruct (plain_parses f TAG Hpl _ _ _ _ _ H) as [-> _].
Qed.

Lemma attrs_parse sn w t cs cs' :
  parses f ATTRS sn w t cs cs' -> quiet w /\ cs' = cs.
Proof.
  intros H. destruct Hattributes as [Hpl Hq]. split; [by eapply Hq|].
  by destruct (plain_parses f ATTRS Hpl _ _ _ _ _ H) as [-> _].
Qed.

(** An open tag is matched up to its [>]: the first one outside quotes. *)
Lemma open_pattern_ends sn w t cs cs' inner tail :
  parses f (open_pattern TAG ATTRS) sn w t cs cs' ->
  quiet inner ->
  w ++ t = str "<" ++ inner ++ str ">" ++ tail ->
  w = str "<" ++ inner ++ str ">" /\ t = tail /\ cs' = cs.
Proof.
  unfold open_pattern, star, lit. intros Hp Hq' E.
  apply parses_cat in Hp as (wa & w6 & cs6 & -> & Hp & H6).
  apply parses_cat in Hp as (wb & w5 & cs5 & -> & Hp & H5).
  apply parses_cat in Hp as (wc & w4 & cs4 & -> & Hp & H4).
  apply parses_cat in Hp as (wd & w3 & cs3 & -> & Hp & H3).
  apply tag_parse in H3 as (Hq3 & -> & _).
  apply attrs_parse in H4 as (Hq4 & ->).
  apply parses_star_chr in H5 as [H5 ->].
  inv_parses.
  assert (Hq : quiet (w3 ++ w4 ++ w5)) by (repeat apply quiet_app; [done|done|solve_quiet]).
  revert E. literals. norm_app. intros E. injection E as E.
  rewrite (app_assoc w4), (app_assoc w3) in E.
  apply quiet_unique in E as [E ->]; [|done|done].
  split; [|done]. f_equal. by rewrite <- E, <- !app_assoc.
Qed.

Lemma close_pattern_ends sn w t cs cs' inner tail :
  parses f (close_pattern TAG) sn w t cs cs' ->
  quiet inner ->
  w ++ t = str "</" ++ inner ++ str ">" ++ tail ->
  w = str "</" ++ inner ++ str ">" /\ t = tail /\ cs' = cs.
Proof.
  unfold close_pattern, star, lit. intros Hp Hq' E.
  apply parses_cat in Hp as (w1 & w6 & cs6 & -> & Hp & H6).
  apply parses_cat in Hp as (w1' & w5 & cs5 & -> & Hp & H5).
  apply parses_cat in Hp as (w1'' & w4 & cs4 & -> & Hp & H4).
  apply tag_parse in H4 as (Hq4 & -> & _).
  apply parses_star_chr in H5 as [H5 ->].
  inv_parses.
  assert (Hq : quiet (w4 ++ w5)) by (apply quiet_app; [done|solve_quiet]).
  revert E. literals. norm_app. intros E. injection E as E.
  rewrite (app_assoc w4) in E.
  apply quiet_unique in E as [E ->]; [|done|done].
  split; [|done]. do 2 f_equal. by rewrite <- E, <- !app_assoc.
Qed.

Lemma self_closing_ends sn w t cs cs' inner tail :
  parses f (HTML_SELF_CLOSING TAG ATTRS)
    sn w t cs cs' ->
  quiet inner ->
  w ++ t = str "<" ++ inner ++ str "/>" ++ tail ->
  w = str "<" ++ inner ++ str "/>" /\ t = tail /\ cs' = cs.
Proof.
  unfold HTML_SELF_CLOSING, star, lit. intros Hp Hq' E.
  apply parses_cat in Hp as (wa & w7 & cs7 & -> & Hp & H7).
  apply parses_cat in Hp as (wa' & w6 & cs6 & -> & Hp & H6).
  apply parses_cat in Hp as (wb & w5 & cs5 & -> & Hp & H5).
  apply parses_cat in Hp as (wc & w4 & cs4 & -> & Hp & H4).
  apply parses_cat in Hp as (wd & w3 & cs3 & -> & Hp & H3).
  apply tag_parse in H3 as (Hq3 & -> & _).
  apply attrs_parse in H4 as (Hq4 & ->).
  apply parses_star_chr in H5 as [H5 ->].
  inv_parses.
  assert (Hq : quiet (w3 ++ w4 ++ w5 ++ [ch "/"])).
  { repeat apply quiet_app; [done|done|solve_quiet|].
    apply quiet_harmless. by repeat constructor. }
  assert (Hqi : quiet (inner ++ [ch "/"])).
  { apply quiet_app; [done|]. apply quiet_harmless. by repeat constructor. }
  revert E Hq Hqi. literals. norm_app. intros E Hq Hqi. injection E as E.
  change (w3 ++ w4 ++ w5 ++ 47%N :: 62%N :: t)
    with (w3 ++ w4 ++ w5 ++ [47%N] ++ 62%N :: t) in E.
  change (inner ++ 47%N :: 62%N :: tail) with (inner ++ [47%N] ++ 62%N :: tail) in E.
  rewrite (app_assoc w5), (app_assoc w4), (app_assoc w3), (app_assoc inner) in E.
  apply quiet_unique in E as [E ->]; [|done|done].
  split; [|done]. f_equal.
  rewrite <- ?app_assoc in E. cbn [app] in E.
  change (inner ++ [47%N; 62%N]) with (inner ++ [47%N] ++ [62%N]).
  rewrite (app_assoc inner), <- E. by rewrite <- !app_assoc.
Qed.

(** A close tag starts with [<]. *)
Lemma close_pattern_starts sn w t cs cs' :
  parses f (close_pattern TAG) sn w t cs cs' ->
  exists x, w = ch "<" :: x.
Proof.
  unfold close_pattern, lit. intros Hp.
  repeat match goal with
  | H : parses _ (Cat _ _) _ _ _ _ _ |- _ =>
      apply parses_cat in H as (? & ? & ? & -> & ? & ?)
  | H : parses _ (Chr _) _ _ _ _ _ |- _ => apply parses_chr in H as (? & -> & ? & ?)
  | H : parses _ (NotAfter _) _ _ _ _ _ |- _ =>
      apply parses_not_after in H as (-> & ? & ?)
  end.
  just_eqs. subst. rewrite <- !app_assoc. cbn [app]. by eexists.
Qed.

Lemma exec_open_close k s :
  exec f (HTML_OPEN_CLOSE TAG ATTRS) k s
  = exec f (open_pattern TAG ATTRS)
      (exec f (Grp 1 (star Dot)) (exec f (close_pattern TAG) k)) s.
Proof. reflexivity. Qed.

(** After a tag that no [<] follows, [HTML_OPEN_CLOSE] finds no close tag. *)
Lemma open_close_needs_close k sn inner tail cs :
  quiet inner -> ch "<" ∉ tail ->
  exec f (HTML_OPEN_CLOSE TAG ATTRS) k
    (Cursor sn (str "<" ++ inner ++ str ">" ++ tail) cs) = None.
Proof.
  intros Hq Htail. destruct (exec _ _ _ _) as [e|] eqn:He; [|done]. exfalso.
  rewrite exec_open_close in He.
  apply exec_parses in He as (w & t & cs1 & E & Hp & He).
  destruct (open_pattern_ends _ _ _ _ _ _ _ Hp Hq (eq_sym E)) as (-> & -> & ->).
  apply exec_parses in He as (w1 & t1 & cs2 & -> & _ & He).
  apply exec_parses in He as (w2 & t2 & cs3 & -> & Hp2 & _).
  apply close_pattern_starts in Hp2 as [x ->].
  apply Htail. rewrite !elem_of_app. right. left. by left.
Qed.

Variables name attrs ws : text.
Hypothesis Hname : is_Some (re_fullmatch f TAG name).
Hypothesis Hattrs : is_Some (re_fullmatch f ATTRS attrs).
Hypothesis Hws : Forall (fun c => space c = true) ws.

Lemma name_parses sn t cs : parses f TAG sn name t cs cs.
Proof. apply fullmatch_plain; [apply Htag|done]. Qed.

Lemma attrs_parses sn t cs : parses f ATTRS sn attrs t cs cs.
Proof. apply fullmatch_plain; [apply Hattributes|done]. Qed.

Lemma name_quiet : quiet name /\ (ch "<" ∉ name).
Proof.
  by destruct (tag_parse _ _ _ _ _ (name_parses [] [] [])) as (Hq & _ & Hn).
Qed.

Lemma open_inner_quiet : quiet (name ++ attrs ++ ws).
Proof.
  destruct name_quiet as [Hq _].
  destruct (attrs_parse _ _ _ _ _ (attrs_parses [] [] [])) as (Hq' & _).
  repeat apply quiet_app; [done|done|]. solve_quiet.
Qed.

Lemma close_inner_quiet : quiet (name ++ ws).
Proof.
  destruct name_quiet as [Hq _]. apply quiet_app; [done|]. solve_quiet.
Qed.

Lemma close_tag_inner : ch "<" ∉ str "/" ++ name ++ ws ++ str ">".
Proof.
  destruct name_quiet as [_ Hn].
  repeat (apply not_elem_of_app; split); try done.
  - literals. by apply not_elem_of_cons; split; [|apply not_elem_of_nil].
  - solve_notin.
  - literals. by apply not_elem_of_cons; split; [|apply not_elem_of_nil].
Qed.

Lemma open_pattern_intro sn t cs :
  not_after backslash (Cursor sn [] []) = true ->
  parses f (open_pattern TAG ATTRS) sn
    (open_tag name attrs ws) t cs cs.
Proof.
  intros Hna. unfold open_pattern, open_tag, star.
  replace (str "<" ++ name ++ attrs ++ ws ++ str ">")
    with ((((([] ++ [ch "<"]) ++ name) ++ attrs) ++ ws) ++ [ch ">"])
    by (literals; by norm_app).
  repeat eapply parses_cat_intro; try apply parses_lit_intro.
  - by apply parses_not_after_intro.
  - apply name_parses.
  - apply attrs_parses.
  - by apply parses_star_intro.
Qed.

Lemma close_pattern_intro sn t cs :
  not_after backslash (Cursor sn [] []) = true ->
  parses f (close_pattern TAG) sn (close_tag name ws) t cs cs.
Proof.
  intros Hna. unfold close_pattern, close_tag, star.
  replace (str "</" ++ name ++ ws ++ str ">")
    with ((((([] ++ [ch "<"]) ++ [ch "/"]) ++ name) ++ ws) ++ [ch ">"])
    by (literals; by norm_app).
  repeat eapply parses_cat_intro; try apply parses_lit_intro.
  - by apply parses_not_after_intro.
  - apply name_parses.
  - by apply parses_star_intro.
Qed.

Lemma self_closing_intro sn t cs :
  not_after backslash (Cursor sn [] []) = true ->
  parses f (HTML_SELF_CLOSING TAG ATTRS) sn
    (self_closing_tag name attrs ws) t cs cs.
Proof.
  intros Hna. unfold HTML_SELF_CLOSING, self_closing_tag, star.
  replace (str "<" ++ name ++ attrs ++ ws ++ str "/>")
    with (((((([] ++ [ch "<"]) ++ name) ++ attrs) ++ ws) ++ [ch "/"]) ++ [ch ">"])
    by (literals; by norm_app).
  repeat eapply parses_cat_intro; try apply parses_lit_intro.
  - by apply parses_not_after_intro.
  - apply name_parses.
  - apply attrs_parses.
  - by apply parses_star_intro.
Qed.

End TagPatterns.

(** *** The span of an open tag, contents and a close tag *)

Section OpenClose.
Variable f : flags.
Variables TAG ATTRS : regex.
Hypothesis Htag : tag_name_like f TAG.
Hypothesis Hattributes : attributes_like f ATTRS.
Variables (before name attrs ws contents name' ws' tail : text).
Hypothesis Hbefore : not_after backslash (Cursor before [] []) = true.
Hypothesis Hname : is_Some (re_fullmatch f TAG name).
Hypothesis Hattrs : is_Some (re_fullmatch f ATTRS attrs).
Hypothesis Hws : Forall (fun c => space c = true) ws.
Hypothesis Hdot : Forall (fun c => dot f c = true) contents.
Hypothesis Hesc : escaped contents = false.
Hypothesis Hname' : is_Some (re_fullmatch f TAG name').
Hypothesis Hws' : Forall (fun c => space c = true) ws'.
Hypothesis Htail : ch "<" ∉ tail.

Local Abbreviation opening := (open_tag name attrs ws).
Local Abbreviation closing := (close_tag name' ws').
Local Abbreviation span := (opening ++ contents ++ closing).

Lemma open_tag_end : exists w, opening = w ++ [ch ">"].
Proof.
  exists (str "<" ++ name ++ attrs ++ ws). unfold open_tag. literals.
  by rewrite <- !app_assoc.
Qed.

Lemma not_escaped_close sn :
  not_after backslash (Cursor (rev contents ++ rev opening ++ sn) [] []) = true.
Proof.
  unfold not_after. cbn [seen]. destruct contents as [|c w _] using rev_ind.
  - destruct open_tag_end as [w ->]. by rewrite rev_app_distr.
  - rewrite rev_app_distr. cbn [rev app]. unfold escaped in Hesc.
    rewrite last_snoc in Hesc. by rewrite Hesc.
Qed.

Lemma span_seen sn : rev closing ++ rev contents ++ rev opening ++ sn = rev span ++ sn.
Proof. by rewrite !rev_app_distr, <- !app_assoc. Qed.

(** Where [HTML_OPEN_CLOSE] matches the span, it matches all of it, and
    group 1 is the contents. *)
Lemma open_close_result e :
  exec f (HTML_OPEN_CLOSE TAG ATTRS) Some
    (Cursor before (span ++ tail) []) = Some e ->
  e = Cursor (rev span ++ before) tail [(1, contents)].
Proof.
  rewrite exec_open_close. intros He.
  apply exec_parses in He as (w & t & cs & E & Hp & He).
  assert (E0 : w ++ t = str "<" ++ (name ++ attrs ++ ws) ++ str ">"
                         ++ contents ++ closing ++ tail).
  { rewrite <- E. unfold open_tag. by rewrite <- !app_assoc. }
  destruct (open_pattern_ends f TAG ATTRS Htag Hattributes _ _ _ _ _ _ _ Hp
              (open_inner_quiet f TAG ATTRS Htag Hattributes name attrs ws Hname Hattrs Hws) E0) as (Ew & -> & ->).
  assert (Ew' : w = opening) by (rewrite Ew; unfold open_tag; by rewrite <- !app_assoc).
  clear Ew E0 E Hp. subst w.
  unfold star in He. rewrite exec_grp in He.
  apply greedy_star_dot_split in He as (w & t & E & Hw & Hk & Hmax).
  cbn [seen rest caps] in Hk, Hmax.
  apply exec_parses in Hk as (wc & tc & csc & -> & Hpc & [= <-]).
  pose proof (close_pattern_starts f TAG _ _ _ _ _ Hpc) as Hlt.
  assert (Hw_eq : w = contents /\ wc ++ tc = closing ++ tail).
  { apply app_eq_app in E as [l [[E1 E2]|[E1 E2]]].
    - destruct l as [|c l]; [rewrite app_nil_r in E1; by subst|].
      exfalso. specialize (Hmax (c :: l) (closing ++ tail) E2 ltac:(done)).
      pose proof Hdot as Hl. rewrite E1 in Hl. apply Forall_app in Hl as [_ Hl].
      specialize (Hmax Hl). rewrite <- E1 in Hmax.
      match type of Hmax with exec _ _ _ (Cursor _ _ ?cs) = None =>
        pose proof (close_pattern_intro f TAG Htag name' ws' Hname' Hws'
                      (rev contents ++ rev opening ++ before) tail cs
                      (not_escaped_close before)) as Hp'
      end.
      by apply (parses_exec_None _ _ _ _ _ _ _ _ Hmax) in Hp'.
    - destruct l as [|c l]; [rewrite app_nil_r in E1; by subst|].
      exfalso. destruct Hlt as [x ->]. unfold close_tag in E2.
      revert E2. literals. cbn [app]. intros [= Hc E2].
      assert (Hin : 60%N ∈ 47%N :: (name' ++ ws' ++ [62%N]) ++ tail).
      { rewrite E2. apply elem_of_app. right. by left. }
      apply elem_of_cons in Hin as [Hin|Hin]; [done|].
      apply elem_of_app in Hin as [Hin|Hin]; [|by apply Htail].
      apply (close_tag_inner f TAG Htag name' ws' Hname' Hws'). literals. cbn [app].
      by right. }
  destruct Hw_eq as [-> Ec].
  assert (Ec' : wc ++ tc = str "</" ++ (name' ++ ws') ++ str ">" ++ tail).
  { rewrite Ec. unfold close_tag. by rewrite <- !app_assoc. }
  destruct (close_pattern_ends f TAG Htag _ _ _ _ _ _ _ Hpc
              (close_inner_quiet f TAG Htag name' ws' Hname' Hws') Ec') as (Ewc & -> & ->).
  assert (Ewc' : wc = closing) by (rewrite Ewc; unfold close_tag; by rewrite <- !app_assoc).
  clear Ewc. subst wc. f_equal.
  - exact (span_seen before).
  - by rewrite (between_eq _ _ _ _ _ _ contents).
Qed.

Lemma open_close_matches :
  is_Some (exec f (HTML_OPEN_CLOSE TAG ATTRS) Some
             (Cursor before (span ++ tail) [])).
Proof.
  rewrite exec_open_close. rewrite <- !app_assoc.
  eapply parses_exec; [by apply open_pattern_intro|].
  unfold star. rewrite exec_grp.
  eapply parses_exec; [by apply parses_star_dot_intro|]. cbn beta. cbn [seen rest caps].
  eapply parses_exec; [apply close_pattern_intro, not_escaped_close; done|done].
Qed.

Lemma open_close_exec :
  exec f (INLINE_HTML TAG ATTRS) Some (Cursor before (span ++ tail) [])
  = Some (Cursor (rev span ++ before) tail [(1, contents)]).
Proof.
  destruct open_close_matches as [e He].
  rewrite exec_inline_html, He. cbn [orelse]. f_equal. by apply open_close_result.
Qed.

End OpenClose.

(** *** INLINE_HTML *)

(** The constants of mistune are as the properties ask. *)
Lemma mistune_tagname_like f : tag_name_like f Mistune.HTML_TAGNAME.
Proof.
  split; [done|]. intros sn w t cs cs' H.
  by apply tagname_parse in H as (? & _ & ? & _).
Qed.

Lemma mistune_attributes_like f : attributes_like f Mistune.HTML_ATTRIBUTES.
Proof.
  split; [done|]. intros sn w t cs cs' H. by apply attributes_parse in H as (? & _).
Qed.

(** A self-closing tag that no [<] follows is what [INLINE_HTML] takes. *)
Lemma self_closing_exec f TAG ATTRS before name attrs ws tail :
  tag_name_like f TAG ->
  attributes_like f ATTRS ->
  not_after backslash (Cursor before [] []) = true ->
  is_Some (re_fullmatch f TAG name) ->
  is_Some (re_fullmatch f ATTRS attrs) ->
  Forall (fun c => space c = true) ws ->
  ch "<" ∉ tail ->
  exec f (INLINE_HTML TAG ATTRS) Some
    (Cursor before (self_closing_tag name attrs ws ++ tail) [])
  = Some (Cursor (rev (self_closing_tag name attrs ws) ++ before) tail []).
Proof.
  intros Htag Hattributes Hbefore Hname Hattrs Hws Htail.
  pose proof (open_inner_quiet f TAG ATTRS Htag Hattributes name attrs ws
                Hname Hattrs Hws) as Hq.
  assert (Hq' : quiet ((name ++ attrs ++ ws) ++ [ch "/"])).
  { apply quiet_app; [done|]. apply quiet_harmless. by repeat constructor. }
  assert (E : self_closing_tag name attrs ws ++ tail
              = str "<" ++ ((name ++ attrs ++ ws) ++ [ch "/"]) ++ str ">" ++ tail).
  { unfold self_closing_tag. literals. cbn [app]. by rewrite <- !app_assoc. }
  assert (E' : self_closing_tag name attrs ws ++ tail
               = str "<" ++ (name ++ attrs ++ ws) ++ str "/>" ++ tail).
  { unfold self_closing_tag. literals. cbn [app]. by rewrite <- !app_assoc. }
  assert (Hoc : exec f (HTML_OPEN_CLOSE TAG ATTRS)
                   Some (Cursor before (self_closing_tag name attrs ws ++ tail) [])
                 = None).
  { rewrite E. by apply open_close_needs_close. }
  rewrite exec_inline_html, Hoc. cbn [orelse].
  destruct (parses_exec f _ Some before _ tail [] []
              (self_closing_intro f TAG ATTRS Htag Hattributes name attrs ws
                 Hname Hattrs Hws before tail [] Hbefore)
              ltac:(done)) as [e He].
  rewrite He. cbn [orelse]. f_equal.
  apply exec_parses in He as (w & t & cs & Ew & Hp & [= <-]).
  rewrite E' in Ew.
  destruct (self_closing_ends f TAG ATTRS Htag Hattributes _ _ _ _ _ _ _ Hp Hq
              (eq_sym Ew)) as (-> & -> & ->).
  f_equal. do 2 f_equal. unfold self_closing_tag. by rewrite <- !app_assoc.
Qed.

(** The two alternatives with a tag name match nothing that starts with
    [<?] or [<!], when no tag name starts with [?] or [!]. *)
Lemma tag_alternatives_fail f tag attrs k sn x t cs :
  (forall sn w t cs cs', parses f tag sn w t cs cs' ->
     exists d w', w = d :: w' /\ d <> ch "?" /\ d <> ch "!") ->
  x = ch "?" \/ x = ch "!" ->
  exec f (HTML_OPEN_CLOSE tag attrs) k (Cursor sn (ch "<" :: x :: t) cs) = None
  /\ exec f (HTML_SELF_CLOSING tag attrs) k (Cursor sn (ch "<" :: x :: t) cs) = None.
Proof.
  intros Htag Hx.
  assert (H : forall k', exec f (NotAfter backslash ⋅ lit "<" ⋅ tag) k'
                           (Cursor sn (ch "<" :: x :: t) cs) = None).
  { intros k'. destruct (exec _ _ _ _) as [e|] eqn:He; [|done]. exfalso.
    unfold lit in He. rewrite !exec_cat, exec_not_after in He.
    destruct (not_after _ _); [|done]. rewrite exec_chr_cons, just_refl in He.
    apply exec_parses in He as (w & t' & cs' & E & Hp & _).
    apply Htag in Hp as (d & w' & -> & Hd1 & Hd2). injection E as <- _.
    by destruct Hx. }
  split.
  - unfold HTML_OPEN_CLOSE. rewrite !exec_cat. rewrite <- !exec_cat. apply H.
  - unfold HTML_SELF_CLOSING. rewrite !exec_cat. rewrite <- !exec_cat. apply H.
Qed.

Lemma not_after_seen p sn rs cs :
  not_after p (Cursor sn rs cs) = not_after p (Cursor sn [] []).
Proof. done. Qed.

Lemma exec_lit_cons f a k sn c t cs :
  exec f (lit a) k (Cursor sn (c :: t) cs) =
  if just (ch a) c then k (Cursor (c :: sn) t cs) else None.
Proof. apply exec_chr_cons. Qed.

(** A processing instruction, a declaration or a CDATA section is what
    [INLINE_HTML] takes, up to the first closer. *)
Lemma opaque_forms_exec f tag attrs before form c body tail :
  (forall sn w t cs cs', parses f tag sn w t cs cs' ->
     exists d w', w = d :: w' /\ d <> ch "?" /\ d <> ch "!") ->
  not_after backslash (Cursor before [] []) = true ->
  html_form_ok form = true ->
  absent_inside (html_closer form) (html_closer form ++ tail) body = true ->
  exec f (INLINE_HTML tag attrs) Some
    (Cursor before (html_opener form ++ c :: body ++ html_closer form ++ tail) [])
  = Some (Cursor (rev (html_opener form ++ c :: body ++ html_closer form) ++ before)
            tail []).
Proof.
  intros Htag Hbefore Hok Habs.
  rewrite exec_inline_html.
  destruct form as [|u|]; cbn [html_opener html_closer html_form_ok] in *.
  - change (str "<?" ++ c :: body ++ str "?>" ++ tail)
      with (ch "<" :: ch "?" :: c :: body ++ str "?>" ++ tail).
    destruct (tag_alternatives_fail f tag attrs Some before (ch "?")
                (c :: body ++ str "?>" ++ tail) [] Htag ltac:(by left)) as [-> ->].
    cbn [orelse]. unfold HTML_PI.
    rewrite !exec_cat, exec_not_after, (not_after_seen _ before), Hbefore, !exec_lit_cons, !just_refl.
    change (exec f (lit "?") (exec f (lit ">") Some))
      with (then_literals f (str "?>") Some).
    rewrite lazy_until by done. cbn [orelse]. f_equal. f_equal.
    change (str "<?" ++ c :: body ++ str "?>")
      with ([ch "<"; ch "?"; c] ++ body ++ str "?>").
    by rewrite !rev_app_distr, <- !app_assoc.
  - change ((str "<!" ++ [u]) ++ c :: body ++ str ">" ++ tail)
      with (ch "<" :: ch "!" :: u :: c :: body ++ str ">" ++ tail).
    destruct (tag_alternatives_fail f tag attrs Some before (ch "!")
                (u :: c :: body ++ str ">" ++ tail) [] Htag ltac:(by right))
      as [-> ->].
    cbn [orelse]. unfold HTML_PI at 1.
    rewrite !exec_cat, exec_not_after, (not_after_seen _ before), Hbefore, !exec_lit_cons, just_refl.
    change (just (ch "?") (ch "!")) with false. cbn [orelse]. unfold HTML_DOCTYPE.
    rewrite !exec_cat, exec_not_after, (not_after_seen _ before), Hbefore, !exec_lit_cons, !just_refl.
    rewrite exec_chr_cons, Hok.
    change (exec f (lit ">") Some) with (then_literals f (str ">") Some).
    rewrite lazy_until by done. cbn [orelse]. f_equal. f_equal.
    change ((str "<!" ++ [u]) ++ c :: body ++ str ">")
      with ([ch "<"; ch "!"; u; c] ++ body ++ str ">").
    by rewrite !rev_app_distr, <- !app_assoc.
  - change (str "<![CDATA" ++ c :: body ++ str "]]>" ++ tail)
      with (ch "<" :: ch "!" :: ch "[" :: str "CDATA" ++ c :: body ++ str "]]>" ++ tail).
    destruct (tag_alternatives_fail f tag attrs Some before (ch "!")
                (ch "[" :: str "CDATA" ++ c :: body ++ str "]]>" ++ tail) [] Htag
                ltac:(by right)) as [-> ->].
    cbn [orelse]. unfold HTML_PI at 1.
    rewrite !exec_cat, exec_not_after, (not_after_seen _ before), Hbefore, !exec_lit_cons, just_refl.
    change (just (ch "?") (ch "!")) with false. cbn [orelse]. unfold HTML_DOCTYPE at 1.
    rewrite !exec_cat, exec_not_after, (not_after_seen _ before), Hbefore, !exec_lit_cons, !just_refl.
    rewrite exec_chr_cons.
    change (range (ch "A") (ch "Z") (ch "[")) with false. cbn [orelse].
    unfold HTML_CDATA.
    rewrite !exec_cat, exec_not_after, (not_after_seen _ before), Hbefore.
    change (str "CDATA" ++ c :: body ++ str "]]>" ++ tail)
      with (ch "C" :: ch "D" :: ch "A" :: ch "T" :: ch "A"
              :: c :: body ++ str "]]>" ++ tail).
    rewrite !exec_lit_cons, !just_refl.
    change (exec f (lit "]") (exec f (lit "]") (exec f (lit ">") Some)))
      with (then_literals f (str "]]>") Some).
    rewrite lazy_until by done. f_equal. f_equal.
    change (str "<![CDATA" ++ c :: body ++ str "]]>")
      with ([ch "<"; ch "!"; ch "["; ch "C"; ch "D"; ch "A"; ch "T"; ch "A"; c]
              ++ body ++ str "]]>").
    by rewrite !rev_app_distr, <- !app_assoc.
Qed.

Lemma tagname_not_mark f sn w t cs cs' :
  parses f Mistune.HTML_TAGNAME sn w t cs cs' ->
  exists d w', w = d :: w' /\ d <> ch "?" /\ d <> ch "!".
Proof.
  intros H. apply tagname_parse in H as (_ & _ & _ & d & w' & -> & Hd).
  exists d, w'. split; [done|]. class_arith; split; lia.
Qed.

Lemma between_angles (a : text) :
  (exists x, a = ch "<" :: x) ->
  exists inner, a ++ [ch ">"] = ch "<" :: inner ++ [ch ">"].
Proof. intros [x ->]. by exists x. Qed.

(** Every alternative of [INLINE_HTML] starts with [(?<!\\)<] and ends
    with [>]. *)
Lemma inline_html_shape f tag attrs sn w t cs cs' :
  parses f (INLINE_HTML tag attrs) sn w t cs cs' ->
  not_after backslash (Cursor sn [] []) = true
  /\ exists inner, w = ch "<" :: inner ++ [ch ">"].
Proof.
  unfold INLINE_HTML, HTML_OPEN_CLOSE, HTML_SELF_CLOSING, HTML_PI, HTML_DOCTYPE,
    HTML_CDATA, lit.
  intros Hp.
  repeat match goal with
  | H : parses _ (Alt _ _) _ _ _ _ _ |- _ => apply parses_alt in H as [H|H]
  end;
  apply parses_cat in Hp as (w1 & w2 & cs1 & -> & Hp & Hlast);
  apply parses_chr in Hlast as (c & -> & Hc & ->); apply just_true in Hc as ->;
  repeat match goal with
  | H : parses _ (Cat (Cat _ _) _) _ _ _ _ _ |- _ =>
      apply parses_cat in H as (? & ? & ? & -> & H & _)
  end;
  apply parses_cat in Hp as (? & ? & ? & -> & Hna & Hlt);
  apply parses_not_after in Hna as (-> & _ & Hna);
  apply parses_chr in Hlt as (c & -> & Hc & _); apply just_true in Hc as ->;
  (split; [exact Hna|]); apply between_angles;
  rewrite <- ?app_assoc; cbn [app]; eexists; reflexivity.
Qed.

End HtmlFacts.

Import SpanFacts HtmlFacts.

(** ** Inline HTML as one match *)

(** C7, as stated, fails: without DOTALL, contents with a line break are
    no match at all; and where another tag follows the span, the match
    runs on to the last close tag, whatever the flags, so that group 1 is
    more than the contents of the first span. *)
Lemma inline_html_span_counterexample :
  re_match no_flags (INLINE_HTML Mistune.HTML_TAGNAME Mistune.HTML_ATTRIBUTES)
    broken_span = None
  /\ (fun m => (group0 m, group 1 m))
       <$> re_match no_flags (INLINE_HTML Mistune.HTML_TAGNAME Mistune.HTML_ATTRIBUTES)
             two_spans
     = Some (two_spans, Some (str "x</b> and <i>y"))
  /\ (fun m => (group0 m, group 1 m))
       <$> re_match {| DOTALL := true; MULTILINE := false |}
             (INLINE_HTML Mistune.HTML_TAGNAME Mistune.HTML_ATTRIBUTES) two_spans
     = Some (two_spans, Some (str "x</b> and <i>y")).
Proof. vm_compute. by split_and!. Qed.

(** C7.  Not after a backslash, and for constants [HTML_TAGNAME] and
    [HTML_ATTRIBUTES] that stand anywhere, have no [>] outside quotes, no
    [<] in a tag name, and no tag name that starts with [?] or [!]:
    - an open tag, contents that [.] matches (no line break, unless DOTALL
      is set) and that do not end with a backslash, and a close tag of any
      name, with no [<] after it, are one match of [INLINE_HTML], and
      group 1 is the contents;
    - a self-closing tag with no [<] after it is one match, without
      group 1;
    - a processing instruction, a declaration and a CDATA section are one
      match each, up to the first closer, without group 1. *)
Theorem inline_html_single_match
    (f : flags) (TAG ATTRS : regex) (before : text) :
  tag_name_like f TAG ->
  attributes_like f ATTRS ->
  (forall sn w t cs cs', parses f TAG sn w t cs cs' ->
     exists d w', w = d :: w' /\ d <> ch "?" /\ d <> ch "!") ->
  not_after backslash (Cursor before [] []) = true ->
  (forall name attrs ws contents name' ws' tail : text,
     is_Some (re_fullmatch f TAG name) ->
     is_Some (re_fullmatch f ATTRS attrs) ->
     Forall (fun c => space c = true) ws ->
     Forall (fun c => dot f c = true) contents ->
     escaped contents = false ->
     is_Some (re_fullmatch f TAG name') ->
     Forall (fun c => space c = true) ws' ->
     ch "<" ∉ tail ->
     exists m,
       match_at f (INLINE_HTML TAG ATTRS) before
         ((open_tag name attrs ws ++ contents ++ close_tag name' ws') ++ tail) = Some m
       /\ group0 m = open_tag name attrs ws ++ contents ++ close_tag name' ws'
       /\ group 1 m = Some contents)
  /\ (forall name attrs ws tail : text,
        is_Some (re_fullmatch f TAG name) ->
        is_Some (re_fullmatch f ATTRS attrs) ->
        Forall (fun c => space c = true) ws ->
        ch "<" ∉ tail ->
        exists m,
          match_at f (INLINE_HTML TAG ATTRS) before
            (self_closing_tag name attrs ws ++ tail) = Some m
          /\ group0 m = self_closing_tag name attrs ws
          /\ group 1 m = None)
  /\ (forall (form : html_form) (c : N) (body tail : text),
        html_form_ok form = true ->
        absent_inside (html_closer form) (html_closer form ++ tail) body = true ->
        exists m,
          match_at f (INLINE_HTML TAG ATTRS) before
            ((html_opener form ++ c :: body ++ html_closer form) ++ tail) = Some m
          /\ group0 m = html_opener form ++ c :: body ++ html_closer form
          /\ group 1 m = None).
Proof.
  intros Htag Hattributes Hmark Hbefore. split_and!.
  - intros name attrs ws contents name' ws' tail
      Hname Hattrs Hws Hdot Hesc Hname' Hws' Htail.
    apply (match_at_of_exec f _ before
             (open_tag name attrs ws ++ contents ++ close_tag name' ws') tail
             [(1, contents)]).
    by apply open_close_exec.
  - intros name attrs ws tail Hname Hattrs Hws Htail.
    apply (match_at_of_exec f _ before (self_closing_tag name attrs ws) tail []).
    by apply self_closing_exec.
  - intros form c body tail Hok Habs.
    apply (match_at_of_exec f _ before
             (html_opener form ++ c :: body ++ html_closer form) tail []).
    assert (E : (html_opener form ++ c :: body ++ html_closer form) ++ tail
                = html_opener form ++ c :: body ++ html_closer form ++ tail).
    { rewrite <- !app_assoc. cbn [app]. by rewrite <- !app_assoc. }
    rewrite E. by apply opaque_forms_exec.
Qed.

Lemma inline_html_single_match_witness :
  (exists m,
     match_at no_flags (INLINE_HTML Mistune.HTML_TAGNAME Mistune.HTML_ATTRIBUTES)
       (rev (str "a "))
       ((open_tag (str "b") (str " class='x'") []
           ++ str "bold <i>and</i> more" ++ close_tag (str "b") []) ++ str " z")
     = Some m
     /\ group0 m = open_tag (str "b") (str " class='x'") []
                     ++ str "bold <i>and</i> more" ++ close_tag (str "b") []
     /\ group 1 m = Some (str "bold <i>and</i> more"))
  /\ (exists m,
        match_at no_flags (INLINE_HTML Mistune.HTML_TAGNAME Mistune.HTML_ATTRIBUTES)
          (rev (str "a "))
          (self_closing_tag (str "br") [] (str " ") ++ str "next") = Some m
        /\ group0 m = self_closing_tag (str "br") [] (str " ")
        /\ group 1 m = None)
  /\ (exists m,
        match_at no_flags (INLINE_HTML Mistune.HTML_TAGNAME Mistune.HTML_ATTRIBUTES)
          (rev (str "a "))
          ((html_opener ProcessingInstruction ++ ch "p" :: str "hp echo 1; "
              ++ html_closer ProcessingInstruction) ++ str " z") = Some m
        /\ group0 m = html_opener ProcessingInstruction ++ ch "p" :: str "hp echo 1; "
                        ++ html_closer ProcessingInstruction
        /\ group 1 m = None).
Proof.
  destruct (inline_html_single_match no_flags Mistune.HTML_TAGNAME
              Mistune.HTML_ATTRIBUTES (rev (str "a "))
              (mistune_tagname_like no_flags) (mistune_attributes_like no_flags)
              (tagname_not_mark no_flags) eq_refl) as (Hspan & Hself & Hform).
  split; [|split].
  - apply (Hspan (str "b") (str " class='x'") [] (str "bold <i>and</i> more")
             (str "b") [] (str " z")).
    + vm_compute. eexists. reflexivity.
    + vm_compute. eexists. reflexivity.
    + constructor.
    + vm_compute. repeat constructor.
    + reflexivity.
    + vm_compute. eexists. reflexivity.
    + constructor.
    + vm_compute. intros Hin.
      repeat (apply elem_of_cons in Hin as [Hin|Hin]; [discriminate Hin|]).
      by apply elem_of_nil in Hin.
  - apply (Hself (str "br") [] (str " ") (str "next")).
    + vm_compute. eexists. reflexivity.
    + vm_compute. eexists. reflexivity.
    + vm_compute. repeat constructor.
    + vm_compute. intros Hin.
      repeat (apply elem_of_cons in Hin as [Hin|Hin]; [discriminate Hin|]).
      by apply elem_of_nil in Hin.
  - apply (Hform ProcessingInstruction (ch "p") (str "hp echo 1; ") (str " z")).
    + reflexivity.
    + vm_compute. reflexivity.
Defined.

(** ** The block patterns *)

(** X1.  Every match of [DIRECTIVE] is a line of spaces and two dots with
    the text after them, up to the first newline that a character other
    than whitespace follows: no newline inside the match is followed by
    such a character, the match takes that newline, and group 1, the text
    of the token [parse_directive] returns, leaves it out. *)
Theorem directive_span (before after : text) (m : Match) (state : State) :
  match_at (pflags DIRECTIVE) (pattern DIRECTIVE) before after = Some m ->
  exists sp body c tail,
    after = sp ++ str ".." ++ body ++ NL :: c :: tail
    /\ Forall (fun c => c = SP) sp
    /\ nonspace c = true
    /\ unterminated (sp ++ str ".." ++ body ++ [NL]) = true
    /\ group0 m = sp ++ str ".." ++ body ++ [NL]
    /\ parse_directive m state
       = {[ "type" := VStr (str "directive");
            "text" := VStr (sp ++ str ".." ++ body) ]}.
Proof.
  intros H.
  destruct (directive_match_first _ _ _ H)
    as (sp & body & c & tail & E & _ & Hsp & Hc & Hu & G0 & G1).
  exists sp, body, c, tail. split_and!; try done.
  unfold parse_directive. by rewrite G1.
Qed.

Lemma directive_span_witness :
  exists m sp body c tail,
    match_at (pflags DIRECTIVE) (pattern DIRECTIVE) [] directive_then_text = Some m
    /\ directive_then_text = sp ++ str ".." ++ body ++ NL :: c :: tail
    /\ Forall (fun c => c = SP) sp
    /\ nonspace c = true
    /\ unterminated (sp ++ str ".." ++ body ++ [NL]) = true
    /\ group0 m = sp ++ str ".." ++ body ++ [NL]
    /\ parse_directive m ∅
       = {[ "type" := VStr (str "directive");
            "text" := VStr (sp ++ str ".." ++ body) ]}.
Proof.
  eexists.
  assert (H : match_at (pflags DIRECTIVE) (pattern DIRECTIVE) [] directive_then_text
              = Some _) by (vm_compute; reflexivity).
  destruct (directive_span [] directive_then_text _ ∅ H) as (sp & body & c & tail & R).
  exists sp, body, c, tail. split; [exact H | exact R].
Defined.

(** X2.  [DIRECTIVE] matches exactly where a line starts, the text starts
    with spaces and two dots, and some newline of the text is followed by a
    character other than whitespace. *)
Theorem directive_matches_iff (before after : text) :
  is_Some (match_at (pflags DIRECTIVE) (pattern DIRECTIVE) before after)
  <-> at_bol (pflags DIRECTIVE) (Cursor before [] []) = true
      /\ (exists sp more, after = sp ++ str ".." ++ more /\ Forall (fun c => c = SP) sp)
      /\ unterminated after = false.
Proof.
  split.
  - intros [m H].
    destruct (directive_match_first _ _ _ H)
      as (sp & body & c & tail & E & Hbol & Hsp & Hc & _).
    split_and!; [done|by exists sp, (body ++ NL :: c :: tail)|].
    apply unterminated_false. exists (sp ++ str ".." ++ body), c, tail.
    by rewrite <- !app_assoc.
  - intros (Hbol & (sp & more & -> & Hsp) & Hu).
    rewrite !unterminated_app_no_newline in Hu.
    2:{ literals. intros Hin.
        repeat (apply elem_of_cons in Hin as [Hin|Hin]; [done|]).
        by apply elem_of_nil in Hin. }
    2:{ intros Hin. rewrite Forall_forall in Hsp. by apply Hsp in Hin. }
    apply unterminated_false in Hu as (body & c & tail & -> & Hc).
    replace (sp ++ str ".." ++ body ++ NL :: c :: tail)
      with (((([] ++ ((sp ++ [ch "."]) ++ [ch "."]) ++ body) ++ [NL]) ++ [])
             ++ c :: tail)
      by (by rewrite app_nil_r; cbn [app]; rewrite <- !app_assoc).
    eapply parses_match_at. cbn [pflags pattern DIRECTIVE].
    eapply parses_cat_intro; [eapply parses_cat_intro; [eapply parses_cat_intro|]|].
    + by apply parses_bol_intro.
    + apply parses_grp_intro. repeat eapply parses_cat_intro.
      * apply parses_star_intro. by apply Forall_just.
      * apply parses_lit_intro.
      * apply parses_lit_intro.
      * apply parses_star_dot_intro. apply Forall_forall. intros ? _.
        by apply dotall_dot.
    + apply parses_chr_intro, just_refl.
    + apply parses_look_pos. split; [done|]. eexists.
      rewrite exec_chr_cons, Hc. split; reflexivity.
Qed.

Lemma directive_matches_iff_witness :
  is_Some (match_at (pflags DIRECTIVE) (pattern DIRECTIVE) [] directive_then_text).
Proof.
  apply (proj2 (directive_matches_iff [] directive_then_text)).
  split; [reflexivity|]. split; [|vm_compute; reflexivity].
  exists [], (str " note::" ++ [NL] ++ str "   body" ++ [NL] ++ [NL]
                ++ str "Next paragraph" ++ [NL]).
  split; [reflexivity|constructor].
Defined.

(** X3.  Where [DIRECTIVE] matches, [ONELINE_DIRECTIVE] matches too, and
    its text is the first line of the text of [DIRECTIVE]: what follows it
    there is nothing or starts with a newline. *)
Theorem oneline_directive_first_line (before after : text) (m : Match) :
  match_at (pflags DIRECTIVE) (pattern DIRECTIVE) before after = Some m ->
  exists m1 line more,
    match_at (pflags ONELINE_DIRECTIVE) (pattern ONELINE_DIRECTIVE) before after
      = Some m1
    /\ group 1 m1 = Some line
    /\ group 1 m = Some (line ++ more)
    /\ (NL ∉ line)
    /\ (more = [] \/ exists x, more = NL :: x).
Proof.
  intros H.
  destruct (directive_match_first _ _ _ H)
    as (sp & body & c & tail & E & Hbol & Hsp & Hc & _ & _ & G1).
  destruct (oneline_directive_line before sp (body ++ NL :: c :: tail) Hbol Hsp)
    as [m1 H1].
  rewrite <- E in H1.
  destruct (oneline_directive_match _ _ _ H1)
    as (sp' & line & tail' & E' & Hsp' & Hline & Htail & _ & G1').
  rewrite E in E'. revert E'. literals. cbn [app]. intros E'.
  apply spaces_then_dot in E' as [<- E']; [|done|done]. injection E' as E'.
  symmetry in E'.
  destruct (first_line_prefix _ _ _ _ Hline Htail E') as (l & -> & Hl).
  exists m1, (sp ++ str ".." ++ line), l. rewrite G1, G1'.
  split_and!; try done.
  - by rewrite <- !app_assoc.
  - rewrite !not_elem_of_app. split_and!; try done.
    + intros Hin. rewrite Forall_forall in Hsp. by apply Hsp in Hin.
    + literals. intros Hin.
      repeat (apply elem_of_cons in Hin as [Hin|Hin]; [done|]).
      by apply elem_of_nil in Hin.
Qed.

Lemma oneline_directive_first_line_witness :
  exists m m1 line more,
    match_at (pflags DIRECTIVE) (pattern DIRECTIVE) [] directive_then_text = Some m
    /\ match_at (pflags ONELINE_DIRECTIVE) (pattern ONELINE_DIRECTIVE) []
         directive_then_text = Some m1
    /\ group 1 m1 = Some line
    /\ group 1 m = Some (line ++ more)
    /\ (NL ∉ line)
    /\ (more = [] \/ exists x, more = NL :: x).
Proof.
  eexists.
  assert (H : match_at (pflags DIRECTIVE) (pattern DIRECTIVE) [] directive_then_text
              = Some _) by (vm_compute; reflexivity).
  destruct (oneline_directive_first_line [] directive_then_text _ H)
    as (m1 & line & more & R).
  exists m1, line, more. split; [exact H | exact R].
Defined.

(** X4.  [ONELINE_DIRECTIVE] matches exactly where a line starts and the
    text starts with spaces and two dots, whatever follows the dots: a line
    of three dots is a directive to it. *)
Theorem oneline_directive_matches_iff (before after : text) :
  is_Some (match_at (pflags ONELINE_DIRECTIVE) (pattern ONELINE_DIRECTIVE) before after)
  <-> at_bol (pflags ONELINE_DIRECTIVE) (Cursor before [] []) = true
      /\ exists sp more, after = sp ++ str ".." ++ more /\ Forall (fun c => c = SP) sp.
Proof.
  split.
  - intros [m H]. split.
    + apply match_at_parses in H as (w & t & cs & _ & Hp & _).
      cbn [pflags pattern ONELINE_DIRECTIVE] in Hp.
      apply parses_cat in Hp as (w1 & w2 & cs1 & _ & Hp & _).
      apply parses_cat in Hp as (w3 & w4 & cs2 & _ & Hp & _).
      by apply parses_bol in Hp as (_ & _ & Hp).
    + destruct (oneline_directive_match _ _ _ H)
        as (sp & line & tail & E & Hsp & _).
      by exists sp, (line ++ tail).
  - intros (Hbol & sp & more & -> & Hsp). by apply oneline_directive_line.
Qed.

Lemma oneline_directive_matches_iff_witness :
  is_Some (match_at (pflags ONELINE_DIRECTIVE) (pattern ONELINE_DIRECTIVE) []
             (str "... and so on")).
Proof.
  apply (proj2 (oneline_directive_matches_iff [] (str "... and so on"))).
  split; [reflexivity|]. exists [], (str ". and so on").
  split; [reflexivity|constructor].
Defined.

(** X5.  Every match of [REST_CODE_BLOCK] is [::] and whitespace only.  It
    takes the blank lines after the colons: it ends at the end of the text,
    or in front of the newline before the next line that has a character
    other than whitespace.  The token of [parse_rest_code_block] has an
    empty text whatever was matched. *)
Theorem rest_code_block_span (before after : text) (m : Match) (state : State) :
  match_at (pflags REST_CODE_BLOCK) (pattern REST_CODE_BLOCK) before after = Some m ->
  exists ws tail,
    after = str "::" ++ ws ++ tail
    /\ Forall (fun c => space c = true) ws
    /\ group0 m = str "::" ++ ws
    /\ (tail = []
        \/ exists indent d more,
             tail = NL :: indent ++ d :: more
             /\ Forall (fun c => space c = true) indent
             /\ (NL ∉ indent)
             /\ nonspace d = true)
    /\ parse_rest_code_block m state
       = {[ "type" := VStr (str "rest_code_block"); "text" := VStr (str "") ]}.
Proof.
  intros H.
  destruct (rest_code_block_match _ _ _ H) as (ws & tail & E & _ & Hws & G0 & Htail).
  by exists ws, tail.
Qed.

Lemma rest_code_block_span_witness :
  exists m ws tail,
    match_at (pflags REST_CODE_BLOCK) (pattern REST_CODE_BLOCK) [] code_block_marker
      = Some m
    /\ code_block_marker = str "::" ++ ws ++ tail
    /\ Forall (fun c => space c = true) ws
    /\ group0 m = str "::" ++ ws
    /\ (tail = []
        \/ exists indent d more,
             tail = NL :: indent ++ d :: more
             /\ Forall (fun c => space c = true) indent
             /\ (NL ∉ indent)
             /\ nonspace d = true)
    /\ parse_rest_code_block m ∅
       = {[ "type" := VStr (str "rest_code_block"); "text" := VStr (str "") ]}.
Proof.
  eexists.
  assert (H : match_at (pflags REST_CODE_BLOCK) (pattern REST_CODE_BLOCK) []
                code_block_marker = Some _) by (vm_compute; reflexivity).
  destruct (rest_code_block_span [] code_block_marker _ ∅ H) as (ws & tail & R).
  exists ws, tail. split; [exact H | exact R].
Defined.

(** X6.  [REST_CODE_BLOCK] matches exactly where a line starts with [::]
    and only whitespace follows the colons up to the end of a line: colons
    with text after them on the line are no code block marker. *)
Theorem rest_code_block_matches_iff (before after : text) :
  is_Some (match_at (pflags REST_CODE_BLOCK) (pattern REST_CODE_BLOCK) before after)
  <-> at_bol (pflags REST_CODE_BLOCK) (Cursor before [] []) = true
      /\ exists ws tail,
           after = str "::" ++ ws ++ tail
           /\ Forall (fun c => space c = true) ws
           /\ (tail = [] \/ exists t, tail = NL :: t).
Proof.
  split.
  - intros [m H].
    destruct (rest_code_block_match _ _ _ H) as (ws & tail & E & Hbol & Hws & _ & Htail).
    split; [done|]. exists ws, tail. split_and!; try done.
    destruct Htail as [->|(i & d & r & -> & _)]; [by left|right; by eexists].
  - intros (Hbol & ws & tail & -> & Hws & Htail). by apply rest_code_block_line.
Qed.

Lemma rest_code_block_matches_iff_witness :
  is_Some (match_at (pflags REST_CODE_BLOCK) (pattern REST_CODE_BLOCK) []
             code_block_marker).
Proof.
  apply (proj2 (rest_code_block_matches_iff [] code_block_marker)).
  split; [reflexivity|].
  exists [], ([NL; NL] ++ str "    x = 1" ++ [NL]).
  split; [reflexivity|]. split; [constructor|]. right. by eexists.
Defined.

(** ** The rule tables *)

(** X7.  Every rule of the block [DEFAULT_RULES] has a pattern in the
    block [SPECIFICATION], when every inherited rule has one in the
    inherited table; and a rule that is not one of the three of the class
    is an inherited rule and keeps its inherited pattern. *)
Theorem block_rules_have_patterns
    (base_spec : gmap string compiled) (base_rules : list string) (name : string) :
  (forall n, n ∈ base_rules -> is_Some (base_spec !! n)) ->
  name ∈ RestBlockParser.DEFAULT_RULES base_rules ->
  is_Some (RestBlockParser.SPECIFICATION base_spec !! name)
  /\ (name ∉ ["directive"; "oneline_directive"; "rest_code_block"] ->
      name ∈ base_rules
      /\ RestBlockParser.SPECIFICATION base_spec !! name = base_spec !! name).
Proof.
  intros Hbase Hin. unfold RestBlockParser.DEFAULT_RULES in Hin.
  apply elem_of_app in Hin as [Hin|Hin].
  - split.
    + destruct (decide (name ∈ ["directive"; "oneline_directive"; "rest_code_block"]))
        as [Hown|Hown].
      * destruct (block_specification_own base_spec) as (E1 & E2 & E3).
        repeat (apply elem_of_cons in Hown as [->|Hown]; [by eexists|]).
        by apply elem_of_nil in Hown.
      * rewrite block_specification_inherited by done. by apply Hbase.
    + intros Hown. split; [done|]. by apply block_specification_inherited.
  - split; [|done].
    destruct (block_specification_own base_spec) as (E1 & E2 & E3).
    repeat (apply elem_of_cons in Hin as [->|Hin]; [by eexists|]).
    by apply elem_of_nil in Hin.
Qed.

Lemma block_rules_have_patterns_witness :
  is_Some (RestBlockParser.SPECIFICATION Sample.BlockParser_SPECIFICATION
             !! "indent_code")
  /\ ("indent_code" ∉ ["directive"; "oneline_directive"; "rest_code_block"] ->
      "indent_code" ∈ Sample.BlockParser_DEFAULT_RULES
      /\ RestBlockParser.SPECIFICATION Sample.BlockParser_SPECIFICATION !! "indent_code"
         = Sample.BlockParser_SPECIFICATION !! "indent_code").
Proof.
  apply (block_rules_have_patterns Sample.BlockParser_SPECIFICATION
           Sample.BlockParser_DEFAULT_RULES "indent_code").
  - intros n Hn. apply list_elem_of_singleton in Hn as ->. by eexists.
  - apply elem_of_app. left. apply list_elem_of_singleton. reflexivity.
Defined.

(** X8.  Every rule of the inline [DEFAULT_RULES] has a pattern in the
    inline [SPECIFICATION], when every inherited rule has one in the
    inherited table.  [inline_html] is active only as an inherited rule, and
    its pattern is then the [INLINE_HTML] of the class; a rule that is none
    of the five names of the class keeps its inherited pattern. *)
Theorem inline_rules_have_patterns
    (base_spec : gmap string regex) (base_rules : list string)
    (tag attrs : regex) (name : string) :
  (forall n, n ∈ base_rules -> is_Some (base_spec !! n)) ->
  name ∈ RestInlineParser.DEFAULT_RULES base_rules ->
  is_Some (RestInlineParser.SPECIFICATION base_spec tag attrs !! name)
  /\ (name = "inline_html" ->
      name ∈ base_rules
      /\ RestInlineParser.SPECIFICATION base_spec tag attrs !! name
         = Some (INLINE_HTML tag attrs))
  /\ (name ∉ ["inline_math"; "rest_link"; "rest_role"; "eol_literal_marker";
              "inline_html"] ->
      name ∈ base_rules
      /\ RestInlineParser.SPECIFICATION base_spec tag attrs !! name = base_spec !! name).
Proof.
  intros Hbase Hin. unfold RestInlineParser.DEFAULT_RULES in Hin.
  destruct (inline_specification_own base_spec tag attrs) as (E1 & E2 & E3 & E4 & E5).
  apply elem_of_app in Hin as [Hin|Hin].
  - split_and!.
    + repeat (apply elem_of_cons in Hin as [->|Hin]; [by eexists|]).
      by apply elem_of_nil in Hin.
    + intros ->. exfalso.
      repeat (apply elem_of_cons in Hin as [Hin|Hin]; [done|]).
      by apply elem_of_nil in Hin.
    + intros Hown. exfalso. apply Hown.
      repeat (apply elem_of_cons in Hin as [->|Hin]; [set_solver|]).
      by apply elem_of_nil in Hin.
  - split_and!.
    + destruct (decide (name ∈ ["inline_math"; "rest_link"; "rest_role";
                                "eol_literal_marker"; "inline_html"])) as [Hown|Hown].
      * repeat (apply elem_of_cons in Hown as [->|Hown]; [by eexists|]).
        by apply elem_of_nil in Hown.
      * rewrite inline_specification_inherited by done. by apply Hbase.
    + by intros ->.
    + intros Hown. split; [done|]. by apply inline_specification_inherited.
Qed.

Lemma inline_rules_have_patterns_witness :
  is_Some (RestInlineParser.SPECIFICATION Sample.InlineParser_SPECIFICATION
             Mistune.HTML_TAGNAME Mistune.HTML_ATTRIBUTES !! "escape")
  /\ ("escape" = "inline_html" ->
      "escape" ∈ Sample.InlineParser_DEFAULT_RULES
      /\ RestInlineParser.SPECIFICATION Sample.InlineParser_SPECIFICATION
           Mistune.HTML_TAGNAME Mistune.HTML_ATTRIBUTES !! "escape"
         = Some (INLINE_HTML Mistune.HTML_TAGNAME Mistune.HTML_ATTRIBUTES))
  /\ ("escape" ∉ ["inline_math"; "rest_link"; "rest_role"; "eol_literal_marker";
                  "inline_html"] ->
      "escape" ∈ Sample.InlineParser_DEFAULT_RULES
      /\ RestInlineParser.SPECIFICATION Sample.InlineParser_SPECIFICATION
           Mistune.HTML_TAGNAME Mistune.HTML_ATTRIBUTES !! "escape"
         = Sample.InlineParser_SPECIFICATION !! "escape").
Proof.
  apply (inline_rules_have_patterns Sample.InlineParser_SPECIFICATION
           Sample.InlineParser_DEFAULT_RULES Mistune.HTML_TAGNAME
           Mistune.HTML_ATTRIBUTES "escape").
  - intros n Hn. apply list_elem_of_singleton in Hn as ->. by eexists.
  - apply elem_of_app. right. apply list_elem_of_singleton. reflexivity.
Defined.

(** ** The inline patterns *)

(** X9.  [REST_LINK] matches exactly a backtick, a text without backtick, a
    backtick and an underscore, and [parse_rest_link] returns the matched
    text as it is. *)
Theorem rest_link_passthrough (f : flags) (before after w : text) (state : State) :
  (fun m => parse_rest_link m state) <$> match_at f REST_LINK before after
  = Some [VStr (str "rest_link"); VStr w]
  <-> exists phrase tail,
        after = w ++ tail /\ w = str "`" ++ phrase ++ str "`_" /\ (BQ ∉ phrase).
Proof.
  split.
  - destruct (match_at f REST_LINK before after) as [m|] eqn:H; [|done].
    intros [= <-]. destruct (rest_link_match _ _ _ _ H) as (phrase & tail & E & Hp & G).
    exists phrase, tail. rewrite G. split_and!; try done. by rewrite <- !app_assoc.
  - intros (phrase & tail & -> & -> & Hp).
    destruct (rest_link_matches f before phrase tail Hp) as [m H].
    rewrite <- !app_assoc. rewrite H. cbn [fmap option_fmap option_map].
    unfold parse_rest_link. do 3 f_equal.
    destruct (rest_link_match _ _ _ _ H) as (phrase' & tail' & E & Hp' & ->).
    revert E. literals. cbn [app]. intros [= E].
    by apply backtick_free_unique in E as [-> _].
Qed.

Lemma rest_link_passthrough_witness :
  (fun m => parse_rest_link m ∅)
    <$> match_at no_flags REST_LINK (rev (str "see ")) (str "`the docs`_ and more")
  = Some [VStr (str "rest_link"); VStr (str "`the docs`_")].
Proof.
  apply (rest_link_passthrough no_flags (rev (str "see ")) (str "`the docs`_ and more")
           (str "`the docs`_") ∅).
  exists (str "the docs"), (str " and more"). split_and!; [reflexivity|reflexivity|].
  vm_compute. intros Hin.
  repeat (apply elem_of_cons in Hin as [Hin|Hin]; [discriminate Hin|]).
  by apply elem_of_nil in Hin.
Defined.

(** X10.  Where [REST_LINK] matches, [REST_ROLE] does not: the order of the
    two rules in [DEFAULT_RULES] decides nothing. *)
Theorem rest_link_excludes_rest_role (f : flags) (before after : text) :
  is_Some (match_at f REST_LINK before after) ->
  match_at f REST_ROLE before after = None.
Proof.
  intros [m H]. destruct (rest_link_match _ _ _ _ H) as (phrase & tail & E & Hp & _).
  destruct (match_at f REST_ROLE before after) as [m'|] eqn:H'; [|done]. exfalso.
  destruct (rest_role_match _ _ _ _ H')
    as (tail' & E' & [(role & code & G)|(code & role & _ & Hc & G)]);
    rewrite G, E in E'; revert E'; literals; norm_app; intros [= E']; try done.
  apply backtick_free_unique in E' as [_ E']; [|done|done]. done.
Qed.

Lemma rest_link_excludes_rest_role_witness :
  match_at no_flags REST_ROLE [] (str "`the docs`_") = None.
Proof.
  apply (rest_link_excludes_rest_role no_flags [] (str "`the docs`_")).
  vm_compute. eexists. reflexivity.
Defined.

(** X11.  A pattern compiled without MULTILINE: every match of
    [EOL_LITERAL_MARKER] runs to the end of the text, which is whitespace,
    [::] and whitespace; group 1 is the whitespace in front of the colons,
    and is [None] when there is none. *)
Theorem eol_literal_marker_ends_text
    (f : flags) (before after : text) (m : Match) :
  MULTILINE f = false ->
  match_at f EOL_LITERAL_MARKER before after = Some m ->
  group0 m = after
  /\ exists pre ws,
       after = pre ++ str "::" ++ ws
       /\ Forall (fun c => space c = true) pre
       /\ Forall (fun c => space c = true) ws
       /\ group 1 m = (if decide (pre = []) then None else Some pre).
Proof.
  intros Hf H.
  destruct (eol_literal_marker_end _ _ _ _ H)
    as (pre & ws & tail & E & Hpre & Hws & G0 & G1 & [->|[Hm _]]); [|congruence].
  rewrite !app_nil_r in E. split; [congruence|]. by exists pre, ws.
Qed.

Lemma eol_literal_marker_ends_text_witness :
  exists m,
    match_at no_flags EOL_LITERAL_MARKER (rev (str "see")) (str " ::" ++ [NL]) = Some m
    /\ group0 m = str " ::" ++ [NL]
    /\ exists pre ws,
         str " ::" ++ [NL] = pre ++ str "::" ++ ws
         /\ Forall (fun c => space c = true) pre
         /\ Forall (fun c => space c = true) ws
         /\ group 1 m = (if decide (pre = []) then None else Some pre).
Proof.
  eexists. split; [vm_compute; reflexivity|].
  apply (eol_literal_marker_ends_text no_flags (rev (str "see")) (str " ::" ++ [NL])).
  - reflexivity.
  - vm_compute. reflexivity.
Defined.

(** X12.  A pattern compiled without MULTILINE: where [EOL_LITERAL_MARKER]
    matches, none of [INLINE_MATH], [REST_ROLE] and [REST_LINK] does. *)
Theorem eol_literal_marker_excludes_others (f : flags) (before after : text) :
  MULTILINE f = false ->
  is_Some (match_at f EOL_LITERAL_MARKER before after) ->
  match_at f INLINE_MATH before after = None
  /\ match_at f REST_ROLE before after = None
  /\ match_at f REST_LINK before after = None.
Proof.
  intros Hf [m H].
  destruct (eol_literal_marker_end _ _ _ _ H)
    as (pre & ws & tail & E & Hpre & Hws & _ & _ & [->|[Hm _]]); [|congruence].
  rewrite !app_nil_r in E.
  assert (Hbq : BQ ∉ after).
  { rewrite E, !not_elem_of_app. split_and!.
    - by apply Forall_space_no_backtick.
    - literals. intros Hin.
      repeat (apply elem_of_cons in Hin as [Hin|Hin]; [done|]).
      by apply elem_of_nil in Hin.
    - by apply Forall_space_no_backtick. }
  split_and!.
  - destruct (match_at f INLINE_MATH before after) as [m'|] eqn:H'; [|done]. exfalso.
    destruct (inline_math_match _ _ _ _ H') as (expr & tail & E' & _).
    apply Hbq. rewrite E'. literals. cbn [app]. by left.
  - destruct (match_at f REST_ROLE before after) as [m'|] eqn:H'; [|done]. exfalso.
    destruct (rest_role_match _ _ _ _ H')
      as (tail & E' & [(role & code & G)|(code & role & _ & _ & G)]);
      apply Hbq; rewrite E', G; literals; set_solver.
  - destruct (match_at f REST_LINK before after) as [m'|] eqn:H'; [|done]. exfalso.
    destruct (rest_link_match _ _ _ _ H') as (phrase & tail & E' & _).
    apply Hbq. rewrite E'. literals. cbn [app]. by left.
Qed.

Lemma eol_literal_marker_excludes_others_witness :
  match_at no_flags INLINE_MATH (rev (str "see")) (str " ::") = None
  /\ match_at no_flags REST_ROLE (rev (str "see")) (str " ::") = None
  /\ match_at no_flags REST_LINK (rev (str "see")) (str " ::") = None.
Proof.
  apply (eol_literal_marker_excludes_others no_flags (rev (str "see")) (str " ::")).
  - reflexivity.
  - vm_compute. eexists. reflexivity.
Defined.

(** X13.  Plain text does not run over the start of a construct: where
    [INLINE_MATH], [REST_ROLE] or [REST_LINK] matches after [c :: pre], the
    match of [TEXT] that starts at [c] ends inside [c :: pre]. *)
Theorem text_stops_before_constructs
    (f : flags) (p : regex) (before pre after : text) (c : N) (m mt : Match) :
  p ∈ [INLINE_MATH; REST_ROLE; REST_LINK] ->
  match_at f p (rev pre ++ c :: before) after = Some m ->
  match_at f TEXT before (c :: pre ++ after) = Some mt ->
  exists kept, c :: pre = group0 mt ++ kept.
Proof.
  intros Hp H Ht. pose proof (construct_start_boundary _ _ _ _ _ Hp H) as Hb.
  destruct (text_match _ _ _ _ Ht) as (c' & w & tail & E & -> & _ & Hmin).
  injection E as <- E. apply app_eq_app in E as [l [[-> _]|[-> E]]].
  - by exists l.
  - destruct l as [|d l]; [exists []; by rewrite !app_nil_r|].
    specialize (Hmin pre (d :: l) eq_refl ltac:(done)). rewrite <- E in Hmin.
    congruence.
Qed.

Lemma text_stops_before_constructs_witness :
  exists m mt kept,
    match_at no_flags REST_ROLE (rev (str "ee") ++ ch "s" :: []) (str ":ref:`x`")
      = Some m
    /\ match_at no_flags TEXT [] (ch "s" :: str "ee" ++ str ":ref:`x`") = Some mt
    /\ ch "s" :: str "ee" = group0 mt ++ kept.
Proof.
  eexists _, _.
  assert (H : match_at no_flags REST_ROLE (rev (str "ee") ++ ch "s" :: [])
                (str ":ref:`x`") = Some _) by (vm_compute; reflexivity).
  assert (Ht : match_at no_flags TEXT [] (ch "s" :: str "ee" ++ str ":ref:`x`")
               = Some _) by (vm_compute; reflexivity).
  destruct (text_stops_before_constructs no_flags REST_ROLE [] (str "ee")
              (str ":ref:`x`") (ch "s") _ _ ltac:(set_solver) H Ht) as [kept R].
  exists kept. split; [|split; [exact Ht|exact R]].
  exact H.
Defined.

(** ** Inline HTML *)

(** X14.  An open tag, contents that [.] matches and that do not end with a
    backslash, and a close tag, with no [<] after it, are one match of
    [INLINE_HTML], and group 1 is the contents.  The two tag names need not
    be the same, and the contents may hold tags. *)
Theorem inline_html_open_close_span
    (f : flags) (TAG ATTRS : regex)
    (before name attrs ws contents name' ws' tail : text) :
  tag_name_like f TAG ->
  attributes_like f ATTRS ->
  not_after backslash (Cursor before [] []) = true ->
  is_Some (re_fullmatch f TAG name) ->
  is_Some (re_fullmatch f ATTRS attrs) ->
  Forall (fun c => space c = true) ws ->
  Forall (fun c => dot f c = true) contents ->
  escaped contents = false ->
  is_Some (re_fullmatch f TAG name') ->
  Forall (fun c => space c = true) ws' ->
  ch "<" ∉ tail ->
  exists m,
    match_at f (INLINE_HTML TAG ATTRS) before
      ((open_tag name attrs ws ++ contents ++ close_tag name' ws') ++ tail) = Some m
    /\ group0 m = open_tag name attrs ws ++ contents ++ close_tag name' ws'
    /\ group 1 m = Some contents.
Proof.
  intros Htag Hattributes Hbefore Hname Hattrs Hws Hdot Hesc Hname' Hws' Htail.
  pose proof (open_close_matches f TAG ATTRS Htag Hattributes before name attrs ws
                contents name' ws' tail Hbefore Hname Hattrs Hws Hdot Hesc Hname' Hws')
    as [e He].
  pose proof (open_close_result f TAG ATTRS Htag Hattributes before name attrs ws
                contents name' ws' tail Hname Hattrs Hws Hdot Hesc Hname' Hws' Htail
                e He) as ->.
  eexists. unfold match_at. rewrite exec_inline_html, He.
  cbn [orelse fmap option_fmap option_map].
  split; [reflexivity|]. unfold group0, group.
  cbn [m_start m_end caps find fst snd Nat.eqb fmap option_fmap option_map].
  split; [|done]. by apply between_eq.
Qed.

Lemma inline_html_open_close_span_witness :
  exists m,
    match_at no_flags (INLINE_HTML Mistune.HTML_TAGNAME Mistune.HTML_ATTRIBUTES)
      (rev (str "a "))
      ((open_tag (str "b") (str " class='x'") []
          ++ str "bold <i>and</i> more" ++ close_tag (str "b") []) ++ str " z")
    = Some m
    /\ group0 m = open_tag (str "b") (str " class='x'") []
                    ++ str "bold <i>and</i> more" ++ close_tag (str "b") []
    /\ group 1 m = Some (str "bold <i>and</i> more").
Proof.
  apply (inline_html_open_close_span no_flags Mistune.HTML_TAGNAME
           Mistune.HTML_ATTRIBUTES (rev (str "a ")) (str "b")
           (str " class='x'") [] (str "bold <i>and</i> more") (str "b") [] (str " z")).
  - apply mistune_tagname_like.
  - apply mistune_attributes_like.
  - reflexivity.
  - vm_compute. eexists. reflexivity.
  - vm_compute. eexists. reflexivity.
  - constructor.
  - vm_compute. repeat constructor.
  - reflexivity.
  - vm_compute. eexists. reflexivity.
  - constructor.
  - vm_compute. intros Hin.
    repeat (apply elem_of_cons in Hin as [Hin|Hin]; [discriminate Hin|]).
    by apply elem_of_nil in Hin.
Defined.

(** X15.  A self-closing tag with no [<] after it is one match of
    [INLINE_HTML], without group 1. *)
Theorem inline_html_self_closing
    (f : flags) (TAG ATTRS : regex) (before name attrs ws tail : text) :
  tag_name_like f TAG ->
  attributes_like f ATTRS ->
  not_after backslash (Cursor before [] []) = true ->
  is_Some (re_fullmatch f TAG name) ->
  is_Some (re_fullmatch f ATTRS attrs) ->
  Forall (fun c => space c = true) ws ->
  ch "<" ∉ tail ->
  exists m,
    match_at f (INLINE_HTML TAG ATTRS) before
      (self_closing_tag name attrs ws ++ tail) = Some m
    /\ group0 m = self_closing_tag name attrs ws
    /\ group 1 m = None.
Proof.
  intros Htag Hattributes Hbefore Hname Hattrs Hws Htail.
  apply (match_at_of_exec f _ before (self_closing_tag name attrs ws) tail []).
  by apply self_closing_exec.
Qed.

Lemma inline_html_self_closing_witness :
  exists m,
    match_at no_flags (INLINE_HTML Mistune.HTML_TAGNAME Mistune.HTML_ATTRIBUTES) []
      (self_closing_tag (str "br") [] (str " ") ++ str "next") = Some m
    /\ group0 m = self_closing_tag (str "br") [] (str " ")
    /\ group 1 m = None.
Proof.
  apply (inline_html_self_closing no_flags Mistune.HTML_TAGNAME Mistune.HTML_ATTRIBUTES
           [] (str "br") [] (str " ") (str "next")).
  - apply mistune_tagname_like.
  - apply mistune_attributes_like.
  - reflexivity.
  - vm_compute. eexists. reflexivity.
  - vm_compute. eexists. reflexivity.
  - vm_compute. repeat constructor.
  - vm_compute. intros Hin.
    repeat (apply elem_of_cons in Hin as [Hin|Hin]; [discriminate Hin|]).
    by apply elem_of_nil in Hin.
Defined.

(** X16.  A processing instruction, a declaration and a CDATA section are
    one match of [INLINE_HTML] each: the opener, one character at least,
    and the text up to the first closer. *)
Theorem inline_html_opaque_forms
    (f : flags) (tag attrs : regex) (before : text) (form : html_form)
    (c : N) (body tail : text) :
  (forall sn w t cs cs', parses f tag sn w t cs cs' ->
     exists d w', w = d :: w' /\ d <> ch "?" /\ d <> ch "!") ->
  not_after backslash (Cursor before [] []) = true ->
  html_form_ok form = true ->
  absent_inside (html_closer form) (html_closer form ++ tail) body = true ->
  exists m,
    match_at f (INLINE_HTML tag attrs) before
      (html_opener form ++ c :: body ++ html_closer form ++ tail) = Some m
    /\ group0 m = html_opener form ++ c :: body ++ html_closer form
    /\ group 1 m = None.
Proof.
  intros Htag Hbefore Hok Habs.
  assert (E : html_opener form ++ c :: body ++ html_closer form ++ tail
              = (html_opener form ++ c :: body ++ html_closer form) ++ tail).
  { rewrite <- !app_assoc. cbn [app]. by rewrite <- !app_assoc. }
  rewrite E.
  apply (match_at_of_exec f _ before
           (html_opener form ++ c :: body ++ html_closer form) tail []).
  rewrite <- E. by apply opaque_forms_exec.
Qed.

Lemma inline_html_opaque_forms_witness :
  exists m,
    match_at no_flags (INLINE_HTML Mistune.HTML_TAGNAME Mistune.HTML_ATTRIBUTES) []
      (html_opener CData ++ ch "[" :: str "a > b]" ++ html_closer CData ++ str " z")
    = Some m
    /\ group0 m = html_opener CData ++ ch "[" :: str "a > b]" ++ html_closer CData
    /\ group 1 m = None.
Proof.
  apply (inline_html_opaque_forms no_flags Mistune.HTML_TAGNAME Mistune.HTML_ATTRIBUTES
           [] CData (ch "[") (str "a > b]") (str " z")).
  - apply tagname_not_mark.
  - reflexivity.
  - reflexivity.
  - vm_compute. reflexivity.
Defined.

(** X17.  Every match of [INLINE_HTML] starts with [<], ends with [>], and
    does not start right after a backslash. *)
Theorem inline_html_delimiters
    (f : flags) (tag attrs : regex) (before after : text) (m : Match) :
  match_at f (INLINE_HTML tag attrs) before after = Some m ->
  (forall b, before <> ch "\" :: b)
  /\ exists inner tail,
       group0 m = str "<" ++ inner ++ str ">" /\ after = group0 m ++ tail.
Proof.
  intros H. apply match_at_parses in H as (w & t & cs & -> & Hp & _ & ->).
  apply inline_html_shape in Hp as [Hna [inner ->]]. split.
  - intros b ->. unfold not_after, backslash in Hna. cbn [seen] in Hna.
    by rewrite just_refl in Hna.
  - exists inner, t. by split.
Qed.

Lemma inline_html_delimiters_witness :
  exists m,
    match_at no_flags (INLINE_HTML Mistune.HTML_TAGNAME Mistune.HTML_ATTRIBUTES) []
      (str "<br/> next") = Some m
    /\ (forall b, [] <> ch "\" :: b)
    /\ exists inner tail,
         group0 m = str "<" ++ inner ++ str ">" /\ str "<br/> next" = group0 m ++ tail.
Proof.
  eexists. split; [vm_compute; reflexivity|].
  apply (inline_html_delimiters no_flags Mistune.HTML_TAGNAME Mistune.HTML_ATTRIBUTES
           [] (str "<br/> next")).
  vm_compute. reflexivity.
Defined.
